(** * Locale routing of the AMD site (assets/js/i18n.js)

    A shallow embedding of the [I18n] object of [assets/js/i18n.js]:
    the locale resolver ([getCurrentLang], [getPreferredLang]), the
    preference store ([savePreference]), the load-time router
    ([detectAndRedirect], [init]), the address rewriter ([switchTo],
    [getAlternateUrl]) and the switcher synchroniser
    ([updateHtmlAttributes], [updateLanguageSwitcher]).

    JavaScript strings are modelled as [string]; the handful of
    [String.prototype] methods the script calls are defined in [Module JS]
    from their ECMAScript meaning.  Every text the script searches for
    or splits on is ASCII, and [window.location.pathname] is
    percent-encoded, so working on 8-bit characters loses nothing.  The browser objects the script reads
    and writes ([window.location], [localStorage], [navigator],
    [document], [console]) are the fields of one record, [Browser], which
    every method threads explicitly; a method that can raise returns a
    [Completion]. *)

From stdpp Require Import gmap strings list.
From Stdlib Require Import ZArith Ascii.

Local Open Scope Z_scope.

(** ** The ECMAScript string and array methods the script relies on *)

Module JS.

(** [s.startsWith(pre)] *)
Fixpoint startsWith (s pre : string) {struct pre} : bool :=
  match pre with
  | EmptyString => true
  | String a pre' =>
      match s with
      | EmptyString => false
      | String b s' => if decide (a = b) then startsWith s' pre' else false
      end
  end.

(** [s.includes(needle)]: [needle] starts at some position of [s]. *)
Fixpoint includes (s needle : string) : bool :=
  startsWith s needle ||
  match s with
  | EmptyString => false
  | String _ s' => includes s' needle
  end.

(** [s.endsWith(suf)]: some tail of [s] is [suf]. *)
Fixpoint endsWith (s suf : string) : bool :=
  bool_decide (s = suf) ||
  match s with
  | EmptyString => false
  | String _ s' => endsWith s' suf
  end.

(** Whether the character [c] occurs in [s]. *)
Fixpoint occurs (c : ascii) (s : string) : bool :=
  match s with
  | EmptyString => false
  | String a s' => bool_decide (a = c) || occurs c s'
  end.

(** [s.lastIndexOf(c)] for a one-character search string; [-1] when
    [c] does not occur. *)
Fixpoint lastIndexOf (s : string) (c : ascii) : Z :=
  match s with
  | EmptyString => -1
  | String a s' =>
      let i := lastIndexOf s' c in
      if 0 <=? i then i + 1
      else if decide (a = c) then 0 else -1
  end.

(** [s.substring(from, to)]: both indices are clamped to
    [0 .. s.length] and swapped when out of order. *)
Definition clamp (s : string) (i : Z) : nat :=
  Z.to_nat (Z.min (Z.max i 0) (Z.of_nat (String.length s))).

Definition substring (s : string) (from to : Z) : string :=
  let a := clamp s from in
  let b := clamp s to in
  String.substring (Nat.min a b) (Nat.max a b - Nat.min a b) s.

(** [s.split(c)] for a one-character separator: never empty, the
    empty string splits into one empty piece. *)
Fixpoint split (s : string) (c : ascii) : list string :=
  match s with
  | EmptyString => [EmptyString]
  | String a s' =>
      if decide (a = c) then EmptyString :: split s' c
      else match split s' c with
           | piece :: rest => String a piece :: rest
           | [] => [String a EmptyString]
           end
  end.

(** What [arr.pop()] returns: the last element, [undefined] on []. *)
Definition pop (arr : list string) : option string := last arr.

(** What [arr[0]] returns. *)
Definition first (arr : list string) : option string := head arr.

(** [s] without its first [n] characters. *)
Fixpoint drop (n : nat) (s : string) : string :=
  match n, s with
  | O, _ => s
  | S _, EmptyString => EmptyString
  | S n', String _ s' => drop n' s'
  end.

(** [s.replace(new RegExp('^' + lit), '')] for a literal [lit] without
    regular-expression metacharacters: removes [lit] when [s] starts
    with it and returns [s] otherwise. *)
Definition replace_anchored (s lit : string) : string :=
  if startsWith s lit then drop (String.length lit) s else s.

(** [s.toLowerCase()] on the Latin capitals.  No character outside
    ASCII lower-cases to a letter of a supported locale code, so this
    is all that the membership test that follows can observe. *)
Definition lower_char (c : ascii) : ascii :=
  let n := nat_of_ascii c in
  if ((65 <=? n) && (n <=? 90))%nat then ascii_of_nat (n + 32) else c.

Fixpoint toLowerCase (s : string) : string :=
  match s with
  | EmptyString => EmptyString
  | String a s' => String (lower_char a) (toLowerCase s')
  end.

(** [arr.includes(x)] on an array of strings. *)
Definition array_includes (arr : list string) (x : string) : bool :=
  bool_decide (x ∈ arr).

(** String coercion of a value that is a string or [null], as in
    ['/' + currentLang]. *)
Definition to_string (v : option string) : string :=
  match v with
  | Some s => s
  | None => "null"
  end.

(** Truthiness of a value that is a string, [null] or [undefined]. *)
Definition truthy (v : option string) : bool :=
  match v with
  | Some s => negb (bool_decide (s = ""))
  | None => false
  end.

End JS.

(** ** The page as the script sees it *)

(** The two click handlers of the script: the one [bindEvents] attaches
    to the [.lang-switch__btn] elements and the one it attaches to the
    [[data-switch-lang]] elements. *)
Inductive Listener := ButtonClick | SwitchLangClick.

(** A [.lang-switch__btn] element: its [data-lang] attribute, its class
    list, its [aria-current] attribute, its [data-switch-lang] attribute
    ([None] when the element does not carry it, so that
    [[data-switch-lang]] does not select it) and the click listeners
    attached to it, in the order they were attached. *)
Record Button := mkButton {
  data_lang : option string;
  classList : list string;
  aria_current : option string;
  switch_lang : option string;
  click_listeners : list Listener
}.

(** An element matched by [[data-switch-lang]] that is not a
    [.lang-switch__btn]: only the second handler is ever attached to
    it, so its listeners are counted. *)
Record Link := mkLink {
  data_switch_lang : option string;
  link_listeners : nat
}.

Record Browser := mkBrowser {
  pathname : string;                        (* window.location.pathname *)
  protocol : string;                        (* window.location.protocol *)
  navigations : list string;                (* values assigned to
                                               window.location.href, oldest first *)
  localStorage : option (gmap string string);
                                            (* None: every access raises *)
  language : string;                        (* navigator.language *)
  html_lang : option string;                (* <html lang> *)
  html_dir : option string;                 (* <html dir> *)
  buttons : list Button;                    (* querySelectorAll('.lang-switch__btn') *)
  links : list Link;                        (* the other elements of
                                               querySelectorAll('[data-switch-lang]'):
                                               those not among [buttons] *)
  console : list string                     (* console.warn messages, oldest first *)
}.

Definition set_navigations (v : list string) (w : Browser) : Browser :=
  mkBrowser (pathname w) (protocol w) v (localStorage w) (language w)
            (html_lang w) (html_dir w) (buttons w) (links w) (console w).

Definition set_localStorage (v : option (gmap string string)) (w : Browser) : Browser :=
  mkBrowser (pathname w) (protocol w) (navigations w) v (language w)
            (html_lang w) (html_dir w) (buttons w) (links w) (console w).

Definition set_html (l d : option string) (w : Browser) : Browser :=
  mkBrowser (pathname w) (protocol w) (navigations w) (localStorage w) (language w)
            l d (buttons w) (links w) (console w).

Definition set_buttons (v : list Button) (w : Browser) : Browser :=
  mkBrowser (pathname w) (protocol w) (navigations w) (localStorage w) (language w)
            (html_lang w) (html_dir w) v (links w) (console w).

Definition set_links (v : list Link) (w : Browser) : Browser :=
  mkBrowser (pathname w) (protocol w) (navigations w) (localStorage w) (language w)
            (html_lang w) (html_dir w) (buttons w) v (console w).

Definition set_console (v : list string) (w : Browser) : Browser :=
  mkBrowser (pathname w) (protocol w) (navigations w) (localStorage w) (language w)
            (html_lang w) (html_dir w) (buttons w) (links w) v.

(** How a method call ends: normally, with a value, or by an exception
    that nothing in the script catches. *)
Inductive Completion (A : Type) : Type :=
  | Normal (a : A) (w : Browser)
  | Throw (e : string) (w : Browser).
Arguments Normal {A} a w.
Arguments Throw {A} e w.

Definition M (A : Type) : Type := Browser → Completion A.

Global Instance M_ret : MRet M := λ A a w, Normal a w.

Global Instance M_bind : MBind M := λ A B f m w,
  match m w with
  | Normal a w' => f a w'
  | Throw e w' => Throw e w'
  end.

(** A statement that only updates the page. *)
Definition modify (f : Browser → Browser) : M unit := λ w, Normal tt (f w).

(** The page a completion leaves behind. *)
Definition page_of {A} (c : Completion A) : Browser :=
  match c with
  | Normal _ w => w
  | Throw _ w => w
  end.

Definition completes {A} (c : Completion A) : bool :=
  match c with
  | Normal _ _ => true
  | Throw _ _ => false
  end.

(** [localStorage.getItem(key)] and [localStorage.setItem(key, v)]. *)
Definition getItem (key : string) : M (option string) := λ w,
  match localStorage w with
  | Some items => Normal (items !! key) w
  | None => Throw "SecurityError" w
  end.

Definition setItem (key v : string) : M unit := λ w,
  match localStorage w with
  | Some items => Normal tt (set_localStorage (Some (<[key := v]> items)) w)
  | None => Throw "SecurityError" w
  end.

(** [window.location.href = url] *)
Definition assign_href (url : string) : M unit :=
  modify (λ w, set_navigations (navigations w ++ [url]) w).

(** [console.warn(msg)] *)
Definition console_warn (msg : string) : M unit :=
  modify (λ w, set_console (console w ++ [msg]) w).

(** [el.classList.add(c)] and [el.classList.remove(c)]. *)
Definition classList_add (c : string) (cl : list string) : list string :=
  if bool_decide (c ∈ cl) then cl else cl ++ [c].

Definition classList_remove (c : string) (cl : list string) : list string :=
  filter (λ x, x ≠ c) cl.

(** ** The [I18n] object *)

Module I18n.

Definition STORAGE_KEY : string := "amd-lang".
Definition SUPPORTED_LANGS : list string := ["en"; "ar"].
Definition DEFAULT_LANG : string := "en".

(** Body of [getCurrentLang] on a given [window.location.pathname]. *)
Definition getCurrentLang_at (path : string) : option string :=
  if JS.includes path "ar/" || JS.endsWith path "ar"
     || JS.includes path "\ar\" || JS.includes path "ar/index.html"
  then Some "ar"
  else if JS.includes path "en/" || JS.endsWith path "en"
          || JS.includes path "\en\" || JS.includes path "en/index.html"
  then Some "en"
  else None.

Definition getCurrentLang (w : Browser) : option string :=
  getCurrentLang_at (pathname w).

(** [navigator.language.split('-')[0].toLowerCase()] *)
Definition browserLang (w : Browser) : string :=
  JS.toLowerCase (default EmptyString (JS.first (JS.split (language w) "-"))).

Definition getPreferredLang : M string :=
  stored ← getItem STORAGE_KEY;
  if JS.truthy stored && JS.array_includes SUPPORTED_LANGS (JS.to_string stored)
  then mret (JS.to_string stored)
  else λ w,
    if JS.array_includes SUPPORTED_LANGS (browserLang w)
    then Normal (browserLang w) w
    else Normal DEFAULT_LANG w.

Definition savePreference (lang : string) : M unit :=
  setItem STORAGE_KEY lang.

Definition updateHtmlAttributes (lang : string) : M unit :=
  modify (set_html (Some lang)
                   (Some (if bool_decide (lang = "ar") then "rtl" else "ltr"))).

Definition ACTIVE_CLASS : string := "lang-switch__btn--active".

(** One turn of the [forEach] of [updateLanguageSwitcher]. *)
Definition update_button (currentLang : string) (btn : Button) : Button :=
  if bool_decide (data_lang btn = Some currentLang)
  then mkButton (data_lang btn)
                (classList_add ACTIVE_CLASS (classList btn))
                (Some "true")
                (switch_lang btn)
                (click_listeners btn)
  else mkButton (data_lang btn)
                (classList_remove ACTIVE_CLASS (classList btn))
                None
                (switch_lang btn)
                (click_listeners btn).

Definition updateLanguageSwitcher (currentLang : string) : M unit :=
  modify (λ w, set_buttons (update_button currentLang <$> buttons w) w).

Definition detectAndRedirect : M unit := λ w,
  match getCurrentLang w with
  | Some currentLang =>
      (savePreference currentLang ;;
       updateHtmlAttributes currentLang ;;
       updateLanguageSwitcher currentLang) w
  | None =>
      let path := pathname w in
      if bool_decide (path = "/") || bool_decide (path = "")
      then (preferredLang ← getPreferredLang;
            assign_href ("./" +:+ preferredLang +:+ "/")) w
      else Normal tt w
  end.

(** [path.split('/').pop() || 'index.html'] *)
Definition filename_of (path : string) : string :=
  let last := JS.pop (JS.split path "/") in
  if JS.truthy last then JS.to_string last else "index.html".

(** The [file:] branch of [switchTo]: the address it navigates to. *)
Definition file_target (currentLang : option string) (newLang path : string) : string :=
  let filename := filename_of path in
  let currentDir := JS.substring path 0 (JS.lastIndexOf path "/") in
  if JS.endsWith currentDir ("/" +:+ JS.to_string currentLang)
  then
    let parentDir := JS.substring currentDir 0 (JS.lastIndexOf currentDir "/") in
    if bool_decide (newLang = "en")
    then parentDir +:+ "/" +:+ filename
    else parentDir +:+ "/" +:+ newLang +:+ "/" +:+ filename
  else
    if bool_decide (currentLang = Some "en") && bool_decide (newLang = "ar")
    then currentDir +:+ "/ar/" +:+ filename
    else currentDir +:+ "/" +:+ newLang +:+ "/" +:+ filename.

(** [if (!path.startsWith('/')) path = '/' + path], as both [switchTo]
    and [getAlternateUrl] do. *)
Definition ensure_slash (path : string) : string :=
  if negb (JS.startsWith path "/") then "/" +:+ path else path.

(** [if (currentLang) path = path.replace(new RegExp(`^/${currentLang}`), '')] *)
Definition strip_lang_prefix (currentLang : option string) (path : string) : string :=
  if JS.truthy currentLang
  then JS.replace_anchored path ("/" +:+ JS.to_string currentLang)
  else path.

(** The server branch of [switchTo]: the address it navigates to. *)
Definition server_target (currentLang : option string) (newLang path : string) : string :=
  let path := strip_lang_prefix currentLang path in
  let path := ensure_slash path in
  if bool_decide (newLang = "en")
  then (if bool_decide (path = "/") then "/" else path)
  else (if bool_decide (path = "/")
        then "/" +:+ newLang +:+ "/"
        else "/" +:+ newLang +:+ path).

Definition switchTo (newLang : string) : M unit := λ w,
  if negb (JS.array_includes SUPPORTED_LANGS newLang)
  then console_warn ("Unsupported language: " +:+ newLang) w
  else
    let currentLang := getCurrentLang w in
    if bool_decide (currentLang = Some newLang) then Normal tt w
    else
      let navigate : M unit := λ w,
        let path := pathname w in
        if bool_decide (protocol w = "file:")
        then assign_href (file_target currentLang newLang path) w
        else assign_href (server_target currentLang newLang path) w in
      (savePreference newLang ;; navigate) w.

Definition getAlternateUrl (lang : string) (w : Browser) : string :=
  let currentLang :=
    match getCurrentLang w with
    | Some l => l
    | None => DEFAULT_LANG
    end in
  let path := pathname w in
  let path := JS.replace_anchored path ("/" +:+ currentLang) in
  let path := ensure_slash path in
  "/" +:+ lang +:+ (if bool_decide (path = "/") then "/" else path).

(** [el.addEventListener('click', ...)] on a switch button: the handler
    goes to the end of the element's listeners. *)
Definition addEventListener (l : Listener) (btn : Button) : Button :=
  mkButton (data_lang btn) (classList btn) (aria_current btn) (switch_lang btn)
           (click_listeners btn ++ [l]).

(** [bindEvents]: the first [forEach] attaches the button handler to
    every [.lang-switch__btn]; the second attaches the other handler to
    every element that carries [data-switch-lang], the switch buttons
    that carry it included. *)
Definition bindEvents : M unit :=
  modify (λ w, set_buttons (addEventListener ButtonClick <$> buttons w) w) ;;
  modify (λ w,
    set_links ((λ l, mkLink (data_switch_lang l) (S (link_listeners l))) <$> links w)
      (set_buttons
         ((λ b, match switch_lang b with
                | Some _ => addEventListener SwitchLangClick b
                | None => b
                end) <$> buttons w) w)).

Definition init : M unit :=
  detectAndRedirect ;; bindEvents.

(** The click listener that [bindEvents] puts on a switch button. *)
Definition on_button_click (btn : Button) : M unit :=
  if JS.truthy (data_lang btn) then switchTo (JS.to_string (data_lang btn))
  else mret tt.

(** The click listener that [bindEvents] puts on a [[data-switch-lang]]
    element, from the element's [dataset.switchLang].  Its first
    statement, [e.preventDefault()], acts on the event and not on the
    page: see [prevents_default]. *)
Definition on_switch_lang_click (lang : option string) : M unit :=
  if JS.truthy lang then switchTo (JS.to_string lang) else mret tt.

Definition prevents_default (l : Listener) : bool :=
  match l with
  | ButtonClick => false
  | SwitchLangClick => true
  end.

Definition run_listener (btn : Button) (l : Listener) : M unit :=
  match l with
  | ButtonClick => on_button_click btn
  | SwitchLangClick => on_switch_lang_click (switch_lang btn)
  end.

(** The browser's dispatch of one click to the listeners [ls] of [btn]:
    they run in the order they were attached; an exception of one of
    them is reported and the later ones still run.  The result is the
    reported exceptions and the page afterwards. *)
Fixpoint dispatch (btn : Button) (ls : list Listener) (w : Browser)
    : list string * Browser :=
  match ls with
  | [] => ([], w)
  | l :: ls =>
      match run_listener btn l w with
      | Normal _ w' => dispatch btn ls w'
      | Throw e w' =>
          let '(reported, w'') := dispatch btn ls w' in (e :: reported, w'')
      end
  end.

(** A click on the switch button [btn]. *)
Definition click (btn : Button) (w : Browser) : list string * Browser :=
  dispatch btn (click_listeners btn) w.

(** Whether that click's default action (following the link, if the
    button is one) is cancelled. *)
Definition click_default_prevented (btn : Button) : bool :=
  existsb prevents_default (click_listeners btn).

(** The networked rewrite as a function of the address alone: the
    path [switchTo] computes for [target] from the address [path]. *)
Definition toLocale (path target : string) : string :=
  server_target (getCurrentLang_at path) target path.

End I18n.

(** ** What a switch control shows *)

(** The control carries the visual active class. *)
Definition is_active (b : Button) : bool :=
  bool_decide (I18n.ACTIVE_CLASS ∈ classList b).

(** The control carries the [aria-current] marker. *)
Definition is_current (b : Button) : bool :=
  bool_decide (is_Some (aria_current b)).

(** ** Pages used as concrete inputs *)

(** A switcher with one control per supported locale, as the site's
    markup ships it: the English control is pre-marked with the active
    class only. *)
Definition switcher : list Button :=
  [ mkButton (Some "en") ["lang-switch__btn"; I18n.ACTIVE_CLASS] None None [];
    mkButton (Some "ar") ["lang-switch__btn"] None None [] ].

Definition page_at (path proto : string) (store : option (gmap string string))
    (lang : string) : Browser :=
  mkBrowser path proto [] store lang None None switcher [] [].

(** A page under [/ar/] whose English control also carries
    [data-switch-lang], next to a plain [[data-switch-lang]] link. *)
Definition overlapping_page : Browser :=
  mkBrowser "/ar/about.html" "https:" [] (Some ∅) "en-US" None None
    [ mkButton (Some "en") ["lang-switch__btn"] None (Some "en") [];
      mkButton (Some "ar") ["lang-switch__btn"] None None [] ]
    [ mkLink (Some "en") 0 ] [].

(** The pathname a relative reference [./dir/] resolves to against the
    base path [base] (RFC 3986, section 5.2): the base up to and
    including its last separator, then [dir/]. *)
Definition resolve_dot_slash (base ref : string) : string :=
  JS.substring base 0 (JS.lastIndexOf base "/") +:+ "/" +:+ JS.drop 2 ref.

(** ** Translation lookup and formatting (the rest of i18n.js) *)

Module Translations.

(** A value read from the translation table: a text of the table
    itself, or a member that every JavaScript object inherits from
    [Object.prototype] (a function or an object, never a text). *)
Inductive Value : Type :=
  | Text (s : string)
  | Inherited (name : string).

(** The names every object inherits from [Object.prototype]. *)
Definition object_prototype_names : list string :=
  [ "constructor"; "hasOwnProperty"; "isPrototypeOf"; "propertyIsEnumerable";
    "toLocaleString"; "toString"; "valueOf"; "__proto__";
    "__defineGetter__"; "__defineSetter__"; "__lookupGetter__"; "__lookupSetter__" ].

(** [table[key]] on a plain object whose own properties are the texts
    of [table]: the own property when there is one, else the inherited
    member of that name, else [undefined]. *)
Definition get_property (table : gmap string string) (key : string) : option Value :=
  match table !! key with
  | Some s => Some (Text s)
  | None =>
      if bool_decide (key ∈ object_prototype_names) then Some (Inherited key)
      else None
  end.

(** Truthiness of what [get_property] returns. *)
Definition value_truthy (v : option Value) : bool :=
  match v with
  | Some (Text s) => negb (bool_decide (s = ""))
  | Some (Inherited _) => true
  | None => false
  end.

(** [t(key, fallback)], on a page where [window.AMD_TRANSLATIONS] is
    either not set ([None]) or a plain object of texts. *)
Definition t (translations : option (gmap string string)) (key fallback : string) : Value :=
  match translations with
  | Some table =>
      if value_truthy (get_property table key)
      then match get_property table key with
           | Some v => v
           | None => Text fallback
           end
      else Text fallback
  | None => Text fallback
  end.

(** [t(key)]: the default of the parameter [fallback] is the empty text. *)
Definition t_default (translations : option (gmap string string)) (key : string) : Value :=
  t translations key "".

End Translations.

(** The [Formatter] object.  The formatting itself is done by the
    browser's [Intl] constructors, taken here as given functions of the
    region, the options and the value. *)
Section Formatter.

Variable Number : Type.
Variable DateInput : Type.
Variable Intl_NumberFormat : string → gmap string string → Number → string.
Variable Intl_DateTimeFormat : string → gmap string string → DateInput → string.

(** [const lang = I18n.getCurrentLang() || I18n.DEFAULT_LANG;
     const locale = lang === 'ar' ? 'ar-EG' : 'en-US'] *)
Definition Formatter_locale (w : Browser) : string :=
  let lang :=
    if JS.truthy (I18n.getCurrentLang w)
    then JS.to_string (I18n.getCurrentLang w)
    else I18n.DEFAULT_LANG in
  if bool_decide (lang = "ar") then "ar-EG" else "en-US".

Definition Formatter_number (num : Number) (options : gmap string string)
    (w : Browser) : string :=
  Intl_NumberFormat (Formatter_locale w) options num.

Definition Formatter_currency (num : Number) (currency : string) (w : Browser) : string :=
  Intl_NumberFormat (Formatter_locale w)
    (<["style" := "currency"]> (<["currency" := currency]> ∅)) num.

(** [{ ...defaultOptions, ...options }]: the caller's entries win. *)
Definition Formatter_date (date : DateInput) (options : gmap string string)
    (w : Browser) : string :=
  let defaultOptions : gmap string string :=
    <["year" := "numeric"]> (<["month" := "long"]> (<["day" := "numeric"]> ∅)) in
  Intl_DateTimeFormat (Formatter_locale w) (options ∪ defaultOptions) date.

End Formatter.

(** ** State and exceptions for the objects of main.js *)

Inductive Outcome (S A : Type) : Type :=
  | Done (a : A) (s : S)
  | Raised (e : string) (s : S).
Arguments Done {S A} a s.
Arguments Raised {S A} e s.

Definition Run (S A : Type) : Type := S → Outcome S A.

Global Instance Run_ret {S} : MRet (Run S) := λ A a s, Done a s.

Global Instance Run_bind {S} : MBind (Run S) := λ A B f m s,
  match m s with
  | Done a s' => f a s'
  | Raised e s' => Raised e s'
  end.

Definition update {S} (f : S → S) : Run S unit := λ s, Done tt (f s).

Definition state_of {S A} (o : Outcome S A) : S :=
  match o with
  | Done _ s => s
  | Raised _ s => s
  end.

Definition is_done {S A} (o : Outcome S A) : bool :=
  match o with
  | Done _ _ => true
  | Raised _ _ => false
  end.

(** ** Theme management (main.js, [ThemeManager]) *)

(** What [ThemeManager] reads and writes: the window (for
    [localStorage]), the [data-theme] attribute of the document element,
    the [content] of [<meta name="theme-color">] when the page has one,
    the state of the media query [(prefers-color-scheme: dark)], and the
    listeners it has attached. *)
Record ThemePage := mkThemePage {
  theme_win : Browser;
  data_theme : option string;
  meta_theme_color : option (option string);   (* None: no such element *)
  prefers_dark : bool;
  theme_toggle_listeners : list nat;   (* per [.theme-toggle] button *)
  media_listeners : nat
}.

Definition set_theme_win (v : Browser) (p : ThemePage) : ThemePage :=
  mkThemePage v (data_theme p) (meta_theme_color p) (prefers_dark p)
              (theme_toggle_listeners p) (media_listeners p).

Definition set_data_theme (v : option string) (p : ThemePage) : ThemePage :=
  mkThemePage (theme_win p) v (meta_theme_color p) (prefers_dark p)
              (theme_toggle_listeners p) (media_listeners p).

Definition set_meta_theme_color (v : option (option string)) (p : ThemePage) : ThemePage :=
  mkThemePage (theme_win p) (data_theme p) v (prefers_dark p)
              (theme_toggle_listeners p) (media_listeners p).

Definition set_theme_listeners (t : list nat) (m : nat) (p : ThemePage) : ThemePage :=
  mkThemePage (theme_win p) (data_theme p) (meta_theme_color p) (prefers_dark p) t m.

(** A call on the window, made from a theme page. *)
Definition on_window {A} (m : M A) : Run ThemePage A := λ p,
  match m (theme_win p) with
  | Normal a w => Done a (set_theme_win w p)
  | Throw e w => Raised e (set_theme_win w p)
  end.

Module ThemeManager.

Definition STORAGE_KEY : string := "amd-theme".

Definition getPreferredTheme : Run ThemePage string :=
  stored ← on_window (getItem STORAGE_KEY);
  if JS.truthy stored then mret (JS.to_string stored)
  else λ p, Done (if prefers_dark p then "dark" else "light") p.

Definition applyTheme (theme : string) : Run ThemePage unit :=
  update (set_data_theme (Some theme)) ;;
  on_window (setItem STORAGE_KEY theme) ;;
  update (λ p,
    match meta_theme_color p with
    | Some _ =>
        set_meta_theme_color
          (Some (Some (if bool_decide (theme = "dark") then "#0d1f2d" else "#ffffff"))) p
    | None => p
    end).

Definition toggle : Run ThemePage unit := λ p,
  let current := data_theme p in
  let next := if bool_decide (current = Some "dark") then "light" else "dark" in
  applyTheme next p.

Definition bindEvents : Run ThemePage unit :=
  update (λ p, set_theme_listeners (S <$> theme_toggle_listeners p)
                                   (S (media_listeners p)) p).

Definition init : Run ThemePage unit :=
  (theme ← getPreferredTheme; applyTheme theme) ;; bindEvents.

(** The listener for changes of the system preference, called with
    [e.matches]. *)
Definition on_system_change (matches : bool) : Run ThemePage unit :=
  stored ← on_window (getItem STORAGE_KEY);
  if negb (JS.truthy stored)
  then applyTheme (if matches then "dark" else "light")
  else mret tt.

End ThemeManager.

(** ** Mobile navigation (main.js, [MobileNav]) *)

Record ToggleEl := mkToggleEl {
  toggle_classes : list string;
  aria_expanded : option string;
  toggle_click_listeners : nat
}.

Record NavEl := mkNavEl {
  nav_classes : list string;
  nav_link_listeners : list nat          (* per [a] inside the menu *)
}.

(** The page as [MobileNav] sees it.  [nav_inited] tells whether
    [init] has run, that is whether [this.toggle], [this.nav] and
    [this.body] have been assigned; before that they are [undefined]. *)
Record NavPage := mkNavPage {
  menu_toggle : option ToggleEl;        (* document.querySelector('.menu-toggle') *)
  mobile_nav : option NavEl;            (* document.querySelector('.mobile-nav') *)
  body_overflow : string;               (* document.body.style.overflow *)
  nav_inited : bool;
  keydown_listeners : nat;              (* on document *)
  doc_click_listeners : nat             (* on document *)
}.

Definition set_menu_toggle (v : option ToggleEl) (p : NavPage) : NavPage :=
  mkNavPage v (mobile_nav p) (body_overflow p) (nav_inited p)
            (keydown_listeners p) (doc_click_listeners p).

Definition set_mobile_nav (v : option NavEl) (p : NavPage) : NavPage :=
  mkNavPage (menu_toggle p) v (body_overflow p) (nav_inited p)
            (keydown_listeners p) (doc_click_listeners p).

Definition set_body_overflow (v : string) (p : NavPage) : NavPage :=
  mkNavPage (menu_toggle p) (mobile_nav p) v (nav_inited p)
            (keydown_listeners p) (doc_click_listeners p).

Definition set_nav_inited (v : bool) (p : NavPage) : NavPage :=
  mkNavPage (menu_toggle p) (mobile_nav p) (body_overflow p) v
            (keydown_listeners p) (doc_click_listeners p).

Definition set_doc_listeners (k c : nat) (p : NavPage) : NavPage :=
  mkNavPage (menu_toggle p) (mobile_nav p) (body_overflow p) (nav_inited p) k c.

Module MobileNav.

(** A member access on [this.nav]: a [TypeError] when [init] has not
    run or the page has no [.mobile-nav]. *)
Definition with_nav {A} (k : NavEl → Run NavPage A) : Run NavPage A := λ p,
  if nav_inited p
  then match mobile_nav p with
       | Some n => k n p
       | None => Raised "TypeError" p
       end
  else Raised "TypeError" p.

(** A member access on [this.toggle]. *)
Definition with_toggle {A} (k : ToggleEl → Run NavPage A) : Run NavPage A := λ p,
  if nav_inited p
  then match menu_toggle p with
       | Some t => k t p
       | None => Raised "TypeError" p
       end
  else Raised "TypeError" p.

(** A member access on [this.body]. *)
Definition with_body (k : Run NavPage unit) : Run NavPage unit := λ p,
  if nav_inited p then k p else Raised "TypeError" p.

Definition isOpen : Run NavPage bool :=
  with_nav (λ n, mret (bool_decide ("is-open" ∈ nav_classes n))).

Definition open : Run NavPage unit :=
  with_nav (λ n, update (set_mobile_nav
    (Some (mkNavEl (classList_add "is-open" (nav_classes n)) (nav_link_listeners n))))) ;;
  with_toggle (λ t, update (set_menu_toggle
    (Some (mkToggleEl (classList_add "is-active" (toggle_classes t))
                      (aria_expanded t) (toggle_click_listeners t))))) ;;
  with_toggle (λ t, update (set_menu_toggle
    (Some (mkToggleEl (toggle_classes t) (Some "true") (toggle_click_listeners t))))) ;;
  with_body (update (set_body_overflow "hidden")).

Definition close : Run NavPage unit :=
  with_nav (λ n, update (set_mobile_nav
    (Some (mkNavEl (classList_remove "is-open" (nav_classes n)) (nav_link_listeners n))))) ;;
  with_toggle (λ t, update (set_menu_toggle
    (Some (mkToggleEl (classList_remove "is-active" (toggle_classes t))
                      (aria_expanded t) (toggle_click_listeners t))))) ;;
  with_toggle (λ t, update (set_menu_toggle
    (Some (mkToggleEl (toggle_classes t) (Some "false") (toggle_click_listeners t))))) ;;
  with_body (update (set_body_overflow "")).

Definition toggleMenu : Run NavPage unit :=
  isOpen ≫= λ is_open : bool, if is_open then close else open.

Definition bindEvents : Run NavPage unit :=
  with_toggle (λ t, update (set_menu_toggle
    (Some (mkToggleEl (toggle_classes t) (aria_expanded t)
                      (S (toggle_click_listeners t)))))) ;;
  with_nav (λ n, update (set_mobile_nav
    (Some (mkNavEl (nav_classes n) (S <$> nav_link_listeners n))))) ;;
  update (λ p, set_doc_listeners (S (keydown_listeners p)) (S (doc_click_listeners p)) p).

Definition init : Run NavPage unit :=
  let bind_if_present : Run NavPage unit := λ p,
    match menu_toggle p, mobile_nav p with
    | Some _, Some _ => bindEvents p
    | _, _ => Done tt p
    end in
  update (set_nav_inited true) ;; bind_if_present.

(** The [keydown] listener on the document, called with [e.key]. *)
Definition on_keydown (key : string) : Run NavPage unit :=
  if bool_decide (key = "Escape")
  then isOpen ≫= λ is_open : bool, if is_open then close else mret tt
  else mret tt.

(** The [click] listener on the document; [in_nav] and [in_toggle] are
    [this.nav.contains(e.target)] and [this.toggle.contains(e.target)]. *)
Definition on_document_click (in_nav in_toggle : bool) : Run NavPage unit :=
  isOpen ≫= λ is_open : bool,
    if is_open && negb in_nav && negb in_toggle then close else mret tt.

End MobileNav.

(** ** Theme and menu pages used as concrete inputs *)

Definition theme_page (store : option (gmap string string)) (attr : option string)
    (dark : bool) : ThemePage :=
  mkThemePage (page_at "/" "https:" store "en-US") attr (Some None) dark [0%nat] 0.

Definition nav_page (nav_cls toggle_cls : list string) : NavPage :=
  mkNavPage (Some (mkToggleEl toggle_cls None 1)) (Some (mkNavEl nav_cls [1%nat; 1%nat]))
            "" true 1 1.

(** ** Form validation (main.js, [FormValidator]) *)

(** The texts a visitor types are arbitrary, and the validator looks
    at their white space and counts their length: they are modelled as
    the sequence of their UTF-16 code units, which is what
    [String.prototype.length], [trim] and a regular expression without
    the [u] flag work on. *)
Module Text.

Definition text : Type := list N.

(** The code units of an ASCII literal. *)
Definition lit (s : string) : text := N_of_ascii <$> String.list_ascii_of_string s.

(** ECMAScript [WhiteSpace] and [LineTerminator]: what [trim] removes,
    what [\s] matches and what [parseInt] skips. *)
Definition is_space (c : N) : bool :=
  ((9 <=? c) && (c <=? 13) || (c =? 32) || (c =? 160) || (c =? 5760)
   || (8192 <=? c) && (c <=? 8202) || (c =? 8232) || (c =? 8233)
   || (c =? 8239) || (c =? 8287) || (c =? 12288) || (c =? 65279))%N.

Fixpoint trimStart (s : text) : text :=
  match s with
  | [] => []
  | c :: s' => if is_space c then trimStart s' else s
  end.

Definition trimEnd (s : text) : text := rev (trimStart (rev s)).

(** [s.trim()] *)
Definition trim (s : text) : text := trimEnd (trimStart s).

(** Truthiness of a text, and of a text that may be [null] or
    [undefined]. *)
Definition nonempty (s : text) : bool :=
  match s with
  | [] => false
  | _ :: _ => true
  end.

Definition truthy (v : option text) : bool :=
  match v with
  | Some s => nonempty s
  | None => false
  end.

(** [a || b] on texts that may be missing. *)
Definition or_else (v : option text) (d : text) : text :=
  match v with
  | Some s => if nonempty s then s else d
  | None => d
  end.

(** The value of a digit in radix [radix] (10 or 16). *)
Definition digit_value (radix : Z) (c : N) : option Z :=
  let v :=
    if ((48 <=? c) && (c <=? 57))%N then Some (Z.of_N c - 48)
    else if ((97 <=? c) && (c <=? 122))%N then Some (Z.of_N c - 87)
    else if ((65 <=? c) && (c <=? 90))%N then Some (Z.of_N c - 55)
    else None in
  match v with
  | Some d => if d <? radix then Some d else None
  | None => None
  end.

(** The number read from the longest prefix of digits, given the value
    [acc] read so far; [None] when [seen] is false and no digit
    follows. *)
Fixpoint read_digits (radix : Z) (s : text) (acc : Z) (seen : bool) : option Z :=
  match s with
  | [] => if seen then Some acc else None
  | c :: s' =>
      match digit_value radix c with
      | Some d => read_digits radix s' (acc * radix + d) true
      | None => if seen then Some acc else None
      end
  end.

(** [parseInt(s)], without a radix: leading white space is skipped, a
    sign is read, a prefix [0x] or [0X] selects radix 16, and the
    longest prefix of digits is the value; [None] is [NaN].  The value is
    kept exact: the script only compares it with the length of a text,
    and rounding to a double cannot change the outcome of that. *)
Definition parseInt (s : text) : option Z :=
  let s := trimStart s in
  let '(sign, s) :=
    match s with
    | 45%N :: s' => (-1, s')
    | 43%N :: s' => (1, s')
    | _ => (1, s)
    end in
  let '(radix, s) :=
    match s with
    | 48%N :: 120%N :: s' => (16, s')
    | 48%N :: 88%N :: s' => (16, s')
    | _ => (10, s)
    end in
  match read_digits radix s 0 false with
  | Some n => Some (sign * n)
  | None => None
  end.

End Text.

(** Regular expressions over code units, for the two patterns the
    validator has built in; a character class is a predicate. *)
Module Regex.

Inductive re : Type :=
  | Void                         (* matches nothing *)
  | Eps                          (* matches the empty text *)
  | Class (f : N → bool)         (* one code unit of the class *)
  | Cat (r1 r2 : re)
  | Alt (r1 r2 : re)
  | Star (r : re).

(** The texts a regular expression matches as a whole. *)
Inductive matches : re → list N → Prop :=
  | m_eps : matches Eps []
  | m_class f c : f c = true → matches (Class f) [c]
  | m_cat r1 r2 s1 s2 : matches r1 s1 → matches r2 s2 → matches (Cat r1 r2) (s1 ++ s2)
  | m_alt_l r1 r2 s : matches r1 s → matches (Alt r1 r2) s
  | m_alt_r r1 r2 s : matches r2 s → matches (Alt r1 r2) s
  | m_star_nil r : matches (Star r) []
  | m_star_cons r s1 s2 : matches r s1 → matches (Star r) s2 → matches (Star r) (s1 ++ s2).

Fixpoint nullable (r : re) : bool :=
  match r with
  | Void => false
  | Eps => true
  | Class _ => false
  | Cat r1 r2 => nullable r1 && nullable r2
  | Alt r1 r2 => nullable r1 || nullable r2
  | Star _ => true
  end.

(** The derivative of [r] by the code unit [c]. *)
Fixpoint deriv (c : N) (r : re) : re :=
  match r with
  | Void => Void
  | Eps => Void
  | Class f => if f c then Eps else Void
  | Cat r1 r2 =>
      if nullable r1 then Alt (Cat (deriv c r1) r2) (deriv c r2)
      else Cat (deriv c r1) r2
  | Alt r1 r2 => Alt (deriv c r1) (deriv c r2)
  | Star r1 => Cat (deriv c r1) (Star r1)
  end.

(** [/^r$/.test(s)] *)
Fixpoint test (r : re) (s : list N) : bool :=
  match s with
  | [] => nullable r
  | c :: s' => test (deriv c r) s'
  end.

(** [r+] and [r{n,}] *)
Definition plus (r : re) : re := Cat r (Star r).

Fixpoint at_least (n : nat) (r : re) : re :=
  match n with
  | O => Star r
  | S n' => Cat r (at_least n' r)
  end.

(** [[^\s@]] *)
Definition not_space_at (c : N) : bool :=
  negb (Text.is_space c) && negb (c =? 64)%N.

(** [/^[^\s@]+@[^\s@]+\.[^\s@]+$/] *)
Definition emailRegex : re :=
  Cat (plus (Class not_space_at))
    (Cat (Class (λ c, (c =? 64)%N))
       (Cat (plus (Class not_space_at))
          (Cat (Class (λ c, (c =? 46)%N))
             (plus (Class not_space_at))))).

(** [[\d\s\-+()]] *)
Definition phone_char (c : N) : bool :=
  ((48 <=? c) && (c <=? 57) || Text.is_space c
   || (c =? 45) || (c =? 43) || (c =? 40) || (c =? 41))%N.

(** [/^[\d\s\-+()]{8,}$/] *)
Definition phoneRegex : re := at_least 8 (Class phone_char).

End Regex.

(** The [.form-error] element found in the parent of a field. *)
Record ErrorEl := mkErrorEl {
  textContent : Text.text;
  error_role : option string
}.

(** An [input], [textarea] or [select] of a validated form.
    [error_ref] is the position, among the error elements of the form,
    of the one that [field.parentElement.querySelector('.form-error')]
    finds, if it finds one; fields with the same parent share it. *)
Record Field := mkField {
  required : bool;                        (* hasAttribute('required') *)
  field_type : string;                    (* field.type *)
  minlength : option Text.text;           (* getAttribute('minlength') *)
  pattern : option Text.text;             (* getAttribute('pattern') *)
  value : Text.text;                      (* field.value *)
  errorRequired : option Text.text;       (* dataset.errorRequired *)
  errorEmail : option Text.text;
  errorTel : option Text.text;
  errorMinlength : option Text.text;
  errorPattern : option Text.text;
  field_classes : list string;
  aria_invalid : option string;
  error_ref : option nat
}.

Record Form := mkForm {
  fields : list Field;
  error_els : list ErrorEl
}.

Definition with_state (f : Field) (cls : list string) (aria : option string) : Field :=
  mkField (required f) (field_type f) (minlength f) (pattern f) (value f)
          (errorRequired f) (errorEmail f) (errorTel f) (errorMinlength f)
          (errorPattern f) cls aria (error_ref f).

Section FormValidator.

(** [new RegExp(pattern).test(value)] for the [pattern] attribute of
    the page, which can be any text: [None] when it is not a regular
    expression, in which case the constructor raises a [SyntaxError]. *)
Variable RegExp_test : Text.text → Text.text → option bool.

Definition setFieldState (i : nat) (isValid : bool) (message : Text.text) : Run Form unit :=
  λ form,
    match fields form !! i with
    | None => Raised "TypeError" form
    | Some field =>
        let errorEl :=
          match error_ref field with
          | Some j => if bool_decide (j < length (error_els form))%nat then Some j else None
          | None => None
          end in
        if isValid
        then
          let field' :=
            with_state field
              (classList_add "is-valid" (classList_remove "is-invalid" (field_classes field)))
              (Some "false") in
          Done tt
            (mkForm (<[i := field']> (fields form))
               (match errorEl with
                | Some j => alter (λ e, mkErrorEl [] (error_role e)) j (error_els form)
                | None => error_els form
                end))
        else
          let field' :=
            with_state field
              (classList_add "is-invalid" (classList_remove "is-valid" (field_classes field)))
              (Some "true") in
          Done tt
            (mkForm (<[i := field']> (fields form))
               (match errorEl with
                | Some j => alter (λ _, mkErrorEl message (Some "alert")) j (error_els form)
                | None => error_els form
                end))
    end.

(** The five checks of [validateField], in the order of the source;
    each takes and gives the pair of [isValid] and [message]. *)
Definition check_required (field : Field) (value : Text.text)
    (st : bool * Text.text) : bool * Text.text :=
  if required field && negb (Text.nonempty value)
  then (false, Text.or_else (errorRequired field) (Text.lit "This field is required"))
  else st.

Definition check_email (field : Field) (value : Text.text)
    (st : bool * Text.text) : bool * Text.text :=
  if st.1 && Text.nonempty value && bool_decide (field_type field = "email")
  then if negb (Regex.test Regex.emailRegex value)
       then (false, Text.or_else (errorEmail field) (Text.lit "Please enter a valid email"))
       else st
  else st.

Definition check_tel (field : Field) (value : Text.text)
    (st : bool * Text.text) : bool * Text.text :=
  if st.1 && Text.nonempty value && bool_decide (field_type field = "tel")
  then if negb (Regex.test Regex.phoneRegex value)
       then (false, Text.or_else (errorTel field)
                      (Text.lit "Please enter a valid phone number"))
       else st
  else st.

(** [value.length < parseInt(rules.minlength)]; false against [NaN]. *)
Definition shorter_than (value : Text.text) (bound : option Z) : bool :=
  match bound with
  | Some k => Z.of_nat (length value) <? k
  | None => false
  end.

Definition check_minlength (field : Field) (value : Text.text)
    (st : bool * Text.text) : bool * Text.text :=
  if st.1 && Text.nonempty value && Text.truthy (minlength field)
  then if shorter_than value (Text.parseInt (default [] (minlength field)))
       then (false,
             Text.or_else (errorMinlength field)
               (Text.lit "Minimum " ++ default [] (minlength field)
                ++ Text.lit " characters required"))
       else st
  else st.

(** The pattern check can raise: [None] is the [SyntaxError]. *)
Definition check_pattern (field : Field) (value : Text.text)
    (st : bool * Text.text) : option (bool * Text.text) :=
  if st.1 && Text.nonempty value && Text.truthy (pattern field)
  then match RegExp_test (default [] (pattern field)) value with
       | None => None
       | Some matched =>
           if negb matched
           then Some (false, Text.or_else (errorPattern field) (Text.lit "Invalid format"))
           else Some st
       end
  else Some st.

(** The body of [validateField] up to the call of [setFieldState]:
    the final [isValid] and [message], or [None] for the [SyntaxError]. *)
Definition run_checks (field : Field) : option (bool * Text.text) :=
  let value := Text.trim (value field) in
  let st := (true, []) in
  let st := check_required field value st in
  let st := check_email field value st in
  let st := check_tel field value st in
  let st := check_minlength field value st in
  check_pattern field value st.

Definition validateField (i : nat) : Run Form bool := λ form,
  match fields form !! i with
  | None => Raised "TypeError" form
  | Some field =>
      match run_checks field with
      | None => Raised "SyntaxError" form
      | Some st => (setFieldState i st.1 st.2 ;; mret st.1) form
      end
  end.

(** The [forEach] of [validate], over the positions of the fields. *)
Fixpoint validate_each (positions : list nat) (isValid : bool) : Run Form bool :=
  match positions with
  | [] => mret isValid
  | i :: rest =>
      validateField i ≫= λ ok : bool,
        validate_each rest (if negb ok then false else isValid)
  end.

Definition validate : Run Form bool := λ form,
  validate_each (seq 0 (length (fields form))) true form.

(** The [input] listener of a field: it validates again only a field
    that is marked invalid. *)
Definition on_input (i : nat) : Run Form unit := λ form,
  match fields form !! i with
  | None => Raised "TypeError" form
  | Some field =>
      if bool_decide ("is-invalid" ∈ field_classes field)
      then (validateField i ;; mret tt) form
      else Done tt form
  end.

End FormValidator.

(** The visitor types: the value of the field at position [i] becomes
    [v]. *)
Definition type_value (i : nat) (v : Text.text) (form : Form) : Form :=
  mkForm
    (alter (λ f, mkField (required f) (field_type f) (minlength f) (pattern f) v
                         (errorRequired f) (errorEmail f) (errorTel f)
                         (errorMinlength f) (errorPattern f)
                         (field_classes f) (aria_invalid f) (error_ref f))
           i (fields form))
    (error_els form).

(** ** Fields and forms used as concrete inputs *)

Definition text_field (req : bool) (type : string) (minlen : option Text.text)
    (v : Text.text) : Field :=
  mkField req type minlen None v None None None None None [] None (Some 0%nat).

Definition one_field_form (f : Field) : Form :=
  mkForm [f] [mkErrorEl [] None].

(** ** Project filter (main.js, [ProjectFilter]) *)

(** A [[data-filter]] button and a [[data-category]] element. *)
Record FilterBtn := mkFilterBtn {
  data_filter : string;
  filter_classes : list string;
  filter_click_listeners : nat
}.

Record Project := mkProject {
  data_category : string;
  style_display : string;
  style_opacity : string;
  style_transform : string
}.

(** [timers] are the pending 50 ms callbacks of [filterProjects], each
    standing for the project at that position, oldest first. *)
Record FilterPage := mkFilterPage {
  filters : list FilterBtn;
  projects : list Project;
  timers : list nat
}.

Module ProjectFilter.

Definition bindEvents : Run FilterPage unit :=
  update (λ p,
    mkFilterPage
      ((λ b, mkFilterBtn (data_filter b) (filter_classes b)
                         (S (filter_click_listeners b))) <$> filters p)
      (projects p) (timers p)).

Definition init : Run FilterPage unit := λ p,
  if bool_decide (length (filters p) = 0%nat) || bool_decide (length (projects p) = 0%nat)
  then Done tt p
  else bindEvents p.

(** One turn of the [forEach] of [filterProjects], on the project at
    position [j]: the new project and whether a timer was set. *)
Definition filter_project (filter : string) (project : Project) : Project * bool :=
  if bool_decide (filter = "all") || bool_decide (filter = data_category project)
  then (mkProject (data_category project) "" "0" "translateY(20px)", true)
  else (mkProject (data_category project) "none"
                  (style_opacity project) (style_transform project), false).

(** The positions, counted from [j], of the projects for which a timer
    is set. *)
Fixpoint timers_set (filter : string) (j : nat) (ps : list Project) : list nat :=
  match ps with
  | [] => []
  | project :: ps' =>
      if (filter_project filter project).2
      then j :: timers_set filter (S j) ps'
      else timers_set filter (S j) ps'
  end.

Definition filterProjects (filter : string) : Run FilterPage unit :=
  update (λ p,
    mkFilterPage (filters p)
      ((λ project, (filter_project filter project).1) <$> projects p)
      (timers p ++ timers_set filter 0 (projects p))).

(** The callback of one timer. *)
Definition timer_fires (j : nat) : Run FilterPage unit :=
  update (λ p,
    mkFilterPage (filters p)
      (alter (λ project, mkProject (data_category project) (style_display project)
                                   "1" "translateY(0)") j (projects p))
      (timers p)).

(** All pending timers fire, in the order they were set. *)
Definition timers_fire : Run FilterPage unit := λ p,
  foldl (λ (o : Outcome FilterPage unit) j, timer_fires j (state_of o))
        (Done tt (mkFilterPage (filters p) (projects p) [])) (timers p).

Definition updateActiveButton (i : nat) : Run FilterPage unit :=
  update (λ p,
    mkFilterPage
      (alter (λ b, mkFilterBtn (data_filter b)
                     (classList_add "btn--primary"
                        (classList_remove "btn--outline" (filter_classes b)))
                     (filter_click_listeners b)) i
         ((λ b, mkFilterBtn (data_filter b)
                  (classList_add "btn--outline"
                     (classList_remove "btn--primary" (filter_classes b)))
                  (filter_click_listeners b)) <$> filters p))
      (projects p) (timers p)).

(** The click listener of the filter button at position [i]. *)
Definition on_filter_click (i : nat) : Run FilterPage unit := λ p,
  match filters p !! i with
  | Some btn => (filterProjects (data_filter btn) ;; updateActiveButton i) p
  | None => Raised "TypeError" p
  end.

End ProjectFilter.

(** ** Image gallery (main.js, [ImageGallery]) *)

Record Thumb := mkThumb {
  thumb_data_src : option string;        (* dataset.src *)
  thumb_src : string;
  thumb_alt : string;
  thumb_classes : list string;
  thumb_click_listeners : nat;
  thumb_keydown_listeners : nat
}.

Record MainImg := mkMainImg {
  main_src : string;
  main_alt : string
}.

Record Gallery := mkGallery {
  gallery_main : option MainImg;         (* querySelector('.gallery__main') *)
  thumbs : list Thumb                    (* querySelectorAll('.gallery__thumb') *)
}.

Module ImageGallery.

Definition setupGallery : Run Gallery unit := λ g,
  match gallery_main g with
  | None => Done tt g
  | Some _ =>
      if bool_decide (length (thumbs g) = 0%nat) then Done tt g
      else Done tt
             (mkGallery (gallery_main g)
                ((λ t, mkThumb (thumb_data_src t) (thumb_src t) (thumb_alt t)
                               (thumb_classes t) (S (thumb_click_listeners t))
                               (S (thumb_keydown_listeners t))) <$> thumbs g))
  end.

(** The click listener of the thumbnail at position [i]; it exists
    only on a gallery that has a main image. *)
Definition on_thumb_click (i : nat) : Run Gallery unit := λ g,
  match thumbs g !! i, gallery_main g with
  | Some thumb, Some _ =>
      let src :=
        if JS.truthy (thumb_data_src thumb)
        then JS.to_string (thumb_data_src thumb) else thumb_src thumb in
      Done tt
        (mkGallery (Some (mkMainImg src (thumb_alt thumb)))
           (alter (λ t, mkThumb (thumb_data_src t) (thumb_src t) (thumb_alt t)
                          (classList_add "is-active" (thumb_classes t))
                          (thumb_click_listeners t) (thumb_keydown_listeners t)) i
              ((λ t, mkThumb (thumb_data_src t) (thumb_src t) (thumb_alt t)
                       (classList_remove "is-active" (thumb_classes t))
                       (thumb_click_listeners t) (thumb_keydown_listeners t))
                 <$> thumbs g)))
  | _, _ => Raised "TypeError" g
  end.

(** The keydown listener of the thumbnail at position [i], called with
    [e.key]; the result tells whether it called [e.preventDefault()]. *)
Definition on_thumb_keydown (key : string) (i : nat) : Run Gallery bool :=
  if bool_decide (key = "Enter") || bool_decide (key = " ")
  then on_thumb_click i ;; mret true
  else mret false.

End ImageGallery.

(** ** A filter page and a gallery used as concrete inputs *)

Definition filter_page : FilterPage :=
  mkFilterPage
    [ mkFilterBtn "all" ["btn"; "btn--primary"] 1;
      mkFilterBtn "villa" ["btn"; "btn--outline"] 1 ]
    [ mkProject "villa" "" "1" "translateY(0)";
      mkProject "tower" "" "1" "translateY(0)" ]
    [].

Definition gallery_page : Gallery :=
  mkGallery (Some (mkMainImg "a-large.jpg" "A"))
    [ mkThumb (Some "a-large.jpg") "a-small.jpg" "A" ["gallery__thumb"; "is-active"] 1 1;
      mkThumb None "b.jpg" "B" ["gallery__thumb"] 1 1 ].

(** ** Header shadow on scroll (main.js, [HeaderScroll]) *)

From Stdlib Require QArith.

(** [scrollY] is [window.scrollY], a number of pixels that need not be
    whole; [ticking] is [this.ticking], [None] while it is still
    [undefined]; [pending_frames] counts the callbacks given to
    [requestAnimationFrame] that have not run yet. *)
Record HeaderPage := mkHeaderPage {
  header_classes : option (list string);   (* querySelector('.header') *)
  scrollY : QArith_base.Q;
  lastScrollY : option QArith_base.Q;
  ticking : option bool;
  pending_frames : nat;
  scroll_listeners : nat
}.

Definition change_header (f : HeaderPage → HeaderPage) : Run HeaderPage unit :=
  update f.

Module HeaderScroll.

Definition init : Run HeaderPage unit := λ p,
  match header_classes p with
  | None => Done tt p
  | Some _ =>
      Done tt (mkHeaderPage (header_classes p) (scrollY p)
                            (Some (QArith_base.Qmake 0 1)) (Some false)
                            (pending_frames p) (S (scroll_listeners p)))
  end.

Definition update : Run HeaderPage unit := λ p,
  match header_classes p with
  | None => Raised "TypeError" p
  | Some classes =>
      let classes' :=
        if negb (QArith_base.Qle_bool (scrollY p) (QArith_base.Qmake 10 1))
        then classList_add "header--scrolled" classes
        else classList_remove "header--scrolled" classes in
      Done tt (mkHeaderPage (Some classes') (scrollY p) (Some (scrollY p))
                            (ticking p) (pending_frames p) (scroll_listeners p))
  end.

(** The scroll listener. *)
Definition onScroll : Run HeaderPage unit := λ p,
  if negb (default false (ticking p))
  then Done tt (mkHeaderPage (header_classes p) (scrollY p) (lastScrollY p)
                             (Some true) (S (pending_frames p)) (scroll_listeners p))
  else Done tt p.

(** The callback that [onScroll] hands to [requestAnimationFrame]. *)
Definition frame_callback : Run HeaderPage unit :=
  update ;;
  change_header (λ p, mkHeaderPage (header_classes p) (scrollY p) (lastScrollY p)
                                (Some false) (pending_frames p) (scroll_listeners p)).

(** The browser renders a frame: every pending callback runs once. *)
Fixpoint run_callbacks (n : nat) : Run HeaderPage unit :=
  match n with
  | O => mret tt
  | S n' => frame_callback ;; run_callbacks n'
  end.

Definition next_frame : Run HeaderPage unit := λ p,
  run_callbacks (pending_frames p)
    (mkHeaderPage (header_classes p) (scrollY p) (lastScrollY p)
                  (ticking p) 0 (scroll_listeners p)).

Fixpoint run_listeners (n : nat) : Run HeaderPage unit :=
  match n with
  | O => mret tt
  | S n' => onScroll ;; run_listeners n'
  end.

(** The visitor scrolls to [y]: the position changes and the scroll
    listeners run. *)
Definition scroll_to (y : QArith_base.Q) : Run HeaderPage unit := λ p,
  run_listeners (scroll_listeners p)
    (mkHeaderPage (header_classes p) y (lastScrollY p)
                  (ticking p) (pending_frames p) (scroll_listeners p)).

End HeaderScroll.
(** * Facts about the string methods *)

Local Arguments String.append !s1 s2 /.

Lemma app_assoc_str (a b c : string) : (a +:+ b) +:+ c = a +:+ (b +:+ c).
Proof. induction a as [|x a IH]; simpl; [done | by rewrite IH]. Qed.

Lemma app_empty_r (a : string) : a +:+ "" = a.
Proof. induction a as [|x a IH]; simpl; [done | by rewrite IH]. Qed.

Lemma length_app_str (a b : string) :
  String.length (a +:+ b) = (String.length a + String.length b)%nat.
Proof. induction a as [|x a IH]; simpl; [done | by rewrite IH]. Qed.

Lemma startsWith_app (p r : string) : JS.startsWith (p +:+ r) p = true.
Proof.
  induction p as [|x p IH]; simpl; [done |].
  destruct (decide (x = x)); [exact IH | done].
Qed.

Lemma startsWith_inv (s p : string) :
  JS.startsWith s p = true → ∃ r, s = p +:+ r.
Proof.
  revert s. induction p as [|x p IH]; intros s H; simpl in *.
  - by exists s.
  - destruct s as [|y s]; [done |].
    destruct (decide (x = y)) as [->|]; [| done].
    destruct (IH _ H) as [r ->]. by exists r.
Qed.

Lemma startsWith_spec (s p : string) :
  JS.startsWith s p = true ↔ ∃ r, s = p +:+ r.
Proof.
  split; [apply startsWith_inv |].
  intros [r ->]. apply startsWith_app.
Qed.

Lemma drop_app (p r : string) : JS.drop (String.length p) (p +:+ r) = r.
Proof. induction p as [|x p IH]; simpl; [by destruct r | exact IH]. Qed.

Lemma replace_anchored_app (p r : string) : JS.replace_anchored (p +:+ r) p = r.
Proof. unfold JS.replace_anchored. by rewrite startsWith_app, drop_app. Qed.

Lemma replace_anchored_absent (s p : string) :
  JS.startsWith s p = false → JS.replace_anchored s p = s.
Proof. unfold JS.replace_anchored. by intros ->. Qed.

Lemma includes_here (s n : string) :
  JS.startsWith s n = true → JS.includes s n = true.
Proof. intros H. destruct s; simpl in *; rewrite H; done. Qed.

Lemma includes_app (a n b : string) : JS.includes (a +:+ n +:+ b) n = true.
Proof.
  induction a as [|x a IH]; simpl.
  - apply includes_here, startsWith_app.
  - apply orb_true_iff. right. exact IH.
Qed.

Lemma includes_inv (s n : string) :
  JS.includes s n = true → ∃ a b, s = a +:+ n +:+ b.
Proof.
  induction s as [|x s IH]; simpl; intros H.
  - rewrite orb_false_r in H. destruct (startsWith_inv _ _ H) as [r Hr].
    exists "", r. exact Hr.
  - apply orb_true_iff in H as [H|H].
    + destruct (startsWith_inv _ _ H) as [r Hr]. exists "", r. exact Hr.
    + destruct (IH H) as (a & b & ->). by exists (String x a), b.
Qed.

Lemma includes_spec (s n : string) :
  JS.includes s n = true ↔ ∃ a b, s = a +:+ n +:+ b.
Proof.
  split; [apply includes_inv |].
  intros (a & b & ->). apply includes_app.
Qed.

Lemma endsWith_refl (s : string) : JS.endsWith s s = true.
Proof.
  destruct s; cbn [JS.endsWith]; apply orb_true_iff; left;
    by apply bool_decide_eq_true.
Qed.

Lemma endsWith_app (p suf : string) : JS.endsWith (p +:+ suf) suf = true.
Proof.
  induction p as [|x p IH]; simpl.
  - apply endsWith_refl.
  - rewrite IH. apply orb_true_r.
Qed.

Lemma endsWith_inv (s suf : string) :
  JS.endsWith s suf = true → ∃ p, s = p +:+ suf.
Proof.
  induction s as [|x s IH]; simpl; intros H.
  - rewrite orb_false_r in H. apply bool_decide_eq_true in H. by exists "".
  - apply orb_true_iff in H as [H|H].
    + apply bool_decide_eq_true in H. by exists "".
    + destruct (IH H) as [p ->]. by exists (String x p).
Qed.

Lemma endsWith_spec (s suf : string) :
  JS.endsWith s suf = true ↔ ∃ p, s = p +:+ suf.
Proof.
  split; [apply endsWith_inv |].
  intros [p ->]. apply endsWith_app.
Qed.

Lemma lastIndexOf_lower (s : string) (c : ascii) : -1 ≤ JS.lastIndexOf s c.
Proof.
  induction s as [|x s IH]; simpl; [lia |].
  destruct (0 <=? JS.lastIndexOf s c) eqn:E; [lia |].
  destruct (decide (x = c)); lia.
Qed.

Lemma lastIndexOf_absent (s : string) (c : ascii) :
  JS.occurs c s = false → JS.lastIndexOf s c = -1.
Proof.
  induction s as [|x s IH]; simpl; [done |].
  intros [Hx Hs]%orb_false_iff. rewrite (IH Hs). simpl.
  apply bool_decide_eq_false in Hx. by destruct (decide (x = c)).
Qed.

Lemma lastIndexOf_app (d f : string) (c : ascii) :
  JS.occurs c f = false →
  JS.lastIndexOf (d +:+ String c f) c = Z.of_nat (String.length d).
Proof.
  intros Hf. induction d as [|x d IH].
  - simpl. rewrite (lastIndexOf_absent _ _ Hf). simpl.
    by destruct (decide (c = c)).
  - cbn [String.append JS.lastIndexOf String.length]. rewrite IH.
    destruct (0 <=? Z.of_nat (String.length d)) eqn:E; lia.
Qed.

Lemma substring_prefix (a b : string) :
  JS.substring (a +:+ b) 0 (Z.of_nat (String.length a)) = a.
Proof.
  unfold JS.substring, JS.clamp. rewrite length_app_str.
  replace (Z.to_nat (Z.min (Z.max 0 0) _)) with 0%nat by lia.
  replace (Z.to_nat (Z.min (Z.max (Z.of_nat (String.length a)) 0) _))
    with (String.length a) by lia.
  rewrite Nat.min_0_l, Nat.max_0_l, Nat.sub_0_r.
  induction a as [|x a IH]; simpl; [by destruct b | by rewrite IH].
Qed.

Lemma split_nonempty (s : string) (c : ascii) : JS.split s c ≠ [].
Proof.
  destruct s as [|x s]; simpl; [done |].
  destruct (decide (x = c)); [done |]. by destruct (JS.split s c).
Qed.

Lemma split_absent (s : string) (c : ascii) :
  JS.occurs c s = false → JS.split s c = [s].
Proof.
  induction s as [|x s IH]; simpl; [done |].
  intros [Hx Hs]%orb_false_iff. apply bool_decide_eq_false in Hx.
  destruct (decide (x = c)); [done |]. by rewrite (IH Hs).
Qed.

Lemma split_app (s t : string) (c : ascii) :
  JS.split (s +:+ String c t) c = JS.split s c ++ JS.split t c.
Proof.
  induction s as [|x s IH]; simpl.
  - by destruct (decide (c = c)).
  - destruct (decide (x = c)); [by rewrite IH |].
    rewrite IH. pose proof (split_nonempty s c).
    by destruct (JS.split s c).
Qed.

Lemma pop_split_app (d f : string) (c : ascii) :
  JS.occurs c f = false → JS.pop (JS.split (d +:+ String c f) c) = Some f.
Proof.
  intros Hf. unfold JS.pop.
  rewrite split_app, (split_absent _ _ Hf). apply last_snoc.
Qed.

(** * Facts about the [I18n] methods *)

Import I18n.

Lemma supported_cases (l : string) : l ∈ SUPPORTED_LANGS ↔ l = "en" ∨ l = "ar".
Proof.
  unfold SUPPORTED_LANGS. rewrite !elem_of_cons, elem_of_nil. tauto.
Qed.

Lemma array_includes_supported (l : string) :
  JS.array_includes SUPPORTED_LANGS l = true ↔ l ∈ SUPPORTED_LANGS.
Proof. unfold JS.array_includes. apply bool_decide_eq_true. Qed.

Lemma getCurrentLang_at_cases (path : string) :
  getCurrentLang_at path = Some "ar" ∨ getCurrentLang_at path = Some "en"
  ∨ getCurrentLang_at path = None.
Proof.
  unfold getCurrentLang_at.
  repeat match goal with |- context [if ?b then _ else _] => destruct b end; auto.
Qed.

Lemma getCurrentLang_supported (w : Browser) (l : string) :
  getCurrentLang w = Some l → l ∈ SUPPORTED_LANGS.
Proof.
  unfold getCurrentLang. intros H. apply supported_cases.
  destruct (getCurrentLang_at_cases (pathname w)) as [E|[E|E]];
    rewrite E in H; simplify_eq; auto.
Qed.

Lemma ensure_slash_cons (p : string) : ∃ r, ensure_slash p = String "/" r.
Proof.
  unfold ensure_slash. destruct (JS.startsWith p "/") eqn:E; simpl.
  - apply startsWith_inv in E as [r ->]. by exists r.
  - by exists p.
Qed.

Lemma ensure_slash_starts (p : string) : JS.startsWith (ensure_slash p) "/" = true.
Proof. destruct (ensure_slash_cons p) as [r ->]. done. Qed.

Lemma ensure_slash_id (p : string) :
  JS.startsWith p "/" = true → ensure_slash p = p.
Proof. unfold ensure_slash. by intros ->. Qed.

Lemma ensure_slash_add (p : string) :
  JS.startsWith p "/" = false → ensure_slash p = "/" +:+ p.
Proof. unfold ensure_slash. by intros ->. Qed.

Lemma strip_lang_prefix_present (cur rest : string) :
  cur ≠ "" → strip_lang_prefix (Some cur) ("/" +:+ cur +:+ rest) = rest.
Proof.
  intros Hne. unfold strip_lang_prefix, JS.truthy.
  rewrite bool_decide_eq_false_2 by done. cbn [negb JS.to_string].
  by rewrite <- app_assoc_str, replace_anchored_app.
Qed.

Lemma strip_lang_prefix_absent (cur : option string) (path : string) :
  (∀ c, cur = Some c → JS.startsWith path ("/" +:+ c) = false) →
  strip_lang_prefix cur path = path.
Proof.
  intros H. unfold strip_lang_prefix.
  destruct cur as [c|]; [| done]. cbn [JS.to_string].
  destruct (JS.truthy (Some c)); [| done].
  by apply replace_anchored_absent, H.
Qed.

Lemma server_target_en (cur : option string) (path : string) :
  server_target cur "en" path = ensure_slash (strip_lang_prefix cur path).
Proof.
  unfold server_target. cbn zeta.
  rewrite bool_decide_eq_true_2 by done. by case_bool_decide.
Qed.

Lemma server_target_prefixed (cur : option string) (newLang path : string) :
  newLang ≠ "en" →
  server_target cur newLang path
  = "/" +:+ newLang +:+ ensure_slash (strip_lang_prefix cur path).
Proof.
  intros Hne. unfold server_target. cbn zeta.
  rewrite bool_decide_eq_false_2 by done.
  case_bool_decide as E; [by rewrite E | done].
Qed.

(** What a switch to a supported locale other than the current one does
    when the store is available: one write, then one navigation. *)
Lemma switchTo_navigates (w : Browser) (items : gmap string string) (target : string) :
  localStorage w = Some items →
  target ∈ SUPPORTED_LANGS →
  getCurrentLang w ≠ Some target →
  switchTo target w
  = Normal tt
      (set_navigations
         (navigations w ++
            [if bool_decide (protocol w = "file:")
             then file_target (getCurrentLang w) target (pathname w)
             else server_target (getCurrentLang w) target (pathname w)])
         (set_localStorage (Some (<[STORAGE_KEY := target]> items)) w)).
Proof.
  intros Hst Hsup Hne. unfold switchTo.
  apply array_includes_supported in Hsup. rewrite Hsup. cbn [negb].
  rewrite bool_decide_eq_false_2 by done.
  unfold mbind, M_bind, savePreference, setItem. rewrite Hst.
  unfold assign_href, modify. cbn.
  by destruct (bool_decide (protocol w = "file:")).
Qed.

(** * The networked rewrite *)

(** C1, as the specification has it, fails where the path has a doubled
    separator after the locale prefix: on [/ar//evil.example/] a switch
    to [en] strips [/ar], finds that the remainder [//evil.example/]
    begins with a separator, adds none, and navigates to
    [//evil.example/], which begins with two separators and not with a
    single one. *)
Lemma C1_doubled_separator_kept :
  protocol (page_at "/ar//evil.example/" "https:" (Some ∅) "en-US") ≠ "file:"
  ∧ "en" ∈ SUPPORTED_LANGS
  ∧ getCurrentLang (page_at "/ar//evil.example/" "https:" (Some ∅) "en-US") = Some "ar"
  ∧ strip_lang_prefix (Some "ar") "/ar//evil.example/" = "//evil.example/"
  ∧ ensure_slash (strip_lang_prefix (Some "ar") "/ar//evil.example/") = "//evil.example/"
  ∧ JS.startsWith (ensure_slash (strip_lang_prefix (Some "ar") "/ar//evil.example/")) "//"
    = true
  ∧ navigations
      (page_of (switchTo "en" (page_at "/ar//evil.example/" "https:" (Some ∅) "en-US")))
    = ["//evil.example/"]
  ∧ ¬ (∃ rest, ensure_slash (strip_lang_prefix (Some "ar") "/ar//evil.example/")
               = "/" +:+ rest
               ∧ JS.startsWith rest "/" = false).
Proof.
  split; [discriminate |].
  split; [by apply supported_cases; left |].
  split; [by vm_compute |]. split; [by vm_compute |]. split; [by vm_compute |].
  split; [by vm_compute |]. split; [by vm_compute |].
  intros (rest & E & Hrest).
  assert (ensure_slash (strip_lang_prefix (Some "ar") "/ar//evil.example/")
          = "//evil.example/") as Hv by (by vm_compute).
  rewrite Hv in E. injection E as <-. by vm_compute in Hrest.
Qed.

(** C1 (amended).  In networked mode (any protocol but [file:]), a
    switch to a supported locale other than the current one, with the
    preference store available, records the preference and navigates
    exactly once, to the path obtained as follows: the prefix
    ["/" + current locale] is removed from the front of the current path
    when it is there (and the path is left alone when no locale is
    detected or the prefix is absent); a ["/"] is put in front of the
    remainder only when the remainder does not begin with one, so that
    the remainder begins with ["/"], and begins with two of them exactly
    when the stripped path already did; for the default locale ["en"]
    that remainder is the destination (["/"] when the stripped path is
    empty); for any other target the destination is ["/" + target]
    followed by the remainder (["/target/"] when the stripped path is
    empty).  From [/ar/projects/detail.html], [switchTo('en')] navigates
    to [/projects/detail.html]; from [/projects/detail.html],
    [switchTo('ar')] navigates to [/ar/projects/detail.html]. *)
Theorem C1_switchTo_networked
    (w : Browser) (items : gmap string string) (target : string) :
  localStorage w = Some items →
  protocol w ≠ "file:" →
  target ∈ SUPPORTED_LANGS →
  getCurrentLang w ≠ Some target →
  let stripped := strip_lang_prefix (getCurrentLang w) (pathname w) in
  let rooted := ensure_slash stripped in
  ∃ dest,
    switchTo target w
    = Normal tt (set_navigations (navigations w ++ [dest])
                   (set_localStorage (Some (<[STORAGE_KEY := target]> items)) w))
    ∧ (∀ cur rest, getCurrentLang w = Some cur →
         pathname w = "/" +:+ cur +:+ rest → stripped = rest)
    ∧ ((∀ cur, getCurrentLang w = Some cur →
          JS.startsWith (pathname w) ("/" +:+ cur) = false) →
         stripped = pathname w)
    ∧ JS.startsWith rooted "/" = true
    ∧ (JS.startsWith stripped "/" = true → rooted = stripped)
    ∧ (JS.startsWith stripped "/" = false → rooted = "/" +:+ stripped)
    ∧ JS.startsWith rooted "//" = JS.startsWith stripped "//"
    ∧ (target = "en" → dest = rooted)
    ∧ (target = "en" → stripped = "" → dest = "/")
    ∧ (target ≠ "en" → dest = "/" +:+ target +:+ rooted)
    ∧ (target ≠ "en" → stripped = "" → dest = "/" +:+ target +:+ "/")
    ∧ (pathname w = "/ar/projects/detail.html" → target = "en" →
         dest = "/projects/detail.html")
    ∧ (pathname w = "/projects/detail.html" → target = "ar" →
         dest = "/ar/projects/detail.html").
Proof.
  intros Hst Hproto Hsup Hne stripped rooted.
  exists (server_target (getCurrentLang w) target (pathname w)).
  split.
  { rewrite (switchTo_navigates w items target Hst Hsup Hne).
    by rewrite bool_decide_eq_false_2 by done. }
  split.
  { intros cur rest Hcur Hpath. subst stripped. rewrite Hcur, Hpath.
    apply strip_lang_prefix_present.
    apply getCurrentLang_supported, supported_cases in Hcur as [-> | ->]; done. }
  split; [apply strip_lang_prefix_absent |].
  split; [apply ensure_slash_starts |].
  split; [apply ensure_slash_id |].
  split; [apply ensure_slash_add |].
  split.
  { subst rooted. unfold ensure_slash.
    destruct (JS.startsWith stripped "/") eqn:E; cbn [negb]; [done |].
    destruct stripped as [|c s]; [done |]. cbn in E |- *.
    destruct (decide ("/"%char = c)); [done |].
    by destruct (decide ("/"%char = "/"%char)). }
  split; [by intros ->; apply server_target_en |].
  split.
  { intros -> E. rewrite server_target_en. fold stripped. by rewrite E. }
  split; [by apply server_target_prefixed |].
  split.
  { intros Hn E. rewrite server_target_prefixed by done. fold stripped.
    by rewrite E. }
  unfold getCurrentLang. split; intros -> ->; by vm_compute.
Qed.

(** The two addresses of C1, on a page served over https. *)
Lemma C1_switchTo_networked_witness :
  navigations
    (page_of (switchTo "en" (page_at "/ar/projects/detail.html" "https:" (Some ∅) "en-US")))
  = ["/projects/detail.html"]
  ∧ navigations
      (page_of (switchTo "ar" (page_at "/projects/detail.html" "https:" (Some ∅) "en-US")))
    = ["/ar/projects/detail.html"].
Proof.
  split.
  - destruct (C1_switchTo_networked
                (page_at "/ar/projects/detail.html" "https:" (Some ∅) "en-US")
                ∅ "en")
      as (dest & Hrun & _ & _ & _ & _ & _ & _ & _ & _ & _ & _ & Hex & _).
    + reflexivity.
    + discriminate.
    + apply supported_cases. by left.
    + vm_compute. discriminate.
    + rewrite Hrun. cbn. by rewrite (Hex eq_refl eq_refl).
  - destruct (C1_switchTo_networked
                (page_at "/projects/detail.html" "https:" (Some ∅) "en-US")
                ∅ "ar")
      as (dest & Hrun & _ & _ & _ & _ & _ & _ & _ & _ & _ & _ & _ & Hex).
    + reflexivity.
    + discriminate.
    + apply supported_cases. by right.
    + vm_compute. discriminate.
    + rewrite Hrun. cbn. by rewrite (Hex eq_refl eq_refl).
Defined.

(** * The local-file rewrite *)

Lemma filename_of_app (dir file : string) :
  JS.occurs "/" file = false →
  filename_of (dir +:+ "/" +:+ file)
  = if bool_decide (file = "") then "index.html" else file.
Proof.
  intros Hf. unfold filename_of. cbn [String.append].
  rewrite (pop_split_app _ _ _ Hf). cbn [JS.truthy JS.to_string].
  by destruct (bool_decide (file = "")).
Qed.

Lemma currentDir_app (dir file : string) :
  JS.occurs "/" file = false →
  JS.substring (dir +:+ "/" +:+ file) 0 (JS.lastIndexOf (dir +:+ "/" +:+ file) "/")
  = dir.
Proof.
  intros Hf. cbn [String.append].
  rewrite (lastIndexOf_app _ _ _ Hf). apply substring_prefix.
Qed.

(** Inside a folder named after the current locale the target lives
    next to, or inside a sibling of, that folder. *)
Lemma file_target_in_lang_folder (parent cur file newLang : string) :
  JS.occurs "/" cur = false →
  JS.occurs "/" file = false →
  file_target (Some cur) newLang ((parent +:+ "/" +:+ cur) +:+ "/" +:+ file)
  = let filename := if bool_decide (file = "") then "index.html" else file in
    if bool_decide (newLang = "en")
    then parent +:+ "/" +:+ filename
    else parent +:+ "/" +:+ newLang +:+ "/" +:+ filename.
Proof.
  intros Hc Hf. unfold file_target. cbn zeta.
  rewrite (currentDir_app _ _ Hf), !(filename_of_app _ _ Hf).
  cbn [JS.to_string]. rewrite endsWith_app.
  by rewrite (currentDir_app _ _ Hc).
Qed.

(** Anywhere else the target is the folder of the target locale inside
    the current folder. *)
Lemma file_target_elsewhere (cur : option string) (dir file newLang : string) :
  JS.occurs "/" file = false →
  JS.endsWith dir ("/" +:+ JS.to_string cur) = false →
  file_target cur newLang (dir +:+ "/" +:+ file)
  = dir +:+ "/" +:+ newLang +:+ "/"
    +:+ (if bool_decide (file = "") then "index.html" else file).
Proof.
  intros Hf Hd. unfold file_target. cbn zeta.
  rewrite (currentDir_app _ _ Hf), !(filename_of_app _ _ Hf), Hd.
  destruct (bool_decide (cur = Some "en") && bool_decide (newLang = "ar")) eqn:E;
    [| done].
  apply andb_true_iff in E as [_ E]. apply bool_decide_eq_true in E. by subst.
Qed.

(** From the folder of the non-default locale to the default locale. *)
Lemma switchTo_file_from_locale_folder
    (w : Browser) (items : gmap string string) (parent file : string) :
  localStorage w = Some items →
  protocol w = "file:" →
  JS.occurs "/" file = false →
  pathname w = (parent +:+ "/" +:+ "ar") +:+ "/" +:+ file →
  getCurrentLang w = Some "ar"
  ∧ navigations (page_of (switchTo "en" w))
    = navigations w
      ++ [parent +:+ "/" +:+ (if bool_decide (file = "") then "index.html" else file)].
Proof.
  intros Hst Hproto Hfile Hpath.
  assert (getCurrentLang w = Some "ar") as Hcur.
  { unfold getCurrentLang, getCurrentLang_at. rewrite Hpath.
    assert (JS.includes ((parent +:+ "/" +:+ "ar") +:+ "/" +:+ file) "ar/" = true)
      as ->; [| done].
    replace ((parent +:+ "/" +:+ "ar") +:+ "/" +:+ file)
      with ((parent +:+ "/") +:+ "ar/" +:+ file)
      by (by rewrite !app_assoc_str).
    apply includes_app. }
  split; [exact Hcur |].
  rewrite (switchTo_navigates w items "en" Hst)
    by (by apply supported_cases; left) || (by rewrite Hcur).
  cbn. rewrite (bool_decide_eq_true_2 _ Hproto), Hcur, Hpath.
  by rewrite (file_target_in_lang_folder parent "ar" file "en").
Qed.

(** From any folder that the script does not take for the folder of the
    current locale, to a non-default locale. *)
Lemma switchTo_file_from_default_folder
    (w : Browser) (items : gmap string string) (dir file target : string) :
  localStorage w = Some items →
  protocol w = "file:" →
  JS.occurs "/" file = false →
  pathname w = dir +:+ "/" +:+ file →
  target ∈ SUPPORTED_LANGS →
  getCurrentLang w ≠ Some target →
  JS.endsWith dir ("/" +:+ JS.to_string (getCurrentLang w)) = false →
  navigations (page_of (switchTo target w))
  = navigations w
    ++ [dir +:+ "/" +:+ target +:+ "/"
        +:+ (if bool_decide (file = "") then "index.html" else file)].
Proof.
  intros Hst Hproto Hfile Hpath Hsup Hne Hdir.
  rewrite (switchTo_navigates w items target Hst Hsup Hne).
  cbn. rewrite (bool_decide_eq_true_2 _ Hproto), Hpath.
  by rewrite (file_target_elsewhere _ dir file target Hfile Hdir).
Qed.

(** The two addresses the specification gives for local-file mode. *)
Lemma switchTo_file_examples :
  navigations
    (page_of (switchTo "en" (page_at "/C:/site/ar/index.html" "file:" (Some ∅) "en-US")))
  = ["/C:/site/index.html"]
  ∧ navigations
      (page_of (switchTo "ar" (page_at "/C:/site/index.html" "file:" (Some ∅) "en-US")))
    = ["/C:/site/ar/index.html"].
Proof. split; by vm_compute. Qed.

(** C2.  The local-file rewrite at a default-locale folder that is named
    [null]: no locale is detected in [/C:/null/index.html], so the page
    is in the default-locale folder and the enclosing folder is
    [/C:/null]; yet [switchTo('ar')] navigates to the *parent* of the
    enclosing folder, [/C:/ar/index.html], and not to enclosing-folder +
    target-locale-folder + filename, [/C:/null/ar/index.html]: the test
    [currentDir.endsWith('/' + currentLang)] coerces the absent locale
    to the text [null]. *)
Theorem C2_file_switch_from_folder_named_null :
  let w := page_at "/C:/null/index.html" "file:" (Some ∅) "en-US" in
  getCurrentLang w = None
  ∧ JS.substring (pathname w) 0 (JS.lastIndexOf (pathname w) "/") = "/C:/null"
  ∧ filename_of (pathname w) = "index.html"
  ∧ navigations (page_of (switchTo "ar" w)) = ["/C:/ar/index.html"]
  ∧ navigations (page_of (switchTo "ar" w))
    ≠ ["/C:/null" +:+ "/" +:+ "ar" +:+ "/" +:+ "index.html"].
Proof. repeat split; by vm_compute. Qed.

(** * Resolution on page load *)

Lemma getPreferredLang_run (w : Browser) (items : gmap string string) :
  localStorage w = Some items →
  getPreferredLang w
  = Normal
      (match items !! STORAGE_KEY with
       | Some s =>
           if bool_decide (s ∈ SUPPORTED_LANGS) then s
           else if bool_decide (browserLang w ∈ SUPPORTED_LANGS)
                then browserLang w else DEFAULT_LANG
       | None =>
           if bool_decide (browserLang w ∈ SUPPORTED_LANGS)
           then browserLang w else DEFAULT_LANG
       end) w.
Proof.
  intros Hst. unfold getPreferredLang, mbind, M_bind, getItem. rewrite Hst.
  unfold JS.array_includes.
  destruct (items !! STORAGE_KEY) as [s|]; cbn [JS.truthy JS.to_string andb].
  - destruct (bool_decide (s ∈ SUPPORTED_LANGS)) eqn:Es.
    + apply bool_decide_eq_true, supported_cases in Es as [-> | ->]; done.
    + rewrite andb_false_r.
      by destruct (bool_decide (browserLang w ∈ SUPPORTED_LANGS)).
  - by destruct (bool_decide (browserLang w ∈ SUPPORTED_LANGS)).
Qed.

Lemma detectAndRedirect_routed_navigations (w : Browser) (l : string) :
  getCurrentLang w = Some l →
  navigations (page_of (detectAndRedirect w)) = navigations w.
Proof.
  intros Hcur. unfold detectAndRedirect. rewrite Hcur.
  unfold mbind, M_bind, savePreference, setItem.
  by destruct (localStorage w).
Qed.

Lemma root_has_no_locale (w : Browser) :
  pathname w = "/" ∨ pathname w = "" → getCurrentLang w = None.
Proof. unfold getCurrentLang. by intros [-> | ->]. Qed.

Lemma locale_root_resolves (l : string) :
  l ∈ SUPPORTED_LANGS → getCurrentLang_at ("/" +:+ l +:+ "/") = Some l.
Proof. intros [-> | ->]%supported_cases; by vm_compute. Qed.

Lemma resolve_from_root (base l : string) :
  base = "/" ∨ base = "" →
  resolve_dot_slash base ("./" +:+ l +:+ "/") = "/" +:+ l +:+ "/".
Proof. by intros [-> | ->]. Qed.

(** C3.  On a load whose address carries no locale, with the preference
    store readable: the preferred locale is the stored preference when
    it is a supported code, else the browser language (the part of
    [navigator.language] before the first [-], lower-cased) when that is
    supported, else the default [en]; a navigation is performed if and
    only if the path is the site root ([/], or the empty path), and then
    it is the single assignment [./<preferred>/]; the page it resolves
    to, [/<preferred>/], carries the preferred locale and performs no
    further navigation, so the locale root is reached exactly once.  A
    locale-less path other than the root leaves the page untouched.  With
    nothing stored and browser language [ar] the preferred locale is
    [ar]; with [en] stored it is [en] whatever the browser language. *)
Theorem C3_root_redirect (w : Browser) (items : gmap string string) :
  localStorage w = Some items →
  getCurrentLang w = None →
  let stored := items !! STORAGE_KEY in
  let root := pathname w = "/" ∨ pathname w = "" in
  ∃ pref,
    getPreferredLang w = Normal pref w
    ∧ pref ∈ SUPPORTED_LANGS
    ∧ (∀ s, stored = Some s → s ∈ SUPPORTED_LANGS → pref = s)
    ∧ ((∀ s, stored = Some s → s ∉ SUPPORTED_LANGS) →
         browserLang w ∈ SUPPORTED_LANGS → pref = browserLang w)
    ∧ ((∀ s, stored = Some s → s ∉ SUPPORTED_LANGS) →
         browserLang w ∉ SUPPORTED_LANGS → pref = "en")
    ∧ (root →
         detectAndRedirect w
         = Normal tt (set_navigations (navigations w ++ ["./" +:+ pref +:+ "/"]) w))
    ∧ (¬ root → detectAndRedirect w = Normal tt w)
    ∧ (navigations (page_of (detectAndRedirect w)) ≠ navigations w ↔ root)
    ∧ (navigations (page_of (init w)) ≠ navigations w ↔ root)
    ∧ (root →
         ∀ w2, pathname w2 = resolve_dot_slash (pathname w) ("./" +:+ pref +:+ "/") →
           pathname w2 = "/" +:+ pref +:+ "/"
           ∧ getCurrentLang w2 = Some pref
           ∧ navigations (page_of (detectAndRedirect w2)) = navigations w2)
    ∧ (stored = None → language w = "ar" → pref = "ar")
    ∧ (stored = Some "en" → pref = "en").
Proof.
  intros Hst Hcur stored root.
  pose proof (getPreferredLang_run w items Hst) as Hpref.
  fold stored in Hpref.
  set (pref := match stored with
               | Some s => _
               | None => _
               end) in Hpref.
  assert (Hdetect_root : root →
            detectAndRedirect w
            = Normal tt (set_navigations (navigations w ++ ["./" +:+ pref +:+ "/"]) w)).
  { intros Hroot. unfold detectAndRedirect. rewrite Hcur. cbn zeta.
    replace (bool_decide (pathname w = "/") || bool_decide (pathname w = ""))
      with true
      by (symmetry; apply orb_true_iff;
          destruct Hroot; [left | right]; by apply bool_decide_eq_true).
    unfold mbind, M_bind. by rewrite Hpref. }
  assert (Hdetect_deep : ¬ root → detectAndRedirect w = Normal tt w).
  { intros Hdeep. unfold detectAndRedirect. rewrite Hcur. cbn zeta.
    replace (bool_decide (pathname w = "/") || bool_decide (pathname w = ""))
      with false; [done |].
    symmetry. apply orb_false_iff.
    split; apply bool_decide_eq_false; intros E; apply Hdeep; [by left | by right]. }
  assert (Hiff : navigations (page_of (detectAndRedirect w)) ≠ navigations w ↔ root).
  { split.
    - intros Hnav. destruct (decide (pathname w = "/")) as [|N1]; [by left |].
      destruct (decide (pathname w = "")) as [|N2]; [by right |].
      exfalso. apply Hnav. rewrite Hdetect_deep; [done |]. by intros [|].
    - intros Hroot. rewrite (Hdetect_root Hroot). cbn. intros E.
      apply (f_equal length) in E. rewrite length_app in E. cbn in E. lia. }
  assert (Hsup : pref ∈ SUPPORTED_LANGS).
  { subst pref. destruct stored as [s|].
    - case_bool_decide; [done |].
      case_bool_decide; [done | by apply supported_cases; left].
    - case_bool_decide; [done | by apply supported_cases; left]. }
  exists pref. split; [exact Hpref |]. split; [exact Hsup |].
  split.
  { intros s Hs Hin. subst pref. rewrite Hs. by rewrite bool_decide_eq_true_2. }
  split.
  { intros Hno Hb. subst pref. destruct stored as [s|].
    - rewrite bool_decide_eq_false_2 by (by apply Hno).
      by rewrite bool_decide_eq_true_2.
    - by rewrite bool_decide_eq_true_2. }
  split.
  { intros Hno Hb. subst pref. destruct stored as [s|].
    - rewrite bool_decide_eq_false_2 by (by apply Hno).
      by rewrite bool_decide_eq_false_2.
    - by rewrite bool_decide_eq_false_2. }
  split; [exact Hdetect_root |]. split; [exact Hdetect_deep |].
  split; [exact Hiff |].
  split.
  { unfold init, bindEvents, mbind, M_bind.
    destruct (decide root) as [Hroot | Hdeep].
    - rewrite (Hdetect_root Hroot). cbn. split; [done |]. intros _ E.
      apply (f_equal length) in E. rewrite length_app in E. cbn in E. lia.
    - rewrite (Hdetect_deep Hdeep). cbn. split; [done | by intros ?]. }
  split.
  { intros Hroot w2 Hw2. rewrite (resolve_from_root _ _ Hroot) in Hw2.
    assert (getCurrentLang w2 = Some pref) as Hc2.
    { unfold getCurrentLang. rewrite Hw2. by apply locale_root_resolves. }
    split; [exact Hw2 |]. split; [exact Hc2 |].
    by apply (detectAndRedirect_routed_navigations w2 pref). }
  split.
  { intros Hs Hl. subst pref. rewrite Hs. unfold browserLang. rewrite Hl.
    by vm_compute. }
  intros Hs. subst pref. rewrite Hs. by vm_compute.
Qed.

(** The two root loads of C3. *)
Lemma C3_root_redirect_witness :
  navigations (page_of (detectAndRedirect (page_at "/" "https:" (Some ∅) "ar")))
  = ["./ar/"]
  ∧ navigations
      (page_of (detectAndRedirect
                  (page_at "/" "https:" (Some {[ "amd-lang" := "en" ]}) "ar")))
    = ["./en/"].
Proof.
  split.
  - destruct (C3_root_redirect (page_at "/" "https:" (Some ∅) "ar") ∅)
      as (pref & _ & _ & _ & _ & _ & Hroot & _ & _ & _ & _ & Hex & _).
    + reflexivity.
    + reflexivity.
    + rewrite (Hroot (or_introl eq_refl)). cbn.
      by rewrite (Hex eq_refl eq_refl).
  - destruct (C3_root_redirect
                (page_at "/" "https:" (Some {[ "amd-lang" := "en" ]}) "ar")
                {[ "amd-lang" := "en" ]})
      as (pref & _ & _ & _ & _ & _ & Hroot & _ & _ & _ & _ & _ & Hex).
    + reflexivity.
    + reflexivity.
    + rewrite (Hroot (or_introl eq_refl)). cbn.
      by rewrite (Hex eq_refl).
Defined.

(** * Round trip and idempotence of the networked rewrite *)

Lemma getCurrentLang_at_ar_prefixed (r : string) :
  getCurrentLang_at ("/ar/" +:+ r) = Some "ar".
Proof.
  unfold getCurrentLang_at.
  assert (JS.includes ("/ar/" +:+ r) "ar/" = true) as ->
    by exact (includes_app "/" "ar/" r).
  done.
Qed.

Lemma toLocale_ar (path : string) :
  ∃ r, ensure_slash (strip_lang_prefix (getCurrentLang_at path) path) = "/" +:+ r
       ∧ toLocale path "ar" = "/ar/" +:+ r.
Proof.
  unfold toLocale. rewrite server_target_prefixed by done.
  destruct (ensure_slash_cons (strip_lang_prefix (getCurrentLang_at path) path))
    as [r ->].
  by exists r.
Qed.

(** C4, as the specification has it, fails for the default locale:
    the rewrite of [/ar/projects/detail.html] to [en] is
    [/projects/detail.html], in which no locale is found. *)
Lemma C4_round_trip_fails_for_default :
  "en" ∈ SUPPORTED_LANGS
  ∧ "/ar/projects/detail.html" ≠ "/"
  ∧ toLocale "/ar/projects/detail.html" "en" = "/projects/detail.html"
  ∧ getCurrentLang_at (toLocale "/ar/projects/detail.html" "en") = None
  ∧ getCurrentLang_at (toLocale "/ar/projects/detail.html" "en") ≠ Some "en".
Proof.
  split; [by apply supported_cases; left |].
  repeat split; by vm_compute.
Qed.

(** C4 (amended).  For every supported locale [L] other than the
    default, and every address, the site root included, the locale
    found in the path that the networked rewrite computes for [L] is
    [L]; and this holds whatever locale the rewrite started from. *)
Theorem C4_round_trip_non_default (path L : string) :
  L ∈ SUPPORTED_LANGS →
  L ≠ DEFAULT_LANG →
  getCurrentLang_at (toLocale path L) = Some L
  ∧ ∀ cur, getCurrentLang_at (server_target cur L path) = Some L.
Proof.
  intros [-> | ->]%supported_cases Hne; [done |]. split.
  - destruct (toLocale_ar path) as (r & _ & ->).
    apply getCurrentLang_at_ar_prefixed.
  - intros cur. rewrite server_target_prefixed by done.
    destruct (ensure_slash_cons (strip_lang_prefix cur path)) as [r ->].
    apply (getCurrentLang_at_ar_prefixed r).
Qed.

Lemma C4_round_trip_non_default_witness :
  getCurrentLang_at (toLocale "/projects/detail.html" "ar") = Some "ar".
Proof.
  apply (C4_round_trip_non_default "/projects/detail.html" "ar").
  - apply supported_cases. by right.
  - discriminate.
Defined.

(** C5, as the specification has it, fails for the default locale on
    an address whose remainder again begins with a locale prefix:
    [/ar/ar/index.html] is rewritten for [en] to [/ar/index.html], which
    the same rewrite takes to [/index.html]. *)
Lemma C5_idempotence_fails_on_doubled_prefix :
  "en" ∈ SUPPORTED_LANGS
  ∧ toLocale "/ar/ar/index.html" "en" = "/ar/index.html"
  ∧ toLocale (toLocale "/ar/ar/index.html" "en") "en" = "/index.html"
  ∧ toLocale (toLocale "/ar/ar/index.html" "en") "en"
    ≠ toLocale "/ar/ar/index.html" "en".
Proof.
  split; [by apply supported_cases; left |].
  repeat split; by vm_compute.
Qed.

(** C5 (amended).  For a supported locale [L], rewriting to [L] a path
    already rewritten to [L] gives the same path, provided that, when
    [L] is the default locale, the rewritten path does not itself begin
    with the prefix of the locale found in it (so that there is no
    prefix left to strip); for the non-default locale no such proviso is
    needed. *)
Theorem C5_idempotence (path L : string) :
  L ∈ SUPPORTED_LANGS →
  (L = DEFAULT_LANG →
   ∀ cur, getCurrentLang_at (toLocale path L) = Some cur →
     JS.startsWith (toLocale path L) ("/" +:+ cur) = false) →
  toLocale (toLocale path L) L = toLocale path L.
Proof.
  intros [-> | ->]%supported_cases Hleft.
  - specialize (Hleft eq_refl).
    unfold toLocale at 1. rewrite server_target_en.
    rewrite (strip_lang_prefix_absent _ _ Hleft).
    apply ensure_slash_id.
    unfold toLocale. rewrite server_target_en. apply ensure_slash_starts.
  - clear Hleft. destruct (toLocale_ar path) as (r & _ & E). rewrite E.
    unfold toLocale. rewrite server_target_prefixed by done.
    rewrite getCurrentLang_at_ar_prefixed.
    assert (strip_lang_prefix (Some "ar") ("/ar/" +:+ r) = "/" +:+ r) as ->
      by exact (strip_lang_prefix_present "ar" ("/" +:+ r) ltac:(done)).
    by rewrite ensure_slash_id.
Qed.

Lemma C5_idempotence_witness :
  toLocale (toLocale "/ar/garden/plan.html" "en") "en"
  = toLocale "/ar/garden/plan.html" "en"
  ∧ toLocale (toLocale "/projects/detail.html" "ar") "ar"
    = toLocale "/projects/detail.html" "ar".
Proof.
  split.
  - apply (C5_idempotence "/ar/garden/plan.html" "en").
    + apply supported_cases. by left.
    + intros _ cur Hcur. vm_compute in Hcur. injection Hcur as <-. reflexivity.
  - apply (C5_idempotence "/projects/detail.html" "ar").
    + apply supported_cases. by right.
    + discriminate.
Defined.

(** * Switches that do not navigate *)

(** C6.  For every code outside the supported set, [switchTo] ends
    normally after adding exactly one warning to the console; nothing
    else on the page changes: no navigation, no write to the preference
    store, no change to the address, the document attributes or the
    controls.  This holds whether or not the store is accessible. *)
Theorem C6_switchTo_unsupported (w : Browser) (code : string) :
  code ∉ SUPPORTED_LANGS →
  switchTo code w
  = Normal tt (set_console (console w ++ ["Unsupported language: " +:+ code]) w)
  ∧ console (page_of (switchTo code w))
    = console w ++ ["Unsupported language: " +:+ code]
  ∧ length (console (page_of (switchTo code w))) = S (length (console w))
  ∧ navigations (page_of (switchTo code w)) = navigations w
  ∧ localStorage (page_of (switchTo code w)) = localStorage w
  ∧ pathname (page_of (switchTo code w)) = pathname w
  ∧ protocol (page_of (switchTo code w)) = protocol w
  ∧ language (page_of (switchTo code w)) = language w
  ∧ html_lang (page_of (switchTo code w)) = html_lang w
  ∧ html_dir (page_of (switchTo code w)) = html_dir w
  ∧ buttons (page_of (switchTo code w)) = buttons w
  ∧ links (page_of (switchTo code w)) = links w.
Proof.
  intros Hno.
  assert (switchTo code w
          = Normal tt (set_console (console w ++ ["Unsupported language: " +:+ code]) w))
    as ->.
  { unfold switchTo, JS.array_includes.
    by rewrite bool_decide_eq_false_2 by done. }
  cbn. rewrite length_app. cbn. repeat split; try done. lia.
Qed.

Lemma C6_switchTo_unsupported_witness :
  console (page_of (switchTo "fr" (page_at "/ar/" "https:" (Some ∅) "fr-FR")))
  = ["Unsupported language: fr"]
  ∧ navigations (page_of (switchTo "fr" (page_at "/ar/" "https:" (Some ∅) "fr-FR")))
    = []
  ∧ localStorage (page_of (switchTo "fr" (page_at "/ar/" "https:" (Some ∅) "fr-FR")))
    = Some ∅.
Proof.
  destruct (C6_switchTo_unsupported (page_at "/ar/" "https:" (Some ∅) "fr-FR") "fr")
    as (_ & Hc & _ & Hn & Hs & _).
  - intros [E | E]%supported_cases; discriminate E.
  - rewrite Hc, Hn, Hs. done.
Defined.

(** C7.  When the address resolves to the locale [L] (which is then a
    supported one), [switchTo(L)] ends normally and leaves the page
    exactly as it was: the preference store is not written, no
    navigation is made, the address is unchanged, and no warning is
    logged.  This holds whether or not the store is accessible. *)
Theorem C7_switchTo_current (w : Browser) (L : string) :
  getCurrentLang w = Some L →
  L ∈ SUPPORTED_LANGS
  ∧ switchTo L w = Normal tt w
  ∧ localStorage (page_of (switchTo L w)) = localStorage w
  ∧ navigations (page_of (switchTo L w)) = navigations w
  ∧ pathname (page_of (switchTo L w)) = pathname w.
Proof.
  intros Hcur. pose proof (getCurrentLang_supported w L Hcur) as Hsup.
  assert (switchTo L w = Normal tt w) as ->.
  { unfold switchTo. apply array_includes_supported in Hsup. rewrite Hsup.
    cbn [negb]. by rewrite bool_decide_eq_true_2. }
  by repeat split.
Qed.

Lemma C7_switchTo_current_witness :
  switchTo "ar" (page_at "/ar/projects/detail.html" "https:" (Some ∅) "en-US")
  = Normal tt (page_at "/ar/projects/detail.html" "https:" (Some ∅) "en-US").
Proof.
  apply (C7_switchTo_current
           (page_at "/ar/projects/detail.html" "https:" (Some ∅) "en-US") "ar").
  reflexivity.
Defined.

(** * Failure of the preference store *)

Lemma getPreferredLang_throws (w : Browser) :
  localStorage w = None → getPreferredLang w = Throw "SecurityError" w.
Proof.
  intros Hst. unfold getPreferredLang, mbind, M_bind, getItem. by rewrite Hst.
Qed.

Lemma detectAndRedirect_completes (w : Browser) :
  localStorage w ≠ None → completes (detectAndRedirect w) = true.
Proof.
  intros Hst. destruct (localStorage w) as [items|] eqn:E; [| done].
  unfold detectAndRedirect.
  destruct (getCurrentLang w) as [l|].
  - unfold mbind, M_bind, savePreference, setItem. by rewrite E.
  - cbn zeta. destruct (bool_decide (pathname w = "/") || bool_decide (pathname w = ""));
      [| done].
    unfold mbind, M_bind. by rewrite (getPreferredLang_run w items E).
Qed.

(** C8, as the specification has it, fails: with the store disabled, a
    load of the site root raises out of [getPreferredLang],
    [detectAndRedirect] and [init] alike, and so does the load of a page
    that carries a locale. *)
Lemma C8_storage_failure_propagates :
  getPreferredLang (page_at "/" "https:" None "ar")
  = Throw "SecurityError" (page_at "/" "https:" None "ar")
  ∧ detectAndRedirect (page_at "/" "https:" None "ar")
    = Throw "SecurityError" (page_at "/" "https:" None "ar")
  ∧ init (page_at "/" "https:" None "ar")
    = Throw "SecurityError" (page_at "/" "https:" None "ar")
  ∧ completes (init (page_at "/" "https:" None "ar")) = false
  ∧ completes (init (page_at "/ar/index.html" "https:" None "ar")) = false.
Proof. repeat split; by vm_compute. Qed.

(** C8 (amended).  A failure of the preference store is not absorbed.
    With the store inaccessible, [getPreferredLang] raises; and
    [detectAndRedirect] and [init] raise, leaving the page untouched,
    whenever the address carries a locale or is the site root.  Only the
    load of a locale-less address other than the root, which never
    touches the store, completes.  With the store accessible,
    [getPreferredLang], [detectAndRedirect] and [init] always complete. *)
Theorem C8_storage_failure (w : Browser) :
  (localStorage w = None →
     getPreferredLang w = Throw "SecurityError" w)
  ∧ (localStorage w = None →
     getCurrentLang w ≠ None ∨ pathname w = "/" ∨ pathname w = "" →
     detectAndRedirect w = Throw "SecurityError" w
     ∧ init w = Throw "SecurityError" w)
  ∧ (localStorage w = None →
     getCurrentLang w = None → pathname w ≠ "/" → pathname w ≠ "" →
     detectAndRedirect w = Normal tt w ∧ completes (init w) = true)
  ∧ (localStorage w ≠ None →
     completes (getPreferredLang w) = true
     ∧ completes (detectAndRedirect w) = true
     ∧ completes (init w) = true).
Proof.
  split; [apply getPreferredLang_throws |].
  split.
  { intros Hst Hwhere.
    assert (detectAndRedirect w = Throw "SecurityError" w) as Hd.
    { unfold detectAndRedirect.
      destruct (getCurrentLang w) as [l|] eqn:Hcur.
      - unfold mbind, M_bind, savePreference, setItem. by rewrite Hst.
      - destruct Hwhere as [? | Hroot]; [done |]. cbn zeta.
        replace (bool_decide (pathname w = "/") || bool_decide (pathname w = ""))
          with true
          by (symmetry; apply orb_true_iff;
              destruct Hroot; [left | right]; by apply bool_decide_eq_true).
        unfold mbind, M_bind. by rewrite (getPreferredLang_throws w Hst). }
    split; [exact Hd |]. unfold init, bindEvents, mbind, M_bind. by rewrite Hd. }
  split.
  { intros Hst Hcur N1 N2.
    assert (detectAndRedirect w = Normal tt w) as Hd.
    { unfold detectAndRedirect. rewrite Hcur. cbn zeta.
      by rewrite !bool_decide_eq_false_2 by done. }
    split; [exact Hd |]. unfold init, bindEvents, mbind, M_bind. by rewrite Hd. }
  intros Hst. split.
  { destruct (localStorage w) as [items|] eqn:E; [| done].
    by rewrite (getPreferredLang_run w items E). }
  pose proof (detectAndRedirect_completes w Hst) as Hd.
  split; [exact Hd |]. unfold init, bindEvents, mbind, M_bind.
  by destruct (detectAndRedirect w).
Qed.

Lemma C8_storage_failure_witness :
  init (page_at "/" "https:" None "ar")
  = Throw "SecurityError" (page_at "/" "https:" None "ar")
  ∧ completes (init (page_at "/about.html" "https:" None "ar")) = true
  ∧ completes (init (page_at "/" "https:" (Some ∅) "ar")) = true.
Proof.
  split; [| split].
  - destruct (C8_storage_failure (page_at "/" "https:" None "ar"))
      as (_ & Hthrow & _ & _).
    apply Hthrow.
    + reflexivity.
    + right. left. reflexivity.
  - destruct (C8_storage_failure (page_at "/about.html" "https:" None "ar"))
      as (_ & _ & Hdeep & _).
    apply Hdeep.
    + reflexivity.
    + reflexivity.
    + discriminate.
    + discriminate.
  - destruct (C8_storage_failure (page_at "/" "https:" (Some ∅) "ar"))
      as (_ & _ & _ & Hok).
    apply Hok. discriminate.
Defined.

(** * The switcher after resolution *)

Lemma classList_add_in (c : string) (cl : list string) : c ∈ classList_add c cl.
Proof.
  unfold classList_add. case_bool_decide; [done |].
  apply elem_of_app. right. by apply list_elem_of_singleton.
Qed.

Lemma classList_remove_out (c : string) (cl : list string) :
  c ∉ classList_remove c cl.
Proof. unfold classList_remove. intros [H _]%list_elem_of_filter. by apply H. Qed.

Lemma update_button_data_lang (L : string) (b : Button) :
  data_lang (update_button L b) = data_lang b.
Proof. unfold update_button. by case_bool_decide. Qed.

Lemma update_button_bound (L : string) (b : Button) :
  data_lang b = Some L →
  is_active (update_button L b) = true ∧ is_current (update_button L b) = true.
Proof.
  intros Hb. unfold update_button.
  rewrite (bool_decide_eq_true_2 _ Hb). unfold is_active, is_current. cbn. split.
  - apply bool_decide_eq_true. apply classList_add_in.
  - done.
Qed.

Lemma update_button_other (L : string) (b : Button) :
  data_lang b ≠ Some L →
  is_active (update_button L b) = false ∧ is_current (update_button L b) = false.
Proof.
  intros Hb. unfold update_button.
  rewrite (bool_decide_eq_false_2 _ Hb). unfold is_active, is_current. cbn. split.
  - apply bool_decide_eq_false. apply classList_remove_out.
  - done.
Qed.

Lemma update_button_count (L : string) (bs : list Button) :
  length (filter (λ b, is_active b && is_current b) (update_button L <$> bs))
  = length (filter (λ b, data_lang b = Some L) bs).
Proof.
  induction bs as [|b bs IH]; [done |]. rewrite fmap_cons.
  destruct (decide (data_lang b = Some L)) as [Hb | Hb].
  - destruct (update_button_bound L b Hb) as [Ha Hc].
    rewrite (filter_cons_True (λ b, data_lang b = Some L)) by done.
    rewrite (filter_cons_True (λ b, is_active b && is_current b))
      by (cbv beta; rewrite Ha, Hc; exact I).
    cbn. by rewrite IH.
  - destruct (update_button_other L b Hb) as [Ha Hc].
    rewrite (filter_cons_False (λ b, data_lang b = Some L)) by done.
    rewrite (filter_cons_False (λ b, is_active b && is_current b))
      by (cbv beta; rewrite Ha, Hc; exact id).
    exact IH.
Qed.

Lemma update_button_count_any (L : string) (bs : list Button) :
  length (filter (λ b, is_active b || is_current b) (update_button L <$> bs))
  = length (filter (λ b, data_lang b = Some L) bs).
Proof.
  induction bs as [|b bs IH]; [done |]. rewrite fmap_cons.
  destruct (decide (data_lang b = Some L)) as [Hb | Hb].
  - destruct (update_button_bound L b Hb) as [Ha Hc].
    rewrite (filter_cons_True (λ b, data_lang b = Some L)) by done.
    rewrite (filter_cons_True (λ b, is_active b || is_current b))
      by (cbv beta; rewrite Ha, Hc; exact I).
    cbn. by rewrite IH.
  - destruct (update_button_other L b Hb) as [Ha Hc].
    rewrite (filter_cons_False (λ b, data_lang b = Some L)) by done.
    rewrite (filter_cons_False (λ b, is_active b || is_current b))
      by (cbv beta; rewrite Ha, Hc; exact id).
    exact IH.
Qed.

Lemma detectAndRedirect_routed (w : Browser) (items : gmap string string) (L : string) :
  localStorage w = Some items →
  getCurrentLang w = Some L →
  detectAndRedirect w
  = Normal tt
      (set_buttons (update_button L <$> buttons w)
         (set_html (Some L) (Some (if bool_decide (L = "ar") then "rtl" else "ltr"))
            (set_localStorage (Some (<[STORAGE_KEY := L]> items)) w))).
Proof.
  intros Hst Hcur. unfold detectAndRedirect. rewrite Hcur.
  unfold mbind, M_bind, savePreference, setItem. by rewrite Hst.
Qed.

(** C9.  After a load whose address carries the locale [L], with the
    preference store accessible, the controls are the same controls,
    bound to the same locales; every control bound to [L] carries both
    the active class and the [aria-current] marker, every other control
    carries neither, and so on no control do the two disagree; the
    controls that carry both are as many as the controls bound to [L]
    (exactly one when one control is bound to each locale).  The same
    holds once [init] has also bound the click listeners. *)
Theorem C9_switcher_synchronised
    (w : Browser) (items : gmap string string) (L : string) :
  localStorage w = Some items →
  getCurrentLang w = Some L →
  ∃ w' w'',
    detectAndRedirect w = Normal tt w'
    ∧ init w = Normal tt w''
    ∧ data_lang <$> buttons w' = data_lang <$> buttons w
    ∧ data_lang <$> buttons w'' = data_lang <$> buttons w
    ∧ (∀ b, b ∈ buttons w' ∨ b ∈ buttons w'' →
         (data_lang b = Some L → is_active b = true ∧ is_current b = true)
         ∧ (data_lang b ≠ Some L → is_active b = false ∧ is_current b = false)
         ∧ is_active b = is_current b)
    ∧ length (filter (λ b, is_active b && is_current b) (buttons w'))
      = length (filter (λ b, data_lang b = Some L) (buttons w))
    ∧ length (filter (λ b, is_active b || is_current b) (buttons w'))
      = length (filter (λ b, data_lang b = Some L) (buttons w)).
Proof.
  intros Hst Hcur.
  pose proof (detectAndRedirect_routed w items L Hst Hcur) as Hd.
  eexists _, _. split; [exact Hd |].
  split; [unfold init, bindEvents, mbind, M_bind; rewrite Hd; reflexivity |].
  cbn.
  assert (Hsync : ∀ b, b ∈ update_button L <$> buttons w →
            (data_lang b = Some L → is_active b = true ∧ is_current b = true)
            ∧ (data_lang b ≠ Some L → is_active b = false ∧ is_current b = false)
            ∧ is_active b = is_current b).
  { intros b (b0 & -> & _)%list_elem_of_fmap.
    rewrite update_button_data_lang.
    split; [apply update_button_bound |]. split; [apply update_button_other |].
    destruct (decide (data_lang b0 = Some L)) as [Hb | Hb].
    - destruct (update_button_bound L b0 Hb) as [-> ->]. done.
    - destruct (update_button_other L b0 Hb) as [-> ->]. done. }
  split.
  { rewrite <- list_fmap_compose. apply list_fmap_ext.
    intros ? b _. apply update_button_data_lang. }
  split.
  { rewrite <- !list_fmap_compose. apply list_fmap_ext.
    intros ? b _. cbn.
    destruct (switch_lang (update_button L b)); cbn; apply update_button_data_lang. }
  split.
  { intros b [Hb | Hb]; [by apply Hsync |].
    apply list_elem_of_fmap in Hb as (b2 & -> & Hb2).
    apply list_elem_of_fmap in Hb2 as (b1 & -> & Hb1).
    destruct (Hsync b1 Hb1) as (H1 & H2 & H3).
    unfold is_active, is_current in *.
    destruct (switch_lang (addEventListener ButtonClick b1)); cbn; done. }
  split; [apply update_button_count | apply update_button_count_any].
Qed.

Lemma C9_switcher_synchronised_witness :
  ∃ w',
    detectAndRedirect (page_at "/ar/projects/detail.html" "https:" (Some ∅) "en-US")
    = Normal tt w'
    ∧ data_lang <$> buttons w' = [Some "en"; Some "ar"]
    ∧ length (filter (λ b, is_active b && is_current b) (buttons w')) = 1%nat
    ∧ length (filter (λ b, is_active b || is_current b) (buttons w')) = 1%nat.
Proof.
  destruct (C9_switcher_synchronised
              (page_at "/ar/projects/detail.html" "https:" (Some ∅) "en-US") ∅ "ar")
    as (w' & w'' & Hd & _ & Hbound & _ & _ & Hboth & Hany).
  - reflexivity.
  - reflexivity.
  - exists w'. split; [exact Hd |]. split; [exact Hbound |].
    split; [rewrite Hboth | rewrite Hany]; reflexivity.
Defined.

(** * Alternate addresses *)

(** C10.  For every page and every argument [lang], the address
    [getAlternateUrl(lang)] returns begins with ["/" + lang], and indeed
    with ["/" + lang + "/"]: it is ["/" + lang] followed by the current
    path with the prefix of the current (or, failing that, default)
    locale removed and a leading separator ensured.  When that stripped
    path is the root, as it is at [/], at the empty path and at the
    locale roots [/ar], [/ar/], [/en], [/en/], the address is
    ["/" + lang + "/"].  The default locale is prefixed like any other:
    from [/ar/projects/detail.html] the alternate address for [en] is
    [/en/projects/detail.html], where the networked rewrite of
    [switchTo] gives [/projects/detail.html]. *)
Theorem C10_getAlternateUrl_prefixed (w : Browser) (lang : string) :
  let cur := default DEFAULT_LANG (getCurrentLang w) in
  let rooted := ensure_slash (JS.replace_anchored (pathname w) ("/" +:+ cur)) in
  JS.startsWith (getAlternateUrl lang w) ("/" +:+ lang) = true
  ∧ (∃ rest, getAlternateUrl lang w = "/" +:+ lang +:+ "/" +:+ rest)
  ∧ getAlternateUrl lang w = "/" +:+ lang +:+ rooted
  ∧ (rooted = "/" → getAlternateUrl lang w = "/" +:+ lang +:+ "/")
  ∧ (pathname w ∈ ["/"; ""; "/ar"; "/ar/"; "/en"; "/en/"] →
       getAlternateUrl lang w = "/" +:+ lang +:+ "/")
  ∧ (pathname w = "/ar/projects/detail.html" →
       getAlternateUrl "en" w = "/en/projects/detail.html"
       ∧ server_target (getCurrentLang w) "en" (pathname w) = "/projects/detail.html").
Proof.
  intros cur rooted.
  assert (Hshape : getAlternateUrl lang w = "/" +:+ lang +:+ rooted).
  { unfold getAlternateUrl. cbn zeta. fold cur.
    change (match getCurrentLang w with
            | Some l => l
            | None => DEFAULT_LANG
            end) with cur.
    fold rooted. by case_bool_decide as E; [rewrite E |]. }
  split.
  { rewrite Hshape. exact (startsWith_app ("/" +:+ lang) rooted). }
  split.
  { destruct (ensure_slash_cons (JS.replace_anchored (pathname w) ("/" +:+ cur)))
      as [rest Hrest].
    exists rest. rewrite Hshape. subst rooted. by rewrite Hrest. }
  split; [exact Hshape |].
  split; [by intros E; rewrite Hshape, E |].
  split.
  { intros Hin. rewrite Hshape. subst rooted cur. unfold getCurrentLang.
    rewrite !elem_of_cons, elem_of_nil in Hin.
    destruct Hin as [-> | [-> | [-> | [-> | [-> | [-> | []]]]]]]; reflexivity. }
  intros Hpath. unfold getAlternateUrl, getCurrentLang. rewrite Hpath.
  split; by vm_compute.
Qed.

Lemma C10_getAlternateUrl_prefixed_witness :
  getAlternateUrl "en" (page_at "/ar/" "https:" (Some ∅) "en-US") = "/en/"
  ∧ getAlternateUrl "en" (page_at "/ar/projects/detail.html" "https:" (Some ∅) "en-US")
    = "/en/projects/detail.html".
Proof.
  split.
  - destruct (C10_getAlternateUrl_prefixed
                (page_at "/ar/" "https:" (Some ∅) "en-US") "en")
      as (_ & _ & _ & Hroot & _).
    apply Hroot. reflexivity.
  - destruct (C10_getAlternateUrl_prefixed
                (page_at "/ar/projects/detail.html" "https:" (Some ∅) "en-US") "en")
      as (_ & _ & _ & _ & _ & Hex).
    apply Hex. reflexivity.
Defined.

(** * The preference store and the resolver together *)

Lemma getPreferredLang_stored_supported
    (w : Browser) (items : gmap string string) (L : string) :
  localStorage w = Some items →
  items !! STORAGE_KEY = Some L →
  L ∈ SUPPORTED_LANGS →
  getPreferredLang w = Normal L w.
Proof.
  intros Hst Hk Hsup. rewrite (getPreferredLang_run w items Hst), Hk.
  by rewrite bool_decide_eq_true_2.
Qed.

(** X1.  Saving a supported locale and then asking for the preferred
    locale gives that locale back, whatever the browser language and
    whatever was stored before; the write touches only the key
    [amd-lang] of the store and nothing else on the page.  A saved code
    that is not supported is never returned: the answer is then the
    supported browser language, or [en]. *)
Theorem X1_savePreference_getPreferredLang
    (w : Browser) (items : gmap string string) (L : string) :
  localStorage w = Some items →
  let w' := set_localStorage (Some (<[STORAGE_KEY := L]> items)) w in
  savePreference L w = Normal tt w'
  ∧ (∀ k, k ≠ STORAGE_KEY → (<[STORAGE_KEY := L]> items) !! k = items !! k)
  ∧ (L ∈ SUPPORTED_LANGS → getPreferredLang w' = Normal L w')
  ∧ (L ∉ SUPPORTED_LANGS →
       getPreferredLang w'
       = Normal (if bool_decide (browserLang w ∈ SUPPORTED_LANGS)
                 then browserLang w else "en") w').
Proof.
  intros Hst w'. split.
  { unfold savePreference, setItem. by rewrite Hst. }
  split.
  { intros k Hk. by apply lookup_insert_ne. }
  split.
  - intros Hsup.
    apply (getPreferredLang_stored_supported w' (<[STORAGE_KEY := L]> items) L);
      [done | apply lookup_insert_eq | done].
  - intros Hno.
    rewrite (getPreferredLang_run w' (<[STORAGE_KEY := L]> items) eq_refl).
    rewrite lookup_insert_eq. by rewrite bool_decide_eq_false_2.
Qed.

Lemma X1_savePreference_getPreferredLang_witness :
  getPreferredLang
    (page_of (savePreference "ar" (page_at "/" "https:" (Some ∅) "en-US")))
  = Normal "ar"
      (set_localStorage (Some (<[STORAGE_KEY := "ar"]> ∅))
         (page_at "/" "https:" (Some ∅) "en-US")).
Proof.
  destruct (X1_savePreference_getPreferredLang
              (page_at "/" "https:" (Some ∅) "en-US") ∅ "ar" eq_refl)
    as (Hsave & _ & Hget & _).
  rewrite Hsave. cbn [page_of]. apply Hget.
  apply supported_cases. by right.
Defined.

Lemma toLowerCase_idempotent (s : string) :
  JS.toLowerCase (JS.toLowerCase s) = JS.toLowerCase s.
Proof.
  induction s as [|c s IH]; [done |]. cbn [JS.toLowerCase]. rewrite IH. f_equal.
  unfold JS.lower_char.
  destruct c as [[] [] [] [] [] [] [] []]; reflexivity.
Qed.

Lemma first_split_app (p rest : string) (c : ascii) :
  JS.occurs c p = false →
  JS.first (JS.split (p +:+ String c rest) c) = Some p.
Proof.
  intros Hp. unfold JS.first. by rewrite split_app, (split_absent _ _ Hp).
Qed.

Lemma first_split_absent (p : string) (c : ascii) :
  JS.occurs c p = false → JS.first (JS.split p c) = Some p.
Proof. intros Hp. unfold JS.first. by rewrite (split_absent _ _ Hp). Qed.

(** X2.  The browser language is matched on its primary subtag and
    without regard to case: when [navigator.language] is [primary] or
    [primary-anything], with no preference stored, the preferred locale
    is the lower-cased [primary] when that is a supported code, and [en]
    otherwise. *)
Theorem X2_browser_language_primary_subtag
    (w : Browser) (items : gmap string string) (primary rest : string) :
  localStorage w = Some items →
  items !! STORAGE_KEY = None →
  JS.occurs "-" primary = false →
  language w = primary ∨ language w = primary +:+ "-" +:+ rest →
  browserLang w = JS.toLowerCase primary
  ∧ (JS.toLowerCase primary ∈ SUPPORTED_LANGS →
       getPreferredLang w = Normal (JS.toLowerCase primary) w)
  ∧ (JS.toLowerCase primary ∉ SUPPORTED_LANGS →
       getPreferredLang w = Normal "en" w).
Proof.
  intros Hst Hk Hp Hlang.
  assert (browserLang w = JS.toLowerCase primary) as Hb.
  { unfold browserLang. destruct Hlang as [-> | ->].
    - by rewrite (first_split_absent _ _ Hp).
    - cbn [String.append]. by rewrite (first_split_app _ _ _ Hp). }
  split; [exact Hb |].
  rewrite (getPreferredLang_run w items Hst), Hk, Hb.
  split; intros H.
  - by rewrite bool_decide_eq_true_2.
  - by rewrite bool_decide_eq_false_2.
Qed.

Lemma X2_browser_language_primary_subtag_witness :
  getPreferredLang (page_at "/" "https:" (Some ∅) "AR-eg")
  = Normal "ar" (page_at "/" "https:" (Some ∅) "AR-eg").
Proof.
  destruct (X2_browser_language_primary_subtag
              (page_at "/" "https:" (Some ∅) "AR-eg") ∅ "AR" "eg")
    as (_ & Hsup & _).
  - reflexivity.
  - reflexivity.
  - reflexivity.
  - right. reflexivity.
  - apply Hsup. apply supported_cases. right. reflexivity.
Defined.

(** X3.  A load whose address carries the locale [L], with the store
    accessible, makes [L] the stored preference (so that
    [getPreferredLang] then answers [L]), sets [<html lang>] to [L] and
    [<html dir>] to [rtl] for [ar] and [ltr] otherwise, leaves every
    other key of the store alone, and navigates nowhere. *)
Theorem X3_routed_load_effects
    (w : Browser) (items : gmap string string) (L : string) :
  localStorage w = Some items →
  getCurrentLang w = Some L →
  ∃ w',
    detectAndRedirect w = Normal tt w'
    ∧ localStorage w' = Some (<[STORAGE_KEY := L]> items)
    ∧ getPreferredLang w' = Normal L w'
    ∧ html_lang w' = Some L
    ∧ (L = "ar" → html_dir w' = Some "rtl")
    ∧ (L ≠ "ar" → html_dir w' = Some "ltr")
    ∧ navigations w' = navigations w
    ∧ pathname w' = pathname w
    ∧ console w' = console w.
Proof.
  intros Hst Hcur.
  rewrite (detectAndRedirect_routed w items L Hst Hcur).
  eexists. split; [reflexivity |]. cbn.
  split; [done |].
  split.
  { apply (getPreferredLang_stored_supported _ (<[STORAGE_KEY := L]> items) L);
      [done | apply lookup_insert_eq | by apply (getCurrentLang_supported w)]. }
  split; [done |].
  split; [by intros ->|].
  split; [by intros Hne; rewrite bool_decide_eq_false_2 | done].
Qed.

Lemma X3_routed_load_effects_witness :
  ∃ w',
    detectAndRedirect (page_at "/ar/index.html" "https:" (Some ∅) "en-US")
    = Normal tt w'
    ∧ html_lang w' = Some "ar" ∧ html_dir w' = Some "rtl"
    ∧ getPreferredLang w' = Normal "ar" w'.
Proof.
  destruct (X3_routed_load_effects
              (page_at "/ar/index.html" "https:" (Some ∅) "en-US") ∅ "ar")
    as (w' & Hd & _ & Hp & Hl & Hrtl & _).
  - reflexivity.
  - reflexivity.
  - exists w'. split; [exact Hd |]. split; [exact Hl |].
    split; [by apply Hrtl | exact Hp].
Defined.

(** * Switching, then loading *)

Lemma root_load_redirects (w : Browser) (items : gmap string string) (target : string) :
  localStorage w = Some items →
  items !! STORAGE_KEY = Some target →
  target ∈ SUPPORTED_LANGS →
  pathname w = "/" ∨ pathname w = "" →
  detectAndRedirect w
  = Normal tt (set_navigations (navigations w ++ ["./" +:+ target +:+ "/"]) w).
Proof.
  intros Hst Hk Hsup Hroot.
  pose proof (getPreferredLang_stored_supported w items target Hst Hk Hsup) as Hpref.
  unfold detectAndRedirect. rewrite (root_has_no_locale w Hroot). cbn zeta.
  replace (bool_decide (pathname w = "/") || bool_decide (pathname w = ""))
    with true
    by (symmetry; apply orb_true_iff;
        destruct Hroot; [left | right]; by apply bool_decide_eq_true).
  unfold mbind, M_bind. by rewrite Hpref.
Qed.

(** X4.  A switch that navigates has first stored its target: after
    [switchTo(target)] to a supported locale other than the current one,
    [getPreferredLang] answers [target], and a later load of the site
    root with that store redirects to [./target/], whatever the browser
    language. *)
Theorem X4_switch_sets_root_redirect
    (w : Browser) (items : gmap string string) (target : string) :
  localStorage w = Some items →
  target ∈ SUPPORTED_LANGS →
  getCurrentLang w ≠ Some target →
  ∃ w',
    switchTo target w = Normal tt w'
    ∧ localStorage w' = Some (<[STORAGE_KEY := target]> items)
    ∧ getPreferredLang w' = Normal target w'
    ∧ length (navigations w') = S (length (navigations w))
    ∧ ∀ w2, localStorage w2 = localStorage w' →
        pathname w2 = "/" ∨ pathname w2 = "" →
        detectAndRedirect w2
        = Normal tt (set_navigations (navigations w2 ++ ["./" +:+ target +:+ "/"]) w2).
Proof.
  intros Hst Hsup Hne.
  rewrite (switchTo_navigates w items target Hst Hsup Hne).
  eexists. split; [reflexivity |]. cbn.
  split; [done |].
  split.
  { apply (getPreferredLang_stored_supported _ (<[STORAGE_KEY := target]> items));
      [done | apply lookup_insert_eq | done]. }
  split; [rewrite length_app; cbn; lia |].
  intros w2 Hst2 Hroot.
  apply (root_load_redirects w2 (<[STORAGE_KEY := target]> items));
    [done | apply lookup_insert_eq | done | done].
Qed.

Lemma X4_switch_sets_root_redirect_witness :
  ∃ w',
    switchTo "ar" (page_at "/projects/detail.html" "https:" (Some ∅) "en-US")
    = Normal tt w'
    ∧ navigations
        (page_of (detectAndRedirect (page_at "/" "https:" (localStorage w') "en-US")))
      = ["./ar/"].
Proof.
  destruct (X4_switch_sets_root_redirect
              (page_at "/projects/detail.html" "https:" (Some ∅) "en-US") ∅ "ar")
    as (w' & Hsw & _ & _ & _ & Hroot).
  - reflexivity.
  - apply supported_cases. by right.
  - vm_compute. discriminate.
  - exists w'. split; [exact Hsw |].
    rewrite (Hroot (page_at "/" "https:" (localStorage w') "en-US") eq_refl
               (or_introl eq_refl)).
    reflexivity.
Defined.

(** X5.  From the root of the Arabic site, a switch to English
    navigates to the site root [/]; and the load of [/] that follows,
    finding no locale in its address and [en] in the store, redirects on
    to [./en/].  English, which [switchTo] treats as served unprefixed,
    is thus reached under [/en/] on this route. *)
Theorem X5_switch_to_english_from_arabic_root (w : Browser) (items : gmap string string) :
  localStorage w = Some items →
  protocol w ≠ "file:" →
  pathname w = "/ar/" ∨ pathname w = "/ar" →
  ∃ w',
    switchTo "en" w = Normal tt w'
    ∧ navigations w' = navigations w ++ ["/"]
    ∧ ∀ w2, localStorage w2 = localStorage w' → pathname w2 = "/" →
        navigations (page_of (detectAndRedirect w2)) = navigations w2 ++ ["./en/"]
        ∧ resolve_dot_slash (pathname w2) "./en/" = "/en/".
Proof.
  intros Hst Hproto Hpath.
  assert (getCurrentLang w = Some "ar") as Hcur
    by (unfold getCurrentLang; by destruct Hpath as [-> | ->]).
  assert (Hen : "en" ∈ SUPPORTED_LANGS) by (apply supported_cases; by left).
  rewrite (switchTo_navigates w items "en" Hst Hen) by (by rewrite Hcur).
  eexists. split; [reflexivity |]. cbn. split.
  - rewrite bool_decide_eq_false_2 by done. rewrite Hcur.
    by destruct Hpath as [-> | ->].
  - intros w2 Hst2 Hp2.
    rewrite (root_load_redirects w2 (<[STORAGE_KEY := "en"]> items) "en" Hst2
               (lookup_insert_eq _ _ _) Hen (or_introl Hp2)).
    cbn. by rewrite Hp2.
Qed.

Lemma X5_switch_to_english_from_arabic_root_witness :
  navigations (page_of (switchTo "en" (page_at "/ar/" "https:" (Some ∅) "en-US")))
  = ["/"].
Proof.
  destruct (X5_switch_to_english_from_arabic_root
              (page_at "/ar/" "https:" (Some ∅) "en-US") ∅)
    as (w' & Hsw & Hnav & _).
  - reflexivity.
  - discriminate.
  - left. reflexivity.
  - rewrite Hsw. exact Hnav.
Defined.

(** X6.  With the preference store inaccessible, a switch to a
    supported locale other than the current one raises before it
    navigates: the page is left exactly as it was, so the visitor stays
    on the current locale. *)
Theorem X6_switch_blocked_without_store (w : Browser) (target : string) :
  localStorage w = None →
  target ∈ SUPPORTED_LANGS →
  getCurrentLang w ≠ Some target →
  switchTo target w = Throw "SecurityError" w
  ∧ navigations (page_of (switchTo target w)) = navigations w.
Proof.
  intros Hst Hsup Hne.
  assert (switchTo target w = Throw "SecurityError" w) as ->; [| done].
  unfold switchTo. apply array_includes_supported in Hsup. rewrite Hsup.
  cbn [negb]. rewrite bool_decide_eq_false_2 by done.
  unfold mbind, M_bind, savePreference, setItem. by rewrite Hst.
Qed.

Lemma X6_switch_blocked_without_store_witness :
  switchTo "en" (page_at "/ar/" "https:" None "en-US")
  = Throw "SecurityError" (page_at "/ar/" "https:" None "en-US").
Proof.
  apply (X6_switch_blocked_without_store (page_at "/ar/" "https:" None "en-US") "en").
  - reflexivity.
  - apply supported_cases. by left.
  - vm_compute. discriminate.
Defined.
(** * The click listeners *)

Lemma init_routed (w : Browser) (items : gmap string string) (L : string) :
  localStorage w = Some items →
  getCurrentLang w = Some L →
  ∃ w',
    init w = Normal tt w'
    ∧ pathname w' = pathname w
    ∧ protocol w' = protocol w
    ∧ navigations w' = navigations w
    ∧ localStorage w' = Some (<[STORAGE_KEY := L]> items)
    ∧ buttons w'
      = (λ b, match switch_lang b with
              | Some _ => addEventListener SwitchLangClick b
              | None => b
              end)
          <$> (addEventListener ButtonClick <$> (update_button L <$> buttons w))
    ∧ links w'
      = (λ l, mkLink (data_switch_lang l) (S (link_listeners l))) <$> links w.
Proof.
  intros Hst Hcur. unfold init, bindEvents, mbind, M_bind.
  rewrite (detectAndRedirect_routed w items L Hst Hcur).
  eexists. split; [reflexivity |]. cbn. done.
Qed.

Lemma switchTo_same (w : Browser) (L : string) :
  getCurrentLang w = Some L → switchTo L w = Normal tt w.
Proof.
  intros Hcur. pose proof (getCurrentLang_supported w L Hcur) as Hsup.
  unfold switchTo. apply array_includes_supported in Hsup. rewrite Hsup.
  cbn [negb]. by rewrite bool_decide_eq_true_2.
Qed.

(** With the store accessible, [switchTo] raises on no argument. *)
Lemma switchTo_returns (w : Browser) (items : gmap string string) (lang : string) :
  localStorage w = Some items → ∃ w', switchTo lang w = Normal tt w'.
Proof.
  intros Hst. unfold switchTo.
  destruct (JS.array_includes SUPPORTED_LANGS lang); cbn [negb].
  - case_bool_decide; [by eexists |].
    unfold mbind, M_bind, savePreference, setItem. rewrite Hst.
    unfold assign_href, modify. cbn.
    destruct (bool_decide (protocol w = "file:")); by eexists.
  - by eexists.
Qed.

Lemma update_button_switch_lang (L : string) (b : Button) :
  switch_lang (update_button L b) = switch_lang b.
Proof. unfold update_button. by case_bool_decide. Qed.

Lemma update_button_listeners (L : string) (b : Button) :
  click_listeners (update_button L b) = click_listeners b.
Proof. unfold update_button. by case_bool_decide. Qed.

(** X7.  After [init] on a page whose address carries the locale [L]
    (store accessible), every switch control keeps its [data-lang] and
    [data-switch-lang] and has gained the button handler and, after it,
    the [data-switch-lang] handler exactly when it carries that
    attribute: one listener more for a plain control, two for a control
    that both queries select; every other [[data-switch-lang]] element
    has gained one.  The button handler does nothing at all on a
    control that is highlighted or has no [data-lang]; on a control
    bound to another supported locale it stores that locale and
    navigates exactly once.  A click on a control that holds only the
    button handler is that handler's run.  A click on a control that
    holds both handlers and names the same other supported locale in
    both attributes runs both: the locale is stored, [href] is assigned
    twice, to the same address, nothing is raised, and the default
    action is cancelled. *)
Theorem X7_click_after_init
    (w : Browser) (items : gmap string string) (L : string) :
  localStorage w = Some items →
  getCurrentLang w = Some L →
  ∃ w',
    init w = Normal tt w'
    ∧ Forall2 (λ b b',
         data_lang b' = data_lang b
         ∧ switch_lang b' = switch_lang b
         ∧ click_listeners b'
           = click_listeners b
             ++ ButtonClick :: match switch_lang b with
                               | Some _ => [SwitchLangClick]
                               | None => []
                               end)
        (buttons w) (buttons w')
    ∧ link_listeners <$> links w' = S <$> (link_listeners <$> links w)
    ∧ ∀ b, b ∈ buttons w' →
        (is_active b = true → on_button_click b w' = Normal tt w')
        ∧ (data_lang b = None → on_button_click b w' = Normal tt w')
        ∧ (∀ T, data_lang b = Some T → T ∈ SUPPORTED_LANGS → T ≠ L →
             ∃ w'', on_button_click b w' = Normal tt w''
                    ∧ localStorage w'' = Some (<[STORAGE_KEY := T]> (<[STORAGE_KEY := L]> items))
                    ∧ length (navigations w'') = S (length (navigations w)))
        ∧ (click_listeners b = [ButtonClick] →
             click b w' = ([], page_of (on_button_click b w'))
             ∧ click_default_prevented b = false)
        ∧ (∀ T, click_listeners b = [ButtonClick; SwitchLangClick] →
             data_lang b = Some T → switch_lang b = Some T →
             T ∈ SUPPORTED_LANGS → T ≠ L →
             ∃ dest w'',
               click b w' = ([], w'')
               ∧ navigations w'' = navigations w ++ [dest; dest]
               ∧ (protocol w ≠ "file:" → dest = server_target (Some L) T (pathname w))
               ∧ (protocol w = "file:" → dest = file_target (Some L) T (pathname w))
               ∧ localStorage w'' = Some (<[STORAGE_KEY := T]> (<[STORAGE_KEY := L]> items))
               ∧ click_default_prevented b = true).
Proof.
  intros Hst Hcur.
  destruct (init_routed w items L Hst Hcur)
    as (w' & Hinit & Hpath & Hproto & Hnav & Hst' & Hbtn & Hlnk).
  exists w'. split; [exact Hinit |].
  split.
  { rewrite Hbtn, <- !list_fmap_compose. apply Forall2_fmap_r, Forall_Forall2_diag.
    apply Forall_forall. intros b _. cbn.
    rewrite !update_button_switch_lang.
    destruct (switch_lang b) as [s|] eqn:Es; cbn;
      rewrite update_button_data_lang, update_button_switch_lang,
        update_button_listeners, Es; [| done].
    by rewrite <- app_assoc. }
  split.
  { rewrite Hlnk, <- !list_fmap_compose. by apply list_fmap_ext. }
  assert (getCurrentLang w' = Some L) as Hcur'
    by (unfold getCurrentLang; by rewrite Hpath).
  intros b Hb.
  assert (∀ T, data_lang b = Some T → T ∈ SUPPORTED_LANGS → T ≠ L →
            on_button_click b w'
            = Normal tt
                (set_navigations
                   (navigations w ++
                      [if bool_decide (protocol w = "file:")
                       then file_target (Some L) T (pathname w)
                       else server_target (Some L) T (pathname w)])
                   (set_localStorage (Some (<[STORAGE_KEY := T]> (<[STORAGE_KEY := L]> items)))
                      w'))) as Hgo.
  { intros T HT Hsup Hne. unfold on_button_click. rewrite HT.
    assert (JS.truthy (Some T) = true) as ->.
    { apply supported_cases in Hsup as [-> | ->]; done. }
    cbn [JS.to_string].
    rewrite (switchTo_navigates w' _ T Hst' Hsup) by (rewrite Hcur'; congruence).
    by rewrite Hcur', Hpath, Hproto, Hnav. }
  split.
  { intros Hact. rewrite Hbtn in Hb.
    apply list_elem_of_fmap in Hb as (b2 & -> & Hb2).
    apply list_elem_of_fmap in Hb2 as (b1 & -> & Hb1).
    apply list_elem_of_fmap in Hb1 as (b0 & -> & _).
    assert (data_lang b0 = Some L) as Hbound.
    { destruct (decide (data_lang b0 = Some L)) as [|Hno]; [done |].
      destruct (update_button_other L b0 Hno) as [Hoff _].
      unfold is_active in *.
      destruct (switch_lang (addEventListener ButtonClick (update_button L b0)));
        cbn in Hact; congruence. }
    unfold on_button_click.
    assert (data_lang
              match switch_lang (addEventListener ButtonClick (update_button L b0)) with
              | Some _ => addEventListener SwitchLangClick
                            (addEventListener ButtonClick (update_button L b0))
              | None => addEventListener ButtonClick (update_button L b0)
              end = Some L) as ->.
    { destruct (switch_lang (addEventListener ButtonClick (update_button L b0)));
        cbn; by rewrite update_button_data_lang. }
    assert (JS.truthy (Some L) = true) as ->.
    { apply (getCurrentLang_supported w), supported_cases in Hcur as [-> | ->]; done. }
    cbn [JS.to_string]. by apply switchTo_same. }
  split.
  { intros Hnone. unfold on_button_click. by rewrite Hnone. }
  split.
  { intros T HT Hsup Hne. rewrite (Hgo T HT Hsup Hne).
    eexists. split; [reflexivity |]. cbn. split; [done |].
    rewrite length_app. cbn. lia. }
  split.
  { intros Hls. unfold click, click_default_prevented. rewrite Hls.
    cbn [dispatch run_listener existsb prevents_default orb]. split; [| done].
    assert (∃ w'', on_button_click b w' = Normal tt w'') as [w'' ->]; [| done].
    unfold on_button_click. destruct (JS.truthy (data_lang b)).
    - by apply (switchTo_returns w' _ _ Hst').
    - by eexists. }
  intros T Hls HT HS Hsup Hne.
  pose proof (Hgo T HT Hsup Hne) as Hfirst.
  match type of Hfirst with _ = Normal tt ?x => set (w1 := x) in Hfirst end.
  assert (localStorage w1 = Some (<[STORAGE_KEY := T]> (<[STORAGE_KEY := L]> items)))
    as Hst1 by reflexivity.
  assert (getCurrentLang w1 = Some L) as Hcur1 by exact Hcur'.
  eexists _, _. unfold click, click_default_prevented. rewrite Hls.
  cbn [dispatch run_listener existsb prevents_default orb].
  rewrite Hfirst, HS. unfold on_switch_lang_click.
  assert (JS.truthy (Some T) = true) as ->.
  { apply supported_cases in Hsup as [-> | ->]; done. }
  cbn [JS.to_string].
  rewrite (switchTo_navigates w1 _ T Hst1 Hsup) by (rewrite Hcur1; congruence).
  rewrite Hcur1. split; [reflexivity |]. subst w1. cbn.
  rewrite Hpath, Hproto, insert_insert_eq, <- app_assoc. cbn.
  split; [reflexivity |].
  split; [by intros Hp; rewrite bool_decide_eq_false_2 |].
  split; [by intros Hp; rewrite bool_decide_eq_true_2 |].
  done.
Qed.

Lemma X7_click_after_init_witness :
  ∃ w' dest w'',
    init overlapping_page = Normal tt w'
    ∧ Forall2 (λ b b',
         data_lang b' = data_lang b
         ∧ switch_lang b' = switch_lang b
         ∧ click_listeners b'
           = click_listeners b
             ++ ButtonClick :: match switch_lang b with
                               | Some _ => [SwitchLangClick]
                               | None => []
                               end)
        (buttons overlapping_page) (buttons w')
    ∧ link_listeners <$> links w' = [1%nat]
    ∧ click (mkButton (Some "en") ["lang-switch__btn"] None (Some "en")
                      [ButtonClick; SwitchLangClick]) w'
      = ([], w'')
    ∧ navigations w'' = [dest; dest]
    ∧ dest = "/about.html".
Proof.
  destruct (X7_click_after_init overlapping_page ∅ "ar")
    as (w' & Hinit & Hl & Hk & Hb).
  - reflexivity.
  - reflexivity.
  - assert (w' = page_of (init overlapping_page)) as Hw by (by rewrite Hinit).
    destruct (Hb (mkButton (Some "en") ["lang-switch__btn"] None (Some "en")
                           [ButtonClick; SwitchLangClick]))
      as (_ & _ & _ & _ & Hboth).
    { rewrite Hw. vm_compute. left. }
    destruct (Hboth "en" eq_refl eq_refl eq_refl) as (dest & w'' & Hc & Hn & Hd & _).
    { apply supported_cases. by left. }
    { discriminate. }
    exists w', dest, w''.
    split; [exact Hinit |]. split; [exact Hl |]. split; [exact Hk |].
    split; [exact Hc |]. split; [exact Hn |].
    rewrite Hd by discriminate. by vm_compute.
Defined.

(** * Translation lookup *)

Import Translations.

(** X8.  [t(key, fallback)] answers the fallback when the page has no
    translation table, when the table's own text for [key] is empty, and
    when the table has no text for [key] and [key] is not the name of a
    member inherited from [Object.prototype]; it answers the table's
    text when that is not empty.  For a key such as [toString] that the
    table does not define, the answer is neither: it is the inherited
    member.  The answer is never an empty text unless the fallback is
    empty. *)
Theorem X8_translation_lookup
    (translations : option (gmap string string)) (key fallback : string) :
  (translations = None → t translations key fallback = Text fallback)
  ∧ (∀ table s, translations = Some table → table !! key = Some s → s ≠ "" →
       t translations key fallback = Text s)
  ∧ (∀ table, translations = Some table → table !! key = Some "" →
       t translations key fallback = Text fallback)
  ∧ (∀ table, translations = Some table → table !! key = None →
       key ∉ object_prototype_names →
       t translations key fallback = Text fallback)
  ∧ (∀ table, translations = Some table → table !! key = None →
       key ∈ object_prototype_names →
       t translations key fallback = Inherited key)
  ∧ (fallback ≠ "" → t translations key fallback ≠ Text "").
Proof.
  split; [by intros -> |].
  split.
  { intros table s -> Hk Hs. unfold t, get_property. rewrite Hk. cbn.
    by rewrite bool_decide_eq_false_2. }
  split.
  { intros table -> Hk. unfold t, get_property. by rewrite Hk. }
  split.
  { intros table -> Hk Hno. unfold t, get_property. rewrite Hk.
    by rewrite bool_decide_eq_false_2. }
  split.
  { intros table -> Hk Hin. unfold t, get_property. rewrite Hk.
    by rewrite bool_decide_eq_true_2. }
  intros Hf. unfold t. destruct translations as [table|]; [| congruence].
  unfold get_property. destruct (table !! key) as [s|]; cbn.
  - case_bool_decide; cbn; congruence.
  - case_bool_decide; cbn; congruence.
Qed.

Lemma X8_translation_lookup_witness :
  t (Some {[ "nav.home" := "Accueil" ]}) "nav.home" "Home" = Text "Accueil"
  ∧ t (Some {[ "nav.home" := "Accueil" ]}) "nav.about" "About" = Text "About"
  ∧ t (Some {[ "nav.home" := "Accueil" ]}) "toString" "x" = Inherited "toString"
  ∧ t None "nav.home" "Home" = Text "Home".
Proof.
  destruct (X8_translation_lookup (Some {[ "nav.home" := "Accueil" ]}) "nav.home" "Home")
    as (_ & Hown & _).
  destruct (X8_translation_lookup (Some {[ "nav.home" := "Accueil" ]}) "nav.about" "About")
    as (_ & _ & _ & Hmiss & _).
  destruct (X8_translation_lookup (Some {[ "nav.home" := "Accueil" ]}) "toString" "x")
    as (_ & _ & _ & _ & Hinh & _).
  destruct (X8_translation_lookup None "nav.home" "Home") as (Hnone & _).
  split; [| split; [| split]].
  - apply (Hown _ _ eq_refl); [reflexivity | discriminate].
  - apply (Hmiss _ eq_refl); [reflexivity |].
    unfold object_prototype_names. rewrite !elem_of_cons, elem_of_nil.
    intros H. repeat (destruct H as [H|H]; [discriminate H |]). exact H.
  - apply (Hinh _ eq_refl); [reflexivity |].
    unfold object_prototype_names. rewrite !elem_of_cons. tauto.
  - by apply Hnone.
Defined.

(** * Formatting *)

Lemma Formatter_locale_cases (w : Browser) :
  (getCurrentLang w = Some "ar" ∧ Formatter_locale w = "ar-EG")
  ∨ (getCurrentLang w ≠ Some "ar" ∧ Formatter_locale w = "en-US").
Proof.
  unfold Formatter_locale, getCurrentLang.
  destruct (getCurrentLang_at_cases (pathname w)) as [E | [E | E]]; rewrite E.
  - by left.
  - by right.
  - by right.
Qed.

(** X9.  The three formatters use one region, fixed by the address
    alone: [ar-EG] exactly when the address resolves to [ar], and
    [en-US] otherwise, also on a page without a locale.  After a load
    whose address carries a locale (store accessible) the region agrees
    with the document: it is [ar-EG] exactly when [<html dir>] is
    [rtl]. *)
Theorem X9_formatter_region
    (Number DateInput : Type)
    (Intl_NumberFormat : string → gmap string string → Number → string)
    (Intl_DateTimeFormat : string → gmap string string → DateInput → string)
    (w : Browser) :
  (Formatter_locale w = "ar-EG" ↔ getCurrentLang w = Some "ar")
  ∧ (Formatter_locale w = "en-US" ↔ getCurrentLang w ≠ Some "ar")
  ∧ (∀ num options,
       Formatter_number Number Intl_NumberFormat num options w
       = Intl_NumberFormat (Formatter_locale w) options num)
  ∧ (∀ num currency, ∃ options,
       Formatter_currency Number Intl_NumberFormat num currency w
       = Intl_NumberFormat (Formatter_locale w) options num
       ∧ options !! "style" = Some "currency"
       ∧ options !! "currency" = Some currency
       ∧ dom options = {[ "style"; "currency" ]})
  ∧ (∀ d options, ∃ merged,
       Formatter_date DateInput Intl_DateTimeFormat d options w
       = Intl_DateTimeFormat (Formatter_locale w) merged d)
  ∧ (∀ items L w',
       localStorage w = Some items → getCurrentLang w = Some L →
       detectAndRedirect w = Normal tt w' →
       Formatter_locale w' = Formatter_locale w
       ∧ (html_dir w' = Some "rtl" ↔ Formatter_locale w' = "ar-EG")).
Proof.
  split.
  { destruct (Formatter_locale_cases w) as [[Hc ->] | [Hc ->]]; split; done. }
  split.
  { destruct (Formatter_locale_cases w) as [[Hc ->] | [Hc ->]]; split; done. }
  split; [done |].
  split.
  { intros num currency. eexists. split; [reflexivity |].
    split; [by rewrite lookup_insert_eq |].
    split; [by rewrite lookup_insert_ne, lookup_insert_eq |].
    rewrite !dom_insert_L. set_solver. }
  split.
  { intros d options. eexists. reflexivity. }
  intros items L w' Hst Hcur Hd.
  rewrite (detectAndRedirect_routed w items L Hst Hcur) in Hd.
  injection Hd as <-.
  assert (Hsame : ∀ v, Formatter_locale
                         (set_buttons v
                            (set_html (Some L)
                               (Some (if bool_decide (L = "ar") then "rtl" else "ltr"))
                               (set_localStorage (Some (<[STORAGE_KEY := L]> items)) w)))
                       = Formatter_locale w) by done.
  rewrite Hsame. split; [done |]. cbn.
  destruct (Formatter_locale_cases w) as [[Hc ->] | [Hc ->]].
  - rewrite Hcur in Hc. injection Hc as ->. done.
  - case_bool_decide as E; [subst L; congruence |]. split; discriminate.
Qed.

Lemma X9_formatter_region_witness :
  Formatter_locale (page_at "/ar/index.html" "https:" (Some ∅) "en-US") = "ar-EG"
  ∧ Formatter_locale (page_at "/about.html" "https:" (Some ∅) "ar-EG") = "en-US".
Proof.
  split.
  - apply (X9_formatter_region unit unit (λ _ _ _, "") (λ _ _ _, "")
             (page_at "/ar/index.html" "https:" (Some ∅) "en-US")).
    reflexivity.
  - destruct (X9_formatter_region unit unit (λ _ _ _, "") (λ _ _ _, "")
                (page_at "/about.html" "https:" (Some ∅) "ar-EG")) as (_ & Hen & _).
    apply Hen. discriminate.
Defined.

(** X10.  [Formatter.date] hands to the browser the caller's options
    completed by the defaults: every option the caller sets is passed
    as set, and [year], [month] and [day], when the caller leaves them
    unset, are passed as [numeric], [long] and [numeric]; nothing else
    is added. *)
Theorem X10_date_options
    (DateInput : Type)
    (Intl_DateTimeFormat : string → gmap string string → DateInput → string)
    (d : DateInput) (options : gmap string string) (w : Browser) :
  ∃ merged,
    Formatter_date DateInput Intl_DateTimeFormat d options w
    = Intl_DateTimeFormat (Formatter_locale w) merged d
    ∧ (∀ k v, options !! k = Some v → merged !! k = Some v)
    ∧ (options !! "year" = None → merged !! "year" = Some "numeric")
    ∧ (options !! "month" = None → merged !! "month" = Some "long")
    ∧ (options !! "day" = None → merged !! "day" = Some "numeric")
    ∧ dom merged = dom options ∪ {[ "year"; "month"; "day" ]}.
Proof.
  exists (options ∪ <["year" := "numeric"]>
                      (<["month" := "long"]> (<["day" := "numeric"]> ∅))).
  split; [reflexivity |].
  split.
  { intros k v Hk. by apply lookup_union_Some_l. }
  split.
  { intros Hk. rewrite lookup_union_r by done. reflexivity. }
  split.
  { intros Hk. rewrite lookup_union_r by done. reflexivity. }
  split.
  { intros Hk. rewrite lookup_union_r by done. reflexivity. }
  rewrite dom_union_L, !dom_insert_L. set_solver.
Qed.

Lemma X10_date_options_witness :
  ∃ merged : gmap string string,
    Formatter_date unit (λ _ m _, default "" (m !! "month")) tt {[ "month" := "short" ]}
      (page_at "/ar/" "https:" (Some ∅) "en-US")
    = default "" (merged !! "month")
    ∧ merged !! "month" = Some "short"
    ∧ merged !! "year" = Some "numeric".
Proof.
  destruct (X10_date_options unit (λ _ m _, default "" (m !! "month")) tt
              {[ "month" := "short" ]}
              (page_at "/ar/" "https:" (Some ∅) "en-US"))
    as (merged & Hrun & Hown & Hyear & _).
  exists merged. split; [exact Hrun |]. split.
  - apply Hown. reflexivity.
  - apply Hyear. reflexivity.
Defined.

(** * Theme management *)

Lemma applyTheme_run (p : ThemePage) (items : gmap string string) (theme : string) :
  localStorage (theme_win p) = Some items →
  ThemeManager.applyTheme theme p
  = Done tt
      (mkThemePage
         (set_localStorage (Some (<[ThemeManager.STORAGE_KEY := theme]> items)) (theme_win p))
         (Some theme)
         (match meta_theme_color p with
          | Some _ => Some (Some (if bool_decide (theme = "dark")
                                  then "#0d1f2d" else "#ffffff"))
          | None => None
          end)
         (prefers_dark p) (theme_toggle_listeners p) (media_listeners p)).
Proof.
  intros Hst. destruct p as [w dt mt pd tl ml]. cbn in Hst.
  unfold ThemeManager.applyTheme, mbind, Run_bind, update, on_window, setItem.
  cbn. rewrite Hst. cbn. by destruct mt.
Qed.

Lemma getPreferredTheme_run (p : ThemePage) (items : gmap string string) :
  localStorage (theme_win p) = Some items →
  ThemeManager.getPreferredTheme p
  = Done (match items !! ThemeManager.STORAGE_KEY with
          | Some s => if bool_decide (s = "") then
                        (if prefers_dark p then "dark" else "light")
                      else s
          | None => if prefers_dark p then "dark" else "light"
          end) p.
Proof.
  intros Hst. unfold ThemeManager.getPreferredTheme, mbind, Run_bind, on_window, getItem.
  rewrite Hst. destruct p as [w dt mt pd tl ml]. cbn in *.
  destruct (items !! ThemeManager.STORAGE_KEY) as [s|]; cbn; [| done].
  by case_bool_decide.
Qed.

Lemma getPreferredLang_frame (w : Browser) (items : gmap string string) (k v : string) :
  localStorage w = Some items →
  k ≠ STORAGE_KEY →
  ∀ l, getPreferredLang w = Normal l w →
       getPreferredLang (set_localStorage (Some (<[k := v]> items)) w)
       = Normal l (set_localStorage (Some (<[k := v]> items)) w).
Proof.
  intros Hst Hk l Hl.
  rewrite (getPreferredLang_run w items Hst) in Hl. injection Hl as <-.
  rewrite (getPreferredLang_run (set_localStorage (Some (<[k := v]> items)) w)
             (<[k := v]> items) eq_refl).
  by rewrite lookup_insert_ne.
Qed.

(** X11.  Applying a non-empty theme (store accessible) sets
    [data-theme] to it and stores it, so that [getPreferredTheme] then
    answers that theme whatever the system preference; the
    [theme-color] meta element, when the page has one, gets [#0d1f2d]
    for [dark] and [#ffffff] for every other theme; and the stored
    language preference is not disturbed. *)
Theorem X11_applyTheme_round_trip
    (p : ThemePage) (items : gmap string string) (theme : string) :
  localStorage (theme_win p) = Some items →
  theme ≠ "" →
  ∃ p',
    ThemeManager.applyTheme theme p = Done tt p'
    ∧ data_theme p' = Some theme
    ∧ ThemeManager.getPreferredTheme p' = Done theme p'
    ∧ (∀ c, meta_theme_color p = Some c →
         meta_theme_color p'
         = Some (Some (if bool_decide (theme = "dark") then "#0d1f2d" else "#ffffff")))
    ∧ (meta_theme_color p = None → meta_theme_color p' = None)
    ∧ (∀ l, getPreferredLang (theme_win p) = Normal l (theme_win p) →
         getPreferredLang (theme_win p') = Normal l (theme_win p')).
Proof.
  intros Hst Hne. rewrite (applyTheme_run p items theme Hst).
  eexists. split; [reflexivity |]. cbn.
  split; [done |].
  split.
  { match goal with
    | |- ThemeManager.getPreferredTheme ?q = _ =>
        rewrite (getPreferredTheme_run q (<[ThemeManager.STORAGE_KEY := theme]> items)
                   eq_refl)
    end.
    rewrite lookup_insert_eq. by rewrite bool_decide_eq_false_2. }
  split; [by intros c -> |].
  split; [by intros -> |].
  intros l Hl. by apply getPreferredLang_frame.
Qed.

Lemma X11_applyTheme_round_trip_witness :
  ∃ p',
    ThemeManager.applyTheme "dark" (theme_page (Some ∅) None false) = Done tt p'
    ∧ ThemeManager.getPreferredTheme p' = Done "dark" p'
    ∧ meta_theme_color p' = Some (Some "#0d1f2d").
Proof.
  destruct (X11_applyTheme_round_trip (theme_page (Some ∅) None false) ∅ "dark")
    as (p' & Hrun & _ & Hget & Hmeta & _).
  - reflexivity.
  - discriminate.
  - exists p'. split; [exact Hrun |]. split; [exact Hget |].
    apply (Hmeta None). reflexivity.
Defined.

(** X12.  A toggle (store accessible) always ends on [dark] or
    [light]: on [light] when the document was [dark], on [dark] in every
    other case, also when [data-theme] was absent or held another
    value; the new theme is stored; and two toggles in a row bring a
    [dark] or [light] document back to the theme it had. *)
Theorem X12_toggle_alternates (p : ThemePage) (items : gmap string string) :
  localStorage (theme_win p) = Some items →
  ∃ p' p'',
    ThemeManager.toggle p = Done tt p'
    ∧ ThemeManager.toggle p' = Done tt p''
    ∧ (data_theme p = Some "dark" → data_theme p' = Some "light")
    ∧ (data_theme p ≠ Some "dark" → data_theme p' = Some "dark")
    ∧ (∃ items', localStorage (theme_win p') = Some items'
                 ∧ items' !! ThemeManager.STORAGE_KEY = data_theme p')
    ∧ (data_theme p = Some "dark" ∨ data_theme p = Some "light" →
         data_theme p'' = data_theme p)
    ∧ (data_theme p'' = Some "dark" ∨ data_theme p'' = Some "light").
Proof.
  intros Hst. unfold ThemeManager.toggle.
  rewrite (applyTheme_run p items _ Hst).
  eexists _, _. split; [reflexivity |]. cbn.
  split.
  { match goal with
    | |- ThemeManager.applyTheme ?t ?q = _ =>
        rewrite (applyTheme_run q (<[ThemeManager.STORAGE_KEY :=
                   if bool_decide (data_theme p = Some "dark") then "light" else "dark"]>
                   items) t eq_refl)
    end. reflexivity. }
  cbn.
  split; [by intros -> |].
  split; [by intros Hne; rewrite bool_decide_eq_false_2 |].
  split.
  { eexists. split; [reflexivity |]. by rewrite lookup_insert_eq. }
  split.
  { intros [-> | ->]; reflexivity. }
  destruct (bool_decide (data_theme p = Some "dark")); cbn; auto.
Qed.

Lemma X12_toggle_alternates_witness :
  ∃ p' p'',
    ThemeManager.toggle (theme_page (Some ∅) (Some "light") false) = Done tt p'
    ∧ ThemeManager.toggle p' = Done tt p''
    ∧ data_theme p' = Some "dark"
    ∧ data_theme p'' = Some "light".
Proof.
  destruct (X12_toggle_alternates (theme_page (Some ∅) (Some "light") false) ∅)
    as (p' & p'' & H1 & H2 & _ & Hd & _ & Hback & _).
  - reflexivity.
  - exists p', p''. split; [exact H1 |]. split; [exact H2 |]. split.
    + apply Hd. discriminate.
    + apply Hback. right. reflexivity.
Defined.

(** X13.  [ThemeManager.init] (store accessible) applies the stored
    theme when a non-empty one is stored, whatever it is, and otherwise
    the system preference; in both cases it stores what it applied.  So
    once [init] has run, the listener for changes of the system
    preference never changes anything. *)
Theorem X13_init_pins_theme (p : ThemePage) (items : gmap string string) :
  localStorage (theme_win p) = Some items →
  ∃ p' theme,
    ThemeManager.init p = Done tt p'
    ∧ data_theme p' = Some theme
    ∧ ThemeManager.getPreferredTheme p' = Done theme p'
    ∧ (∀ s, items !! ThemeManager.STORAGE_KEY = Some s → s ≠ "" → theme = s)
    ∧ (items !! ThemeManager.STORAGE_KEY = None
       ∨ items !! ThemeManager.STORAGE_KEY = Some "" →
       theme = if prefers_dark p then "dark" else "light")
    ∧ theme_toggle_listeners p' = S <$> theme_toggle_listeners p
    ∧ media_listeners p' = S (media_listeners p)
    ∧ ∀ matches, ThemeManager.on_system_change matches p' = Done tt p'.
Proof.
  intros Hst.
  set (theme := match items !! ThemeManager.STORAGE_KEY with
                | Some s => if bool_decide (s = "") then
                              (if prefers_dark p then "dark" else "light")
                            else s
                | None => if prefers_dark p then "dark" else "light"
                end).
  assert (Hne : theme ≠ "").
  { subst theme. destruct (items !! ThemeManager.STORAGE_KEY) as [s|].
    - case_bool_decide; [by destruct (prefers_dark p) | done].
    - by destruct (prefers_dark p). }
  assert (Hinit : ThemeManager.init p
                  = ThemeManager.bindEvents
                      (mkThemePage
                         (set_localStorage
                            (Some (<[ThemeManager.STORAGE_KEY := theme]> items)) (theme_win p))
                         (Some theme)
                         (match meta_theme_color p with
                          | Some _ => Some (Some (if bool_decide (theme = "dark")
                                                  then "#0d1f2d" else "#ffffff"))
                          | None => None
                          end)
                         (prefers_dark p) (theme_toggle_listeners p) (media_listeners p))).
  { unfold ThemeManager.init, mbind, Run_bind.
    rewrite (getPreferredTheme_run p items Hst). fold theme.
    by rewrite (applyTheme_run p items theme Hst). }
  rewrite Hinit. unfold ThemeManager.bindEvents, update. cbn.
  eexists _, theme. split; [reflexivity |]. cbn.
  split; [done |].
  split.
  { match goal with
    | |- ThemeManager.getPreferredTheme ?q = _ =>
        rewrite (getPreferredTheme_run q (<[ThemeManager.STORAGE_KEY := theme]> items)
                   eq_refl)
    end.
    rewrite lookup_insert_eq. by rewrite bool_decide_eq_false_2. }
  split.
  { intros s Hs Hsne. subst theme. rewrite Hs. by rewrite bool_decide_eq_false_2. }
  split.
  { intros [Hs | Hs]; subst theme; by rewrite Hs. }
  split; [done |]. split; [done |].
  intros matches. unfold ThemeManager.on_system_change, mbind, Run_bind, on_window, getItem.
  cbn. rewrite lookup_insert_eq. cbn. by rewrite bool_decide_eq_false_2.
Qed.

Lemma X13_init_pins_theme_witness :
  ∃ p',
    ThemeManager.init (theme_page (Some ∅) None true) = Done tt p'
    ∧ data_theme p' = Some "dark"
    ∧ ThemeManager.on_system_change false p' = Done tt p'.
Proof.
  destruct (X13_init_pins_theme (theme_page (Some ∅) None true) ∅)
    as (p' & theme & Hinit & Hd & _ & _ & Hsys & _ & _ & Hoff).
  - reflexivity.
  - exists p'. split; [exact Hinit |]. split.
    + rewrite Hd. f_equal. apply Hsys. left. reflexivity.
    + apply Hoff.
Defined.

(** X14.  With the store inaccessible nothing of the theme logic
    completes: [getPreferredTheme] and [init] raise with the page
    untouched, so no theme is applied and no listener is bound;
    [applyTheme] and [toggle] raise after having set [data-theme], with
    the meta element not updated. *)
Theorem X14_theme_without_store (p : ThemePage) (theme : string) :
  localStorage (theme_win p) = None →
  ThemeManager.getPreferredTheme p = Raised "SecurityError" p
  ∧ ThemeManager.init p = Raised "SecurityError" p
  ∧ ThemeManager.applyTheme theme p
    = Raised "SecurityError" (set_data_theme (Some theme) p)
  ∧ ThemeManager.toggle p
    = Raised "SecurityError"
        (set_data_theme
           (Some (if bool_decide (data_theme p = Some "dark") then "light" else "dark")) p)
  ∧ ∀ matches, ThemeManager.on_system_change matches p = Raised "SecurityError" p.
Proof.
  intros Hst. destruct p as [w dt mt pd tl ml]. cbn in Hst.
  assert (Hget : ThemeManager.getPreferredTheme (mkThemePage w dt mt pd tl ml)
                 = Raised "SecurityError" (mkThemePage w dt mt pd tl ml)).
  { unfold ThemeManager.getPreferredTheme, mbind, Run_bind, on_window, getItem.
    cbn. rewrite Hst. by destruct w. }
  assert (Happly : ∀ th, ThemeManager.applyTheme th (mkThemePage w dt mt pd tl ml)
                         = Raised "SecurityError"
                             (set_data_theme (Some th) (mkThemePage w dt mt pd tl ml))).
  { intros th.
    unfold ThemeManager.applyTheme, mbind, Run_bind, update, on_window, setItem.
    cbn. rewrite Hst. by destruct w. }
  split; [exact Hget |].
  split; [by unfold ThemeManager.init, mbind, Run_bind; rewrite Hget |].
  split; [apply Happly |].
  split; [apply Happly |].
  intros matches. unfold ThemeManager.on_system_change, mbind, Run_bind, on_window, getItem.
  cbn. rewrite Hst. by destruct w.
Qed.

Lemma X14_theme_without_store_witness :
  ThemeManager.init (theme_page None None true)
  = Raised "SecurityError" (theme_page None None true).
Proof.
  destruct (X14_theme_without_store (theme_page None None true) "dark")
    as (_ & Hinit & _).
  - reflexivity.
  - exact Hinit.
Defined.

(** * Mobile navigation *)

Lemma classList_add_idem (c : string) (cl : list string) :
  classList_add c (classList_add c cl) = classList_add c cl.
Proof.
  unfold classList_add at 1.
  by rewrite bool_decide_eq_true_2 by apply classList_add_in.
Qed.

Lemma classList_remove_idem (c : string) (cl : list string) :
  classList_remove c (classList_remove c cl) = classList_remove c cl.
Proof.
  unfold classList_remove. induction cl as [|x cl IH]; [done |].
  rewrite (filter_cons (λ x, x ≠ c) x cl).
  destruct (decide (x ≠ c)) as [Hx | Hx]; [| exact IH].
  rewrite (filter_cons_True (λ x, x ≠ c)) by done. by rewrite IH.
Qed.

Lemma classList_add_other (c d : string) (cl : list string) :
  c ≠ d → d ∈ classList_add c cl ↔ d ∈ cl.
Proof.
  intros Hne. unfold classList_add. case_bool_decide; [done |].
  rewrite elem_of_app, list_elem_of_singleton. split; [| by left].
  intros [Hin | Heq]; [done | congruence].
Qed.

Lemma classList_remove_other (c d : string) (cl : list string) :
  c ≠ d → d ∈ classList_remove c cl ↔ d ∈ cl.
Proof.
  intros Hne. unfold classList_remove. rewrite list_elem_of_filter.
  split; [by intros [_ Hin] |]. intros Hin. split; [congruence | done].
Qed.

Lemma nav_open_run (p : NavPage) (t : ToggleEl) (n : NavEl) :
  nav_inited p = true → menu_toggle p = Some t → mobile_nav p = Some n →
  MobileNav.open p
  = Done tt
      (mkNavPage
         (Some (mkToggleEl (classList_add "is-active" (toggle_classes t))
                           (Some "true") (toggle_click_listeners t)))
         (Some (mkNavEl (classList_add "is-open" (nav_classes n)) (nav_link_listeners n)))
         "hidden" true (keydown_listeners p) (doc_click_listeners p)).
Proof.
  intros Hi Ht Hn. destruct p as [mt mn bo ni kl cl]. cbn in *. subst.
  reflexivity.
Qed.

Lemma nav_close_run (p : NavPage) (t : ToggleEl) (n : NavEl) :
  nav_inited p = true → menu_toggle p = Some t → mobile_nav p = Some n →
  MobileNav.close p
  = Done tt
      (mkNavPage
         (Some (mkToggleEl (classList_remove "is-active" (toggle_classes t))
                           (Some "false") (toggle_click_listeners t)))
         (Some (mkNavEl (classList_remove "is-open" (nav_classes n)) (nav_link_listeners n)))
         "" true (keydown_listeners p) (doc_click_listeners p)).
Proof.
  intros Hi Ht Hn. destruct p as [mt mn bo ni kl cl]. cbn in *. subst.
  reflexivity.
Qed.

Lemma nav_isOpen_run (p : NavPage) (n : NavEl) :
  nav_inited p = true → mobile_nav p = Some n →
  MobileNav.isOpen p = Done (bool_decide ("is-open" ∈ nav_classes n)) p.
Proof.
  intros Hi Hn. unfold MobileNav.isOpen, MobileNav.with_nav. by rewrite Hi, Hn.
Qed.

(** X15.  On a page that has both the toggle and the menu, after
    [init]: [open] always leaves the menu fully open (class [is-open] on
    the menu, class [is-active] and [aria-expanded="true"] on the
    toggle, body scroll locked) and [close] always leaves it fully
    closed (none of the classes, [aria-expanded="false"], scroll
    released), whatever the state they start from; [toggleMenu] does
    the one or the other according to the class [is-open] alone.  No
    other class of either element and no listener is touched. *)
Theorem X15_menu_state_consistent (p : NavPage) (t : ToggleEl) (n : NavEl) :
  nav_inited p = true → menu_toggle p = Some t → mobile_nav p = Some n →
  ∃ po pc to no tc nc,
    MobileNav.open p = Done tt po
    ∧ MobileNav.close p = Done tt pc
    ∧ menu_toggle po = Some to ∧ mobile_nav po = Some no
    ∧ menu_toggle pc = Some tc ∧ mobile_nav pc = Some nc
    ∧ ("is-open" ∈ nav_classes no ∧ "is-active" ∈ toggle_classes to
       ∧ aria_expanded to = Some "true" ∧ body_overflow po = "hidden"
       ∧ MobileNav.isOpen po = Done true po)
    ∧ (("is-open" ∉ nav_classes nc) ∧ ("is-active" ∉ toggle_classes tc)
       ∧ aria_expanded tc = Some "false" ∧ body_overflow pc = ""
       ∧ MobileNav.isOpen pc = Done false pc)
    ∧ MobileNav.toggleMenu p
      = (if bool_decide ("is-open" ∈ nav_classes n) then Done tt pc else Done tt po)
    ∧ (∀ c, c ≠ "is-open" →
         ((c ∈ nav_classes no) ↔ (c ∈ nav_classes n))
         ∧ ((c ∈ nav_classes nc) ↔ (c ∈ nav_classes n)))
    ∧ (∀ c, c ≠ "is-active" →
         ((c ∈ toggle_classes to) ↔ (c ∈ toggle_classes t))
         ∧ ((c ∈ toggle_classes tc) ↔ (c ∈ toggle_classes t)))
    ∧ toggle_click_listeners to = toggle_click_listeners t
    ∧ toggle_click_listeners tc = toggle_click_listeners t
    ∧ nav_link_listeners no = nav_link_listeners n
    ∧ nav_link_listeners nc = nav_link_listeners n.
Proof.
  intros Hi Ht Hn.
  rewrite (nav_open_run p t n Hi Ht Hn), (nav_close_run p t n Hi Ht Hn).
  eexists _, _, _, _, _, _.
  split; [reflexivity |]. split; [reflexivity |].
  split; [reflexivity |]. split; [reflexivity |].
  split; [reflexivity |]. split; [reflexivity |]. cbn.
  split.
  { split; [apply classList_add_in |]. split; [apply classList_add_in |].
    split; [done |]. split; [done |].
    unfold MobileNav.isOpen, MobileNav.with_nav. cbn.
    by rewrite bool_decide_eq_true_2 by apply classList_add_in. }
  split.
  { split; [apply classList_remove_out |]. split; [apply classList_remove_out |].
    split; [done |]. split; [done |].
    unfold MobileNav.isOpen, MobileNav.with_nav. cbn.
    by rewrite bool_decide_eq_false_2 by apply classList_remove_out. }
  split.
  { unfold MobileNav.toggleMenu, mbind, Run_bind.
    rewrite (nav_isOpen_run p n Hi Hn).
    destruct (bool_decide ("is-open" ∈ nav_classes n)).
    - apply (nav_close_run p t n Hi Ht Hn).
    - apply (nav_open_run p t n Hi Ht Hn). }
  split.
  { intros c Hc. split.
    - by apply classList_add_other.
    - by apply classList_remove_other. }
  split.
  { intros c Hc. split.
    - by apply classList_add_other.
    - by apply classList_remove_other. }
  done.
Qed.

Lemma X15_menu_state_consistent_witness :
  ∃ po,
    MobileNav.toggleMenu (nav_page ["mobile-nav"] ["menu-toggle"]) = Done tt po
    ∧ MobileNav.isOpen po = Done true po
    ∧ body_overflow po = "hidden".
Proof.
  destruct (X15_menu_state_consistent (nav_page ["mobile-nav"] ["menu-toggle"])
              (mkToggleEl ["menu-toggle"] None 1)
              (mkNavEl ["mobile-nav"] [1%nat; 1%nat]))
    as (po & pc & to & no & tc & nc & _ & _ & _ & _ & _ & _
        & (_ & _ & _ & Hov & Hopen) & _ & Htog & _).
  - reflexivity.
  - reflexivity.
  - reflexivity.
  - exists po. split; [exact Htog |]. split; [exact Hopen | exact Hov].
Defined.

Ltac nav_fields :=
  cbn [toggle_classes aria_expanded toggle_click_listeners nav_classes
       nav_link_listeners menu_toggle mobile_nav body_overflow nav_inited
       keydown_listeners doc_click_listeners].

(** X16.  On a page that has both elements, after [init]: closing a
    menu twice is the same as closing it once, and so for opening; and
    two [toggleMenu] in a row bring the menu back to the open or closed
    state it was in. *)
Theorem X16_menu_idempotent_and_involutive (p : NavPage) (t : ToggleEl) (n : NavEl) :
  nav_inited p = true → menu_toggle p = Some t → mobile_nav p = Some n →
  (MobileNav.close ;; MobileNav.close) p = MobileNav.close p
  ∧ (MobileNav.open ;; MobileNav.open) p = MobileNav.open p
  ∧ ∃ p1 p2,
      MobileNav.toggleMenu p = Done tt p1
      ∧ MobileNav.toggleMenu p1 = Done tt p2
      ∧ MobileNav.isOpen p1 = Done (negb (bool_decide ("is-open" ∈ nav_classes n))) p1
      ∧ MobileNav.isOpen p2 = Done (bool_decide ("is-open" ∈ nav_classes n)) p2.
Proof.
  intros Hi Ht Hn.
  split.
  { unfold mbind at 1, Run_bind at 1.
    rewrite (nav_close_run p t n Hi Ht Hn).
    erewrite nav_close_run by reflexivity. nav_fields.
    by rewrite !classList_remove_idem. }
  split.
  { unfold mbind at 1, Run_bind at 1.
    rewrite (nav_open_run p t n Hi Ht Hn).
    erewrite nav_open_run by reflexivity. nav_fields.
    by rewrite !classList_add_idem. }
  unfold MobileNav.toggleMenu, mbind, Run_bind.
  rewrite (nav_isOpen_run p n Hi Hn).
  destruct (bool_decide ("is-open" ∈ nav_classes n)) eqn:E.
  - rewrite (nav_close_run p t n Hi Ht Hn).
    eexists _, _. split; [reflexivity |].
    erewrite nav_isOpen_run by reflexivity. nav_fields.
    rewrite bool_decide_eq_false_2 by apply classList_remove_out.
    erewrite nav_open_run by reflexivity.
    split; [reflexivity |]. split; [reflexivity |].
    erewrite nav_isOpen_run by reflexivity. nav_fields.
    by rewrite bool_decide_eq_true_2 by apply classList_add_in.
  - rewrite (nav_open_run p t n Hi Ht Hn).
    eexists _, _. split; [reflexivity |].
    erewrite nav_isOpen_run by reflexivity. nav_fields.
    rewrite bool_decide_eq_true_2 by apply classList_add_in.
    erewrite nav_close_run by reflexivity.
    split; [reflexivity |]. split; [reflexivity |].
    erewrite nav_isOpen_run by reflexivity. nav_fields.
    by rewrite bool_decide_eq_false_2 by apply classList_remove_out.
Qed.

Lemma X16_menu_idempotent_and_involutive_witness :
  (MobileNav.close ;; MobileNav.close) (nav_page ["mobile-nav"; "is-open"] ["menu-toggle"])
  = MobileNav.close (nav_page ["mobile-nav"; "is-open"] ["menu-toggle"]).
Proof.
  apply (X16_menu_idempotent_and_involutive
           (nav_page ["mobile-nav"; "is-open"] ["menu-toggle"])
           (mkToggleEl ["menu-toggle"] None 1)
           (mkNavEl ["mobile-nav"; "is-open"] [1%nat; 1%nat]));
    reflexivity.
Defined.

(** X17.  The document listeners of the menu, on a page that has both
    elements, after [init]: a key other than [Escape] changes nothing,
    and [Escape] closes the menu exactly when it is open; a click inside
    the menu or on the toggle changes nothing, and a click elsewhere
    closes the menu exactly when it is open.  Hence the click on the
    toggle that opens the menu, which reaches the document listener as
    well, does not close it again. *)
Theorem X17_menu_document_listeners (p : NavPage) (t : ToggleEl) (n : NavEl) :
  nav_inited p = true → menu_toggle p = Some t → mobile_nav p = Some n →
  let is_open := bool_decide ("is-open" ∈ nav_classes n) in
  (∀ key, key ≠ "Escape" → MobileNav.on_keydown key p = Done tt p)
  ∧ MobileNav.on_keydown "Escape" p
    = (if is_open then MobileNav.close p else Done tt p)
  ∧ (∀ in_nav in_toggle, in_nav = true ∨ in_toggle = true →
       MobileNav.on_document_click in_nav in_toggle p = Done tt p)
  ∧ MobileNav.on_document_click false false p
    = (if is_open then MobileNav.close p else Done tt p)
  ∧ (∀ in_nav,
       (MobileNav.toggleMenu ;; MobileNav.on_document_click in_nav true) p
       = MobileNav.toggleMenu p).
Proof.
  intros Hi Ht Hn is_open.
  split.
  { intros key Hk. unfold MobileNav.on_keydown.
    by rewrite bool_decide_eq_false_2. }
  split.
  { unfold MobileNav.on_keydown. rewrite bool_decide_eq_true_2 by done.
    unfold mbind, Run_bind. rewrite (nav_isOpen_run p n Hi Hn). fold is_open.
    by destruct is_open. }
  split.
  { intros in_nav in_toggle Hin. unfold MobileNav.on_document_click, mbind, Run_bind.
    rewrite (nav_isOpen_run p n Hi Hn).
    destruct Hin as [-> | ->]; cbn; rewrite ?andb_false_r; done. }
  split.
  { unfold MobileNav.on_document_click, mbind, Run_bind.
    rewrite (nav_isOpen_run p n Hi Hn). fold is_open. by destruct is_open. }
  intros in_nav. unfold mbind at 1, Run_bind at 1.
  destruct (MobileNav.toggleMenu p) as [[] p1 | e p1] eqn:E; [| done].
  assert (nav_inited p1 = true ∧ ∃ n1, mobile_nav p1 = Some n1) as [Hi1 [n1 Hn1]].
  { unfold MobileNav.toggleMenu, mbind, Run_bind in E.
    rewrite (nav_isOpen_run p n Hi Hn) in E.
    destruct (bool_decide ("is-open" ∈ nav_classes n)).
    - rewrite (nav_close_run p t n Hi Ht Hn) in E. injection E as <-. cbn. eauto.
    - rewrite (nav_open_run p t n Hi Ht Hn) in E. injection E as <-. cbn. eauto. }
  unfold MobileNav.on_document_click, mbind, Run_bind.
  rewrite (nav_isOpen_run p1 n1 Hi1 Hn1). cbn. by rewrite andb_false_r.
Qed.

Lemma X17_menu_document_listeners_witness :
  MobileNav.on_keydown "Escape" (nav_page ["mobile-nav"; "is-open"] ["menu-toggle"])
  = MobileNav.close (nav_page ["mobile-nav"; "is-open"] ["menu-toggle"])
  ∧ MobileNav.on_keydown "Enter" (nav_page ["mobile-nav"; "is-open"] ["menu-toggle"])
    = Done tt (nav_page ["mobile-nav"; "is-open"] ["menu-toggle"]).
Proof.
  destruct (X17_menu_document_listeners
              (nav_page ["mobile-nav"; "is-open"] ["menu-toggle"])
              (mkToggleEl ["menu-toggle"] None 1)
              (mkNavEl ["mobile-nav"; "is-open"] [1%nat; 1%nat]))
    as (Hkey & Hesc & _).
  - reflexivity.
  - reflexivity.
  - reflexivity.
  - split; [exact Hesc |]. apply Hkey. discriminate.
Defined.

(** X18.  [MobileNav.init] attaches listeners only when the page has
    both the toggle and the menu: then the toggle, every link of the
    menu and the document (for keys and for clicks) each get exactly
    one; when either element is missing nothing is attached and the page
    is left as it was.  In that case, and before [init] has run at all,
    [isOpen], [open], [close] and [toggleMenu] raise a [TypeError]
    when the menu is the missing element. *)
Theorem X18_menu_init_guard (p : NavPage) :
  (∀ t n, menu_toggle p = Some t → mobile_nav p = Some n →
     MobileNav.init p
     = Done tt
         (mkNavPage
            (Some (mkToggleEl (toggle_classes t) (aria_expanded t)
                              (S (toggle_click_listeners t))))
            (Some (mkNavEl (nav_classes n) (S <$> nav_link_listeners n)))
            (body_overflow p) true
            (S (keydown_listeners p)) (S (doc_click_listeners p))))
  ∧ (menu_toggle p = None ∨ mobile_nav p = None →
     MobileNav.init p = Done tt (set_nav_inited true p))
  ∧ (nav_inited p = false ∨ mobile_nav p = None →
     MobileNav.isOpen p = Raised "TypeError" p
     ∧ MobileNav.open p = Raised "TypeError" p
     ∧ MobileNav.close p = Raised "TypeError" p
     ∧ MobileNav.toggleMenu p = Raised "TypeError" p).
Proof.
  destruct p as [mt mn bo ni kl cl]. cbn.
  split.
  { intros t n -> ->. reflexivity. }
  split.
  { intros [-> | ->]; [reflexivity |]. by destruct mt. }
  intros [-> | ->].
  - done.
  - by destruct ni.
Qed.

Lemma X18_menu_init_guard_witness :
  MobileNav.init (mkNavPage None (Some (mkNavEl ["mobile-nav"] [0%nat])) "" false 0 0)
  = Done tt (mkNavPage None (Some (mkNavEl ["mobile-nav"] [0%nat])) "" true 0 0)
  ∧ MobileNav.close (mkNavPage (Some (mkToggleEl [] None 0)) None "" true 0 0)
    = Raised "TypeError" (mkNavPage (Some (mkToggleEl [] None 0)) None "" true 0 0).
Proof.
  split.
  - destruct (X18_menu_init_guard
                (mkNavPage None (Some (mkNavEl ["mobile-nav"] [0%nat])) "" false 0 0))
      as (_ & Hmiss & _).
    apply Hmiss. left. reflexivity.
  - destruct (X18_menu_init_guard
                (mkNavPage (Some (mkToggleEl [] None 0)) None "" true 0 0))
      as (_ & _ & Hraise).
    apply Hraise. right. reflexivity.
Defined.

(** * Regular expressions: matching by derivatives is matching *)

Import Regex.

Lemma matches_cat_inv (r1 r2 : re) (s : list N) :
  matches (Cat r1 r2) s → ∃ s1 s2, s = s1 ++ s2 ∧ matches r1 s1 ∧ matches r2 s2.
Proof. inversion 1; subst. eauto. Qed.

Lemma matches_alt_inv (r1 r2 : re) (s : list N) :
  matches (Alt r1 r2) s → matches r1 s ∨ matches r2 s.
Proof. inversion 1; subst; auto. Qed.

Lemma matches_class_inv (f : N → bool) (s : list N) :
  matches (Class f) s → ∃ c, s = [c] ∧ f c = true.
Proof. inversion 1; subst. eauto. Qed.

Lemma matches_star_cons_inv (r : re) (c : N) (s : list N) :
  matches (Star r) (c :: s) →
  ∃ s1 s2, s = s1 ++ s2 ∧ matches r (c :: s1) ∧ matches (Star r) s2.
Proof.
  intros H. remember (Star r) as r' eqn:Er. remember (c :: s) as s' eqn:Es.
  revert s Es. induction H as [| | | | | |r0 s1 s2 H1 _ H2 IH2]; intros u Eu;
    try discriminate.
  injection Er as ->. destruct s1 as [|c1 s1].
  - apply IH2; [done | exact Eu].
  - cbn in Eu. injection Eu as -> <-. eauto.
Qed.

Lemma nullable_spec (r : re) : nullable r = true ↔ matches r [].
Proof.
  induction r as [| |f|r1 IH1 r2 IH2|r1 IH1 r2 IH2|r IH]; cbn.
  - split; [done | inversion 1].
  - split; [intros _; constructor | done].
  - split; [done | inversion 1].
  - rewrite andb_true_iff, IH1, IH2. split.
    + intros [H1 H2]. exact (m_cat _ _ [] [] H1 H2).
    + intros (s1 & s2 & E & H1 & H2)%matches_cat_inv.
      symmetry in E. apply app_eq_nil in E as [-> ->]. done.
  - rewrite orb_true_iff, IH1, IH2. split.
    + intros [H | H]; [by apply m_alt_l | by apply m_alt_r].
    + apply matches_alt_inv.
  - split; [intros _; constructor | done].
Qed.

Lemma deriv_spec (r : re) (c : N) (s : list N) :
  matches (deriv c r) s ↔ matches r (c :: s).
Proof.
  revert s. induction r as [| |f|r1 IH1 r2 IH2|r1 IH1 r2 IH2|r IH]; intros s; cbn.
  - split; inversion 1.
  - split; inversion 1.
  - destruct (f c) eqn:E; split.
    + inversion 1; subst. by constructor.
    + intros (c' & Es & _)%matches_class_inv. injection Es as -> ->. constructor.
    + inversion 1.
    + intros (c' & Es & Hc)%matches_class_inv. injection Es as -> ->. congruence.
  - assert (Hcat : matches (Cat (deriv c r1) r2) s →
                   matches (Cat r1 r2) (c :: s)).
    { intros (s1 & s2 & -> & H1 & H2)%matches_cat_inv.
      apply IH1 in H1. exact (m_cat _ _ (c :: s1) s2 H1 H2). }
    assert (Hback : matches (Cat r1 r2) (c :: s) →
                    matches (Cat (deriv c r1) r2) s
                    ∨ (matches r1 [] ∧ matches r2 (c :: s))).
    { intros (s1 & s2 & E & H1 & H2)%matches_cat_inv.
      destruct s1 as [|c1 s1].
      - right. cbn in E. subst s2. done.
      - cbn in E. injection E as -> ->. left.
        apply m_cat; [by apply IH1 | done]. }
    destruct (nullable r1) eqn:En; split.
    + intros [H | H]%matches_alt_inv; [by apply Hcat |].
      apply IH2 in H. apply nullable_spec in En.
      exact (m_cat _ _ [] (c :: s) En H).
    + intros [H | [_ H]]%Hback; [by apply m_alt_l |].
      apply m_alt_r. by apply IH2.
    + apply Hcat.
    + intros [H | [H _]]%Hback; [done |].
      apply nullable_spec in H. congruence.
  - split.
    + intros [H | H]%matches_alt_inv;
        [apply m_alt_l; by apply IH1 | apply m_alt_r; by apply IH2].
    + intros [H | H]%matches_alt_inv;
        [apply m_alt_l; by apply IH1 | apply m_alt_r; by apply IH2].
  - split.
    + intros (s1 & s2 & -> & H1 & H2)%matches_cat_inv.
      apply IH in H1. exact (m_star_cons _ (c :: s1) s2 H1 H2).
    + intros (s1 & s2 & -> & H1 & H2)%matches_star_cons_inv.
      apply m_cat; [by apply IH | done].
Qed.

(** The executable test and the declarative meaning agree. *)
Lemma test_spec (r : re) (s : list N) : test r s = true ↔ matches r s.
Proof.
  revert r. induction s as [|c s IH]; intros r; cbn.
  - apply nullable_spec.
  - rewrite IH. apply deriv_spec.
Qed.

Lemma matches_star_class (f : N → bool) (s : list N) :
  matches (Star (Class f)) s ↔ Forall (λ c, f c = true) s.
Proof.
  split.
  - induction s as [|c s IH]; [constructor |].
    intros (s1 & s2 & -> & H1 & H2)%matches_star_cons_inv.
    apply matches_class_inv in H1 as (c' & E & Hc). injection E as -> ->.
    constructor; [done | by apply IH].
  - induction 1 as [|c s Hc _ IH]; [constructor |].
    exact (m_star_cons _ [c] s (m_class f c Hc) IH).
Qed.

Lemma matches_plus_class (f : N → bool) (s : list N) :
  matches (plus (Class f)) s ↔ s ≠ [] ∧ Forall (λ c, f c = true) s.
Proof.
  unfold plus. split.
  - intros (s1 & s2 & -> & H1 & H2)%matches_cat_inv.
    apply matches_class_inv in H1 as (c & -> & Hc).
    apply matches_star_class in H2. split; [done | by constructor].
  - intros [Hne Hall]. destruct s as [|c s]; [done |].
    apply Forall_cons in Hall as [Hc Hall].
    apply (m_cat _ _ [c] s); [by constructor | by apply matches_star_class].
Qed.

Lemma matches_at_least_class (n : nat) (f : N → bool) (s : list N) :
  matches (at_least n (Class f)) s
  ↔ (n ≤ length s)%nat ∧ Forall (λ c, f c = true) s.
Proof.
  revert s. induction n as [|n IH]; intros s; cbn [at_least].
  - rewrite matches_star_class. split; [intros H; split; [lia | done] | by intros [_ H]].
  - split.
    + intros (s1 & s2 & -> & H1 & H2)%matches_cat_inv.
      apply matches_class_inv in H1 as (c & -> & Hc).
      apply IH in H2 as [Hlen Hall]. cbn. split; [lia | by constructor].
    + intros [Hlen Hall]. destruct s as [|c s]; [cbn in Hlen; lia |].
      apply Forall_cons in Hall as [Hc Hall]. cbn in Hlen.
      apply (m_cat _ _ [c] s); [by constructor |].
      apply IH. split; [lia | done].
Qed.

(** * The built-in checks of the validator *)

(** X19.  The e-mail check accepts exactly the texts of the form
    [local@domain.tail] in which the three parts are not empty and
    contain neither white space nor [@].  So an accepted text has no
    white space at all and exactly one [@]; but the parts may contain
    dots anywhere, so that [a@b..c] and [.a@b.c.] are accepted. *)
Theorem X19_email_check (s : list N) :
  (test emailRegex s = true
   ↔ ∃ a b c,
       s = a ++ [64%N] ++ b ++ [46%N] ++ c
       ∧ a ≠ [] ∧ b ≠ [] ∧ c ≠ []
       ∧ Forall (λ x, not_space_at x = true) a
       ∧ Forall (λ x, not_space_at x = true) b
       ∧ Forall (λ x, not_space_at x = true) c)
  ∧ (test emailRegex s = true →
       Forall (λ x, Text.is_space x = false) s
       ∧ length (filter (λ x, x = 64%N) s) = 1%nat)
  ∧ test emailRegex (Text.lit "a@b..c") = true
  ∧ test emailRegex (Text.lit ".a@b.c.") = true
  ∧ test emailRegex (Text.lit "a@b") = false
  ∧ test emailRegex (Text.lit "a b@c.d") = false.
Proof.
  assert (Hiff : test emailRegex s = true
                 ↔ ∃ a b c,
                     s = a ++ [64%N] ++ b ++ [46%N] ++ c
                     ∧ a ≠ [] ∧ b ≠ [] ∧ c ≠ []
                     ∧ Forall (λ x, not_space_at x = true) a
                     ∧ Forall (λ x, not_space_at x = true) b
                     ∧ Forall (λ x, not_space_at x = true) c).
  { rewrite test_spec. unfold emailRegex. split.
    - intros (a & s1 & -> & Ha & H1)%matches_cat_inv.
      apply matches_cat_inv in H1 as (at_ & s2 & -> & Hat & H2).
      apply matches_cat_inv in H2 as (b & s3 & -> & Hb & H3).
      apply matches_cat_inv in H3 as (dot & c & -> & Hdot & Hc).
      apply matches_class_inv in Hat as (x & -> & Hx). apply N.eqb_eq in Hx as ->.
      apply matches_class_inv in Hdot as (y & -> & Hy). apply N.eqb_eq in Hy as ->.
      apply matches_plus_class in Ha as [? ?].
      apply matches_plus_class in Hb as [? ?].
      apply matches_plus_class in Hc as [? ?].
      exists a, b, c. done.
    - intros (a & b & c & -> & Ha & Hb & Hc & Fa & Fb & Fc).
      apply m_cat; [by apply matches_plus_class |].
      apply m_cat; [by constructor |].
      apply m_cat; [by apply matches_plus_class |].
      apply m_cat; [by constructor |].
      by apply matches_plus_class. }
  split; [exact Hiff |].
  split.
  { intros (a & b & c & -> & _ & _ & _ & Fa & Fb & Fc)%Hiff.
    assert (Hpart : ∀ l, Forall (λ x, not_space_at x = true) l →
              Forall (λ x, Text.is_space x = false) l
              ∧ filter (λ x, x = 64%N) l = []).
    { intros l Hl. induction Hl as [|x l Hx _ [IH1 IH2]]; [done |].
      unfold not_space_at in Hx. apply andb_true_iff in Hx as [Hs Ha].
      apply negb_true_iff in Hs, Ha. apply N.eqb_neq in Ha. split.
      - by constructor.
      - by rewrite filter_cons_False. }
    destruct (Hpart a Fa) as [Sa Za], (Hpart b Fb) as [Sb Zb], (Hpart c Fc) as [Sc Zc].
    split.
    - repeat (apply Forall_app; split); try done; by constructor.
    - rewrite !filter_app, Za, Zb, Zc. reflexivity. }
  repeat split; by vm_compute.
Qed.

Lemma X19_email_check_witness :
  Forall (λ x, Text.is_space x = false) (Text.lit "info@amd.example")
  ∧ length (filter (λ x, x = 64%N) (Text.lit "info@amd.example")) = 1%nat.
Proof.
  destruct (X19_email_check (Text.lit "info@amd.example")) as (_ & Hshape & _).
  apply Hshape. reflexivity.
Defined.

(** X20.  The phone check accepts exactly the texts of at least eight
    code units that are all digits, white space, [-], [+], [(] or [)].
    It does not ask for any digit: eight dashes pass. *)
Theorem X20_phone_check (s : list N) :
  (test phoneRegex s = true
   ↔ (8 ≤ length s)%nat ∧ Forall (λ x, phone_char x = true) s)
  ∧ test phoneRegex (Text.lit "--------") = true
  ∧ test phoneRegex (Text.lit "+20 (2) 1234-5678") = true
  ∧ test phoneRegex (Text.lit "1234567") = false
  ∧ test phoneRegex (Text.lit "12345678x") = false.
Proof.
  split.
  - rewrite test_spec. apply (matches_at_least_class 8).
  - repeat split; by vm_compute.
Qed.

Lemma X20_phone_check_witness :
  (8 ≤ length (Text.lit "01234 567 890"))%nat
  ∧ Forall (λ x, phone_char x = true) (Text.lit "01234 567 890").
Proof.
  destruct (X20_phone_check (Text.lit "01234 567 890")) as ([Hshape _] & _).
  apply Hshape. reflexivity.
Defined.

(** * Trimming *)

Lemma trimStart_split (s : list N) :
  ∃ a, s = a ++ Text.trimStart s ∧ Forall (λ c, Text.is_space c = true) a.
Proof.
  induction s as [|c s (a & E & Ha)]; [by exists [] |]. cbn.
  destruct (Text.is_space c) eqn:Ec.
  - exists (c :: a). split; [by rewrite E at 1 | by constructor].
  - by exists [].
Qed.

Lemma trimStart_head (s : list N) (c : N) (r : list N) :
  Text.trimStart s = c :: r → Text.is_space c = false.
Proof.
  induction s as [|x s IH]; [done |]. cbn.
  destruct (Text.is_space x) eqn:Ex; [exact IH |]. by intros [= <- _].
Qed.

Lemma trimStart_nil (s : list N) :
  Text.trimStart s = [] ↔ Forall (λ c, Text.is_space c = true) s.
Proof.
  induction s as [|x s IH]; [done |]. cbn.
  destruct (Text.is_space x) eqn:Ex.
  - rewrite IH. split; [by constructor | by intros [_ ?]%Forall_cons].
  - split; [done |]. intros [? _]%Forall_cons. congruence.
Qed.

Lemma trimStart_fixed (s : list N) :
  (∀ c r, s = c :: r → Text.is_space c = false) → Text.trimStart s = s.
Proof.
  destruct s as [|c r]; [done |]. intros H. cbn. by rewrite (H c r eq_refl).
Qed.

Lemma trimEnd_split (s : list N) :
  ∃ b, s = Text.trimEnd s ++ b ∧ Forall (λ c, Text.is_space c = true) b.
Proof.
  unfold Text.trimEnd. destruct (trimStart_split (rev s)) as (a & E & Ha).
  exists (rev a). split.
  - rewrite <- rev_app_distr, <- E. by rewrite rev_involutive.
  - by apply Forall_rev.
Qed.

Lemma trimEnd_last (s r : list N) (c : N) :
  Text.trimEnd s = r ++ [c] → Text.is_space c = false.
Proof.
  unfold Text.trimEnd. intros E. apply (f_equal (@rev N)) in E.
  rewrite rev_involutive, rev_app_distr in E. cbn in E.
  by apply trimStart_head in E.
Qed.

Lemma trimEnd_nil (s : list N) :
  Text.trimEnd s = [] ↔ Forall (λ c, Text.is_space c = true) s.
Proof.
  unfold Text.trimEnd. split.
  - intros E. apply (f_equal (@rev N)) in E. rewrite rev_involutive in E. cbn in E.
    apply trimStart_nil in E. apply Forall_rev in E. by rewrite rev_involutive in E.
  - intros H. apply Forall_rev in H. apply trimStart_nil in H. by rewrite H.
Qed.

(** X21.  [trim] removes white space at the two ends and nothing
    else: the text is some white space, then the trimmed text, then
    some white space; the trimmed text neither begins nor ends with
    white space; it is empty exactly when the text is all white space;
    and trimming a trimmed text changes nothing. *)
Theorem X21_trim (s : list N) :
  (∃ a b, s = a ++ Text.trim s ++ b
          ∧ Forall (λ c, Text.is_space c = true) a
          ∧ Forall (λ c, Text.is_space c = true) b)
  ∧ (∀ c r, Text.trim s = c :: r → Text.is_space c = false)
  ∧ (∀ r c, Text.trim s = r ++ [c] → Text.is_space c = false)
  ∧ (Text.trim s = [] ↔ Forall (λ c, Text.is_space c = true) s)
  ∧ Text.trim (Text.trim s) = Text.trim s.
Proof.
  destruct (trimStart_split s) as (a & Ea & Ha).
  destruct (trimEnd_split (Text.trimStart s)) as (b & Eb & Hb).
  assert (Hhead : ∀ c r, Text.trim s = c :: r → Text.is_space c = false).
  { intros c r E. unfold Text.trim in E. rewrite E in Eb.
    by apply (trimStart_head s c (r ++ b)). }
  assert (Hlast : ∀ r c, Text.trim s = r ++ [c] → Text.is_space c = false).
  { intros r c E. by apply (trimEnd_last (Text.trimStart s) r). }
  split.
  { exists a, b. unfold Text.trim. by rewrite <- Eb. }
  split; [exact Hhead |]. split; [exact Hlast |].
  split.
  { unfold Text.trim. rewrite trimEnd_nil. split.
    - intros H. apply trimStart_nil.
      destruct (Text.trimStart s) as [|c r] eqn:E; [done |].
      apply Forall_cons in H as [Hc _]. apply trimStart_head in E. congruence.
    - intros H. apply trimStart_nil in H. rewrite H. constructor. }
  unfold Text.trim at 1. rewrite (trimStart_fixed _ Hhead).
  unfold Text.trimEnd.
  assert (Text.trimStart (rev (Text.trim s)) = rev (Text.trim s)) as ->.
  { apply trimStart_fixed. intros c r E. apply (f_equal (@rev N)) in E.
    rewrite rev_involutive in E. cbn in E. by apply (Hlast (rev r)). }
  apply rev_involutive.
Qed.

Lemma X21_trim_witness :
  Text.trim (Text.lit "   ") = []
  ∧ Text.trim (Text.lit "  a b ") = Text.lit "a b".
Proof.
  split.
  - destruct (X21_trim (Text.lit "   ")) as (_ & _ & _ & Hnil & _).
    apply Hnil. repeat constructor.
  - reflexivity.
Defined.

(** * Validation of a field *)

Section ValidationFacts.

Variable RegExp_test : Text.text → Text.text → option bool.

(** The checks as a decision list: the first one that fails decides. *)
Lemma run_checks_first_failure (field : Field) :
  run_checks RegExp_test field
  = let v := Text.trim (value field) in
    if negb (Text.nonempty v)
    then Some (if required field
               then (false, Text.or_else (errorRequired field)
                              (Text.lit "This field is required"))
               else (true, []))
    else if bool_decide (field_type field = "email")
            && negb (test emailRegex v)
    then Some (false, Text.or_else (errorEmail field)
                        (Text.lit "Please enter a valid email"))
    else if bool_decide (field_type field = "tel")
            && negb (test phoneRegex v)
    then Some (false, Text.or_else (errorTel field)
                        (Text.lit "Please enter a valid phone number"))
    else if Text.truthy (minlength field)
            && shorter_than v (Text.parseInt (default [] (minlength field)))
    then Some (false, Text.or_else (errorMinlength field)
                        (Text.lit "Minimum " ++ default [] (minlength field)
                         ++ Text.lit " characters required"))
    else if Text.truthy (pattern field)
    then match RegExp_test (default [] (pattern field)) v with
         | None => None
         | Some matched =>
             if matched then Some (true, [])
             else Some (false, Text.or_else (errorPattern field)
                                 (Text.lit "Invalid format"))
         end
    else Some (true, []).
Proof.
  unfold run_checks, check_required, check_email, check_tel, check_minlength,
    check_pattern.
  cbn zeta.
  destruct (Text.nonempty (Text.trim (value field))) eqn:Ev; cbn [negb andb].
  - rewrite andb_false_r. cbn [fst snd andb].
    destruct (bool_decide (field_type field = "email")) eqn:Ee; cbn [andb].
    + destruct (test emailRegex _) eqn:Te; cbn [negb fst andb]; [| done].
      destruct (bool_decide (field_type field = "tel")) eqn:Et; cbn [andb].
      * apply bool_decide_eq_true in Ee, Et. congruence.
      * destruct (Text.truthy (minlength field)); cbn [andb].
        -- destruct (shorter_than _ _); cbn [fst andb]; [done |].
           destruct (Text.truthy (pattern field)); [| done].
           destruct (RegExp_test _ _) as [[]|]; done.
        -- destruct (Text.truthy (pattern field)); [| done].
           destruct (RegExp_test _ _) as [[]|]; done.
    + destruct (bool_decide (field_type field = "tel")) eqn:Et; cbn [andb].
      * destruct (test phoneRegex _) eqn:Tp; cbn [negb fst andb]; [| done].
        destruct (Text.truthy (minlength field)); cbn [andb].
        -- destruct (shorter_than _ _); cbn [fst andb]; [done |].
           destruct (Text.truthy (pattern field)); [| done].
           destruct (RegExp_test _ _) as [[]|]; done.
        -- destruct (Text.truthy (pattern field)); [| done].
           destruct (RegExp_test _ _) as [[]|]; done.
      * destruct (Text.truthy (minlength field)); cbn [andb].
        -- destruct (shorter_than _ _); cbn [fst andb]; [done |].
           destruct (Text.truthy (pattern field)); [| done].
           destruct (RegExp_test _ _) as [[]|]; done.
        -- destruct (Text.truthy (pattern field)); [| done].
           destruct (RegExp_test _ _) as [[]|]; done.
  - rewrite andb_true_r. destruct (required field); cbn [fst andb]; done.
Qed.

Lemma or_else_nonempty (v : option Text.text) (d : Text.text) :
  d ≠ [] → Text.or_else v d ≠ [].
Proof.
  intros Hd. unfold Text.or_else. destruct v as [[|c s]|]; cbn; done.
Qed.

(** A failed check always comes with a message. *)
Lemma run_checks_message (field : Field) (msg : Text.text) :
  run_checks RegExp_test field = Some (false, msg) → msg ≠ [].
Proof.
  rewrite run_checks_first_failure. cbn zeta.
  repeat match goal with
         | |- context [if ?b then _ else _] => destruct b
         | |- context [match ?o with Some _ => _ | None => _ end] => destruct o
         end;
    intros [= <-] || intros [=]; by apply or_else_nonempty.
Qed.

Lemma setFieldState_run (form : Form) (i : nat) (field : Field)
    (isValid : bool) (message : Text.text) :
  fields form !! i = Some field →
  ∃ form',
    setFieldState i isValid message form = Done tt form'
    ∧ fields form'
      = <[i := with_state field
                 (if isValid
                  then classList_add "is-valid"
                         (classList_remove "is-invalid" (field_classes field))
                  else classList_add "is-invalid"
                         (classList_remove "is-valid" (field_classes field)))
                 (Some (if isValid then "false" else "true"))]> (fields form)
    ∧ length (error_els form') = length (error_els form)
    ∧ (∀ j, error_ref field ≠ Some j → error_els form' !! j = error_els form !! j)
    ∧ (∀ j e, error_ref field = Some j → error_els form !! j = Some e →
         error_els form' !! j
         = Some (if isValid then mkErrorEl [] (error_role e)
                 else mkErrorEl message (Some "alert"))).
Proof.
  intros Hi. unfold setFieldState. rewrite Hi.
  destruct isValid; (eexists; split; [reflexivity |]); cbn [fields error_els];
    (split; [reflexivity |]).
  - split; [| split].
    + destruct (error_ref field) as [j|]; [| done].
      case_bool_decide; [by rewrite length_alter | done].
    + intros j Hj. destruct (error_ref field) as [j'|]; [| done].
      case_bool_decide; [| done]. apply list_lookup_alter_ne. congruence.
    + intros j e -> He. rewrite bool_decide_eq_true_2
        by (by apply lookup_lt_Some in He).
      rewrite list_lookup_alter_eq, He. done.
  - split; [| split].
    + destruct (error_ref field) as [j|]; [| done].
      case_bool_decide; [by rewrite length_alter | done].
    + intros j Hj. destruct (error_ref field) as [j'|]; [| done].
      case_bool_decide; [| done]. apply list_lookup_alter_ne. congruence.
    + intros j e -> He. rewrite bool_decide_eq_true_2
        by (by apply lookup_lt_Some in He).
      rewrite list_lookup_alter_eq, He. done.
Qed.

End ValidationFacts.

Section FieldValidation.

Variable RegExp_test : Text.text → Text.text → option bool.

Lemma validateField_run (form : Form) (i : nat) (field : Field) :
  fields form !! i = Some field →
  validateField RegExp_test i form
  = match run_checks RegExp_test field with
    | None => Raised "SyntaxError" form
    | Some st => Done st.1 (state_of (setFieldState i st.1 st.2 form))
    end.
Proof.
  intros Hi. unfold validateField. rewrite Hi.
  destruct (run_checks RegExp_test field) as [[ok msg]|]; [| done].
  unfold mbind, Run_bind. cbn [fst snd].
  destruct (setFieldState_run form i field ok msg Hi) as (form' & -> & _). done.
Qed.

(** X22.  What decides the verdict of [validateField], on the value
    with the white space at its ends removed.  An empty value is valid
    exactly when the field is not required, whatever its type,
    [minlength] and [pattern].  A non-empty value is rejected when the
    field is of type [email] or [tel] and fails the built-in check, and
    otherwise when it is shorter, in code units, than the number
    [parseInt] reads from a non-empty [minlength] (a [minlength] that is
    not a number rejects nothing).  Only a non-empty value that passed
    all of these reaches the [pattern]: without one it is valid; with
    one the verdict is that of the regular expression, and an ill-formed
    pattern raises a [SyntaxError] with the form untouched. *)
Theorem X22_validateField_verdict (form : Form) (i : nat) (field : Field) :
  fields form !! i = Some field →
  let v := Text.trim (value field) in
  let builtin_ok :=
    (field_type field = "email" → test emailRegex v = true)
    ∧ (field_type field = "tel" → test phoneRegex v = true) in
  let long_enough :=
    ∀ m k, minlength field = Some m → m ≠ [] → Text.parseInt m = Some k →
      (k ≤ Z.of_nat (length v))%Z in
  (v = [] →
     ∃ form', validateField RegExp_test i form = Done (negb (required field)) form')
  ∧ (v ≠ [] → ¬ builtin_ok →
     ∃ form', validateField RegExp_test i form = Done false form')
  ∧ (v ≠ [] → ¬ long_enough →
     ∃ form', validateField RegExp_test i form = Done false form')
  ∧ (v ≠ [] → builtin_ok → long_enough →
     pattern field = None ∨ pattern field = Some [] →
     ∃ form', validateField RegExp_test i form = Done true form')
  ∧ (v ≠ [] → builtin_ok → long_enough →
     ∀ p, pattern field = Some p → p ≠ [] →
       (RegExp_test p v = None →
          validateField RegExp_test i form = Raised "SyntaxError" form)
       ∧ (∀ matched, RegExp_test p v = Some matched →
            ∃ form', validateField RegExp_test i form = Done matched form')).
Proof.
  intros Hi v builtin_ok long_enough.
  rewrite (validateField_run form i field Hi), run_checks_first_failure.
  cbn zeta. fold v.
  assert (Hne : v ≠ [] → Text.nonempty v = true) by (by destruct v).
  assert (Hbuiltin : builtin_ok ↔
            (bool_decide (field_type field = "email") && negb (test emailRegex v) = false)
            ∧ (bool_decide (field_type field = "tel") && negb (test phoneRegex v) = false)).
  { unfold builtin_ok. split.
    - intros [He Ht]. split.
      + case_bool_decide as E; [by rewrite (He E) | done].
      + case_bool_decide as E; [by rewrite (Ht E) | done].
    - intros [He Ht]. split; intros E.
      + rewrite bool_decide_eq_true_2 in He by done.
        by destruct (test emailRegex v).
      + rewrite bool_decide_eq_true_2 in Ht by done.
        by destruct (test phoneRegex v). }
  assert (Hlong : long_enough ↔
            Text.truthy (minlength field)
            && shorter_than v (Text.parseInt (default [] (minlength field))) = false).
  { unfold long_enough. split.
    - intros H. destruct (minlength field) as [m|] eqn:Em; [| done].
      change (default [] (Some m)) with m.
      destruct m as [|c m]; [done |]. cbn [Text.truthy Text.nonempty andb].
      unfold shorter_than. destruct (Text.parseInt (c :: m)) as [k|] eqn:Ek; [| done].
      apply Z.ltb_ge. by apply (H (c :: m) k).
    - intros H m k Em Hm Hk. rewrite Em in H.
      change (default [] (Some m)) with m in H. rewrite Hk in H.
      destruct m as [|c m]; [done |]. cbn in H. by apply Z.ltb_ge. }
  split.
  { intros ->. cbn. destruct (required field); eauto. }
  split.
  { intros Hv Hno. rewrite (Hne Hv). cbn [negb].
    destruct (bool_decide (field_type field = "email") && negb (test emailRegex v))
      eqn:Ee; [eauto |].
    destruct (bool_decide (field_type field = "tel") && negb (test phoneRegex v))
      eqn:Et; [eauto |].
    destruct Hno. by apply Hbuiltin. }
  split.
  { intros Hv Hno. rewrite (Hne Hv). cbn [negb].
    destruct (bool_decide (field_type field = "email") && negb (test emailRegex v));
      [eauto |].
    destruct (bool_decide (field_type field = "tel") && negb (test phoneRegex v));
      [eauto |].
    destruct (Text.truthy (minlength field)
              && shorter_than v (Text.parseInt (default [] (minlength field))))
      eqn:Em; [eauto |].
    destruct Hno. by apply Hlong. }
  split.
  { intros Hv [He Ht]%Hbuiltin Hm%Hlong Hp. rewrite (Hne Hv), He, Ht, Hm. cbn [negb].
    destruct Hp as [-> | ->]; cbn; eauto. }
  intros Hv [He Ht]%Hbuiltin Hm%Hlong p Hp Hpne.
  rewrite (Hne Hv), He, Ht, Hm, Hp. cbn [negb Text.truthy].
  change (default [] (Some p)) with p.
  assert (Text.nonempty p = true) as -> by (by destruct p).
  split.
  - by intros ->.
  - intros matched ->. destruct matched; eauto.
Qed.

End FieldValidation.

Lemma X22_validateField_verdict_witness :
  ∃ form',
    validateField (λ _ _, None) 0
      (one_field_form (text_field true "email" None (Text.lit " info@amd.example ")))
    = Done true form'.
Proof.
  destruct (X22_validateField_verdict (λ _ _, None)
              (one_field_form (text_field true "email" None (Text.lit " info@amd.example ")))
              0 (text_field true "email" None (Text.lit " info@amd.example ")))
    as (_ & _ & _ & Hok & _).
  - reflexivity.
  - apply Hok.
    + discriminate.
    + split; [reflexivity | discriminate].
    + intros m k Hm. discriminate Hm.
    + left. reflexivity.
Defined.

Section FieldState.

Variable RegExp_test : Text.text → Text.text → option bool.

(** X23.  When [validateField] returns, the field carries exactly one
    of the classes [is-valid] and [is-invalid], the one of the verdict,
    and [aria-invalid] says the same; its value, its rules and its other
    classes are as before, and so is every other field.  The error
    element of the field, if it has one, is emptied by a valid verdict;
    an invalid verdict gives it the role [alert] and a message, which is
    never empty.  No other error element changes. *)
Theorem X23_validateField_marks
    (form form' : Form) (i : nat) (field : Field) (ok : bool) :
  fields form !! i = Some field →
  validateField RegExp_test i form = Done ok form' →
  ∃ field',
    fields form' !! i = Some field'
    ∧ (("is-valid" ∈ field_classes field') ↔ ok = true)
    ∧ (("is-invalid" ∈ field_classes field') ↔ ok = false)
    ∧ aria_invalid field' = Some (if ok then "false" else "true")
    ∧ (∀ c, c ≠ "is-valid" → c ≠ "is-invalid" →
         (c ∈ field_classes field') ↔ (c ∈ field_classes field))
    ∧ value field' = value field
    ∧ with_state field' (field_classes field) (aria_invalid field) = field
    ∧ length (fields form') = length (fields form)
    ∧ (∀ j, j ≠ i → fields form' !! j = fields form !! j)
    ∧ length (error_els form') = length (error_els form)
    ∧ (∀ j, error_ref field ≠ Some j → error_els form' !! j = error_els form !! j)
    ∧ (∀ j e, error_ref field = Some j → error_els form !! j = Some e →
         ∃ e', error_els form' !! j = Some e'
               ∧ (ok = true → textContent e' = [] ∧ error_role e' = error_role e)
               ∧ (ok = false → textContent e' ≠ [] ∧ error_role e' = Some "alert")).
Proof.
  intros Hi Hrun. rewrite (validateField_run RegExp_test form i field Hi) in Hrun.
  destruct (run_checks RegExp_test field) as [[ok' msg]|] eqn:Hchk; [| done].
  cbn [fst snd] in Hrun.
  destruct (setFieldState_run form i field ok' msg Hi)
    as (form1 & Hset & Hfields & Hlen & Hother & Hmine).
  rewrite Hset in Hrun. cbn in Hrun. injection Hrun as -> ->.
  pose proof (lookup_lt_Some _ _ _ Hi) as Hlt.
  eexists. split.
  { rewrite Hfields. by apply list_lookup_insert_eq. }
  cbn [field_classes aria_invalid value with_state].
  split.
  { destruct ok; split; try done.
    - intros _. apply classList_add_in.
    - intros Hin. apply classList_add_other in Hin; [| done].
      by apply classList_remove_out in Hin. }
  split.
  { destruct ok; split; try done.
    - intros Hin. apply classList_add_other in Hin; [| done].
      by apply classList_remove_out in Hin.
    - intros _. apply classList_add_in. }
  split; [done |].
  split.
  { intros c Hv Hinv. destruct ok.
    - rewrite classList_add_other by done. by apply classList_remove_other.
    - rewrite classList_add_other by done. by apply classList_remove_other. }
  split; [done |].
  split; [by destruct field |].
  split; [by rewrite Hfields, length_insert |].
  split.
  { intros j Hj. rewrite Hfields. by apply list_lookup_insert_ne. }
  split; [exact Hlen |].
  split; [exact Hother |].
  intros j e Hj He. rewrite (Hmine j e Hj He). eexists. split; [reflexivity |].
  destruct ok; cbn; split; try done.
  intros _. split; [| done]. by apply (run_checks_message RegExp_test field).
Qed.

End FieldState.

Lemma X23_validateField_marks_witness :
  ∃ field',
    fields (state_of (validateField (λ _ _, None) 0
              (one_field_form (text_field true "text" None (Text.lit "   ")))))
      !! 0%nat = Some field'
    ∧ aria_invalid field' = Some "true".
Proof.
  destruct (X23_validateField_marks (λ _ _, None)
              (one_field_form (text_field true "text" None (Text.lit "   ")))
              (state_of (validateField (λ _ _, None) 0
                 (one_field_form (text_field true "text" None (Text.lit "   ")))))
              0 (text_field true "text" None (Text.lit "   ")) false)
    as (field' & Hf & _ & _ & Ha & _).
  - reflexivity.
  - reflexivity.
  - exists field'. split; [exact Hf | exact Ha].
Defined.

Section WholeForm.

Variable RegExp_test : Text.text → Text.text → option bool.

(** The field as [setFieldState] leaves it for a verdict. *)
Lemma validateField_fields (form : Form) (i : nat) (field : Field) (st : bool * Text.text) :
  fields form !! i = Some field →
  run_checks RegExp_test field = Some st →
  ∃ form1,
    validateField RegExp_test i form = Done st.1 form1
    ∧ fields form1
      = <[i := with_state field
                 (if st.1
                  then classList_add "is-valid"
                         (classList_remove "is-invalid" (field_classes field))
                  else classList_add "is-invalid"
                         (classList_remove "is-valid" (field_classes field)))
                 (Some (if st.1 then "false" else "true"))]> (fields form).
Proof.
  intros Hi Hst. rewrite (validateField_run RegExp_test form i field Hi), Hst.
  destruct (setFieldState_run form i field st.1 st.2 Hi) as (form1 & Hset & Hf & _).
  rewrite Hset. cbn. eauto.
Qed.

Lemma run_checks_total (field : Field) :
  (∀ p, pattern field = Some p →
        RegExp_test p (Text.trim (value field)) ≠ None) →
  ∃ st, run_checks RegExp_test field = Some st.
Proof.
  intros Hp. rewrite run_checks_first_failure. cbn zeta.
  destruct (pattern field) as [p|] eqn:Ep.
  - change (default [] (Some p)) with p.
    destruct (RegExp_test p (Text.trim (value field))) as [matched|] eqn:E;
      [| by destruct (Hp p eq_refl)].
    repeat match goal with
           | |- context [if ?b then _ else _] => destruct b; eauto
           end.
  - cbn [Text.truthy].
    repeat match goal with
           | |- context [if ?b then _ else _] => destruct b; eauto
           end.
Qed.

Lemma validate_each_run (n k : nat) (form : Form) (acc : bool) :
  (k + n = length (fields form))%nat →
  (∀ field p, field ∈ fields form → pattern field = Some p →
     RegExp_test p (Text.trim (value field)) ≠ None) →
  ∃ ok form',
    validate_each RegExp_test (seq k n) acc form = Done ok form'
    ∧ length (fields form') = length (fields form)
    ∧ (∀ j, (j < k)%nat → fields form' !! j = fields form !! j)
    ∧ (∀ j field, (k ≤ j)%nat → fields form !! j = Some field →
         ∃ st, run_checks RegExp_test field = Some st
               ∧ fields form' !! j
                 = Some (with_state field
                           (if st.1
                            then classList_add "is-valid"
                                   (classList_remove "is-invalid" (field_classes field))
                            else classList_add "is-invalid"
                                   (classList_remove "is-valid" (field_classes field)))
                           (Some (if st.1 then "false" else "true"))))
    ∧ (ok = true ↔
         acc = true
         ∧ ∀ j field, (k ≤ j)%nat → fields form !! j = Some field →
             ∃ msg, run_checks RegExp_test field = Some (true, msg)).
Proof.
  revert k form acc. induction n as [|n IH]; intros k form acc Hlen Hpat.
  - exists acc, form. cbn. split; [done |]. split; [done |]. split; [done |].
    split.
    + intros j field Hj Hf. apply lookup_lt_Some in Hf. lia.
    + split; [intros ->; split; [done |] | by intros [-> _]].
      intros j field Hj Hf. apply lookup_lt_Some in Hf. lia.
  - assert (k < length (fields form))%nat as Hk by lia.
    destruct (lookup_lt_is_Some_2 _ _ Hk) as [fk Hfk].
    destruct (run_checks_total fk) as [stk Hstk].
    { intros p. apply Hpat. by apply (list_elem_of_lookup_2 _ k). }
    destruct (validateField_fields form k fk stk Hfk Hstk) as (form1 & Hrun & Hf1).
    assert (Hlen1 : length (fields form1) = length (fields form))
      by (by rewrite Hf1, length_insert).
    assert (Hsame : ∀ j, j ≠ k → fields form1 !! j = fields form !! j)
      by (intros j Hj; rewrite Hf1; by apply list_lookup_insert_ne).
    destruct (IH (S k) form1 (if negb stk.1 then false else acc))
      as (ok & form' & Hloop & Hlen' & Hbefore & Hafter & Hok).
    { lia. }
    { intros field p Hin. rewrite Hf1 in Hin.
      apply list_elem_of_lookup in Hin as [j Hj].
      destruct (decide (j = k)) as [-> | Hne].
      - rewrite list_lookup_insert_eq in Hj by done. injection Hj as <-.
        cbn. apply Hpat. by apply (list_elem_of_lookup_2 _ k).
      - rewrite list_lookup_insert_ne in Hj by done.
        apply Hpat. by apply (list_elem_of_lookup_2 _ j). }
    exists ok, form'. split.
    { cbn [seq validate_each]. unfold mbind, Run_bind. by rewrite Hrun. }
    split; [congruence |].
    split.
    { intros j Hj. rewrite Hbefore by lia. apply Hsame. lia. }
    split.
    { intros j field Hj Hf. destruct (decide (j = k)) as [-> | Hne].
      - rewrite Hfk in Hf. injection Hf as <-. exists stk. split; [done |].
        rewrite Hbefore by lia. rewrite Hf1. by apply list_lookup_insert_eq.
      - apply Hafter; [lia |]. by rewrite Hsame. }
    rewrite Hok. split.
    + intros [Hacc Hall]. destruct stk as [[] msgk]; cbn in Hacc; [| done].
      split; [done |]. intros j field Hj Hf.
      destruct (decide (j = k)) as [-> | Hne].
      * rewrite Hfk in Hf. injection Hf as <-. eauto.
      * apply (Hall j); [lia |]. by rewrite Hsame.
    + intros [-> Hall]. destruct (Hall k fk (le_n k) Hfk) as [msg Hmsg].
      rewrite Hstk in Hmsg. injection Hmsg as ->. cbn. split; [done |].
      intros j field Hj Hf. apply (Hall j); [lia |]. by rewrite <- Hsame by lia.
Qed.

(** X24.  [validate] checks every field of the form, also after one
    has failed: when every [pattern] on the form is a well-formed
    regular expression, each field ends up marked with its own verdict
    (class and [aria-invalid]), and the result is [true] exactly when
    every field passed. *)
Theorem X24_validate_marks_every_field (form : Form) :
  (∀ field p, field ∈ fields form → pattern field = Some p →
     RegExp_test p (Text.trim (value field)) ≠ None) →
  ∃ ok form',
    validate RegExp_test form = Done ok form'
    ∧ length (fields form') = length (fields form)
    ∧ (∀ j field, fields form !! j = Some field →
         ∃ st field',
           run_checks RegExp_test field = Some st
           ∧ fields form' !! j = Some field'
           ∧ aria_invalid field' = Some (if st.1 then "false" else "true")
           ∧ (("is-valid" ∈ field_classes field') ↔ st.1 = true)
           ∧ (("is-invalid" ∈ field_classes field') ↔ st.1 = false)
           ∧ value field' = value field)
    ∧ (ok = true ↔
         ∀ field, field ∈ fields form →
           ∃ msg, run_checks RegExp_test field = Some (true, msg)).
Proof.
  intros Hpat.
  destruct (validate_each_run (length (fields form)) 0 form true eq_refl Hpat)
    as (ok & form' & Hrun & Hlen & _ & Hafter & Hok).
  exists ok, form'. split; [exact Hrun |]. split; [exact Hlen |].
  split.
  { intros j field Hf. destruct (Hafter j field (Nat.le_0_l j) Hf) as (st & Hst & Hj).
    eexists st, _. split; [exact Hst |]. split; [exact Hj |].
    cbn [aria_invalid field_classes value with_state].
    split; [done |].
    split.
    { destruct st.1; split; try done.
      - intros _. apply classList_add_in.
      - intros Hin. apply classList_add_other in Hin; [| done].
        by apply classList_remove_out in Hin. }
    split; [| done].
    destruct st.1; split; try done.
    - intros Hin. apply classList_add_other in Hin; [| done].
      by apply classList_remove_out in Hin.
    - intros _. apply classList_add_in. }
  rewrite Hok. split.
  - intros [_ Hall] field [j Hj]%list_elem_of_lookup.
    by apply (Hall j field (Nat.le_0_l j)).
  - intros Hall. split; [done |]. intros j field _ Hj.
    apply Hall. by apply (list_elem_of_lookup_2 _ j).
Qed.

End WholeForm.

Lemma X24_validate_marks_every_field_witness :
  ∃ form',
    validate (λ _ _, None)
      (mkForm [ text_field true "text" None [];
                text_field true "email" None (Text.lit "info@amd.example") ]
              [mkErrorEl [] None])
    = Done false form'
    ∧ aria_invalid <$> fields form' = [Some "true"; Some "false"].
Proof.
  destruct (X24_validate_marks_every_field (λ _ _, None)
              (mkForm [ text_field true "text" None [];
                        text_field true "email" None (Text.lit "info@amd.example") ]
                      [mkErrorEl [] None]))
    as (ok & form' & Hrun & _).
  - intros field p Hin Hp. cbn in Hin.
    rewrite !elem_of_cons, elem_of_nil in Hin.
    destruct Hin as [-> | [-> | []]]; discriminate Hp.
  - eexists. split; reflexivity.
Defined.

Section Typing.

Variable RegExp_test : Text.text → Text.text → option bool.

(** X29.  While the visitor types, a field is validated again only if
    it is marked invalid: after a verdict of invalid, every change of
    the value runs [validateField] on the new value; after a verdict of
    valid, typing changes nothing, whatever is typed, until the field is
    validated by a blur or a submit. *)
Theorem X29_typing_revalidates_invalid_only
    (form form1 : Form) (i : nat) (field : Field) (ok : bool) (v : Text.text) :
  fields form !! i = Some field →
  validateField RegExp_test i form = Done ok form1 →
  (ok = true →
     on_input RegExp_test i (type_value i v form1) = Done tt (type_value i v form1))
  ∧ (ok = false →
     on_input RegExp_test i (type_value i v form1)
     = (validateField RegExp_test i ;; mret tt) (type_value i v form1)).
Proof.
  intros Hi Hrun.
  rewrite (validateField_run RegExp_test form i field Hi) in Hrun.
  destruct (run_checks RegExp_test field) as [[ok' msg]|] eqn:Hchk; [| done].
  cbn [fst snd] in Hrun.
  destruct (setFieldState_run form i field ok' msg Hi) as (form' & Hset & Hfields & _).
  rewrite Hset in Hrun. cbn in Hrun. injection Hrun as -> ->.
  pose proof (lookup_lt_Some _ _ _ Hi) as Hlt.
  assert (Hlook : ∃ f, fields (type_value i v form1) !! i = Some f
            ∧ field_classes f
              = (if ok
                 then classList_add "is-valid"
                        (classList_remove "is-invalid" (field_classes field))
                 else classList_add "is-invalid"
                        (classList_remove "is-valid" (field_classes field)))).
  { unfold type_value. cbn [fields]. rewrite list_lookup_alter_eq, Hfields.
    rewrite list_lookup_insert_eq by done. cbn. eauto. }
  destruct Hlook as (f & Hf & Hcls).
  unfold on_input. rewrite Hf, Hcls. split; intros ->.
  - rewrite bool_decide_eq_false_2; [done |].
    intros Hin. apply classList_add_other in Hin; [| done].
    by apply classList_remove_out in Hin.
  - by rewrite bool_decide_eq_true_2 by apply classList_add_in.
Qed.

End Typing.

Lemma X29_typing_revalidates_invalid_only_witness :
  on_input (λ _ _, None) 0
    (type_value 0 (Text.lit "x")
       (state_of (validateField (λ _ _, None) 0
          (one_field_form (text_field true "email" None (Text.lit "info@amd.example"))))))
  = Done tt
      (type_value 0 (Text.lit "x")
         (state_of (validateField (λ _ _, None) 0
            (one_field_form (text_field true "email" None (Text.lit "info@amd.example")))))).
Proof.
  destruct (X29_typing_revalidates_invalid_only (λ _ _, None)
              (one_field_form (text_field true "email" None (Text.lit "info@amd.example")))
              (state_of (validateField (λ _ _, None) 0
                 (one_field_form (text_field true "email" None (Text.lit "info@amd.example")))))
              0 (text_field true "email" None (Text.lit "info@amd.example")) true
              (Text.lit "x"))
    as (Hvalid & _).
  - reflexivity.
  - reflexivity.
  - by apply Hvalid.
Defined.

(** * Project filter *)

Lemma timers_set_elem (filter : string) (ps : list Project) (k j : nat) :
  j ∈ ProjectFilter.timers_set filter k ps
  ↔ ∃ i project, j = (k + i)%nat ∧ ps !! i = Some project
                 ∧ (ProjectFilter.filter_project filter project).2 = true.
Proof.
  revert k. induction ps as [|p ps IH]; intros k; cbn [ProjectFilter.timers_set].
  - rewrite elem_of_nil. split; [done |]. by intros (i & project & _ & Hi & _).
  - assert (Hstep : j ∈ ProjectFilter.timers_set filter (S k) ps
                    ↔ ∃ i project, j = (k + S i)%nat ∧ ps !! i = Some project
                                   ∧ (ProjectFilter.filter_project filter project).2 = true).
    { rewrite IH. split; intros (i & project & -> & Hi & Hm); exists i, project;
        (split; [lia | done]). }
    destruct ((ProjectFilter.filter_project filter p).2) eqn:Ep.
    + rewrite elem_of_cons, Hstep. split.
      * intros [-> | (i & project & -> & Hi & Hm)].
        -- exists 0%nat, p. split; [lia | done].
        -- exists (S i), project. done.
      * intros ([|i] & project & -> & Hi & Hm).
        -- left. lia.
        -- right. exists i, project. done.
    + rewrite Hstep. split.
      * intros (i & project & -> & Hi & Hm). exists (S i), project. done.
      * intros ([|i] & project & -> & Hi & Hm).
        -- cbn in Hi. injection Hi as ->. congruence.
        -- exists i, project. done.
Qed.

Lemma timers_fire_run (p : FilterPage) :
  ProjectFilter.timers_fire p
  = Done tt
      (mkFilterPage (filters p)
         (foldl (λ ps j,
                   alter (λ project,
                            mkProject (data_category project) (style_display project)
                                      "1" "translateY(0)") j ps)
                (projects p) (timers p))
         []).
Proof.
  unfold ProjectFilter.timers_fire.
  generalize (projects p) as ps. induction (timers p) as [|j ts IH]; intros ps.
  - reflexivity.
  - cbn [foldl]. apply IH.
Qed.

Lemma fired_lookup (ts : list nat) (ps : list Project) (j : nat) :
  foldl (λ ps j,
           alter (λ project,
                    mkProject (data_category project) (style_display project)
                              "1" "translateY(0)") j ps) ps ts !! j
  = if bool_decide (j ∈ ts)
    then (λ project, mkProject (data_category project) (style_display project)
                               "1" "translateY(0)") <$> ps !! j
    else ps !! j.
Proof.
  revert ps. induction ts as [|t ts IH]; intros ps; cbn [foldl].
  - by rewrite bool_decide_eq_false_2 by apply not_elem_of_nil.
  - rewrite IH. destruct (decide (j = t)) as [-> | Hne].
    + rewrite list_lookup_alter_eq.
      rewrite (bool_decide_eq_true_2 (t ∈ t :: ts)) by (apply elem_of_cons; by left).
      case_bool_decide; [| done]. by destruct (ps !! t).
    + rewrite list_lookup_alter_ne by done.
      case_bool_decide as E1; case_bool_decide as E2; try done.
      * destruct E2. apply elem_of_cons. by right.
      * apply elem_of_cons in E2 as [? | ?]; done.
Qed.

(** X25.  A click on a filter button, once the timers it set have
    fired: every project whose category is the filter of the button, and
    every project when the filter is [all], is displayed, fully opaque
    and in place; every other project has [display: none]; no timer is
    left pending.  The stale timers of an earlier click do not change
    this. *)
Theorem X25_filter_shows_matching (p : FilterPage) (i : nat) (btn : FilterBtn) :
  filters p !! i = Some btn →
  ∃ p1 p2,
    ProjectFilter.on_filter_click i p = Done tt p1
    ∧ ProjectFilter.timers_fire p1 = Done tt p2
    ∧ timers p2 = []
    ∧ length (projects p2) = length (projects p)
    ∧ ∀ j project, projects p !! j = Some project →
        ∃ project',
          projects p2 !! j = Some project'
          ∧ data_category project' = data_category project
          ∧ (data_filter btn = "all" ∨ data_filter btn = data_category project →
               style_display project' = ""
               ∧ style_opacity project' = "1"
               ∧ style_transform project' = "translateY(0)")
          ∧ (data_filter btn ≠ "all" → data_filter btn ≠ data_category project →
               style_display project' = "none").
Proof.
  intros Hi. unfold ProjectFilter.on_filter_click. rewrite Hi.
  eexists _, _. split; [reflexivity |].
  rewrite timers_fire_run. split; [reflexivity |]. cbn [timers projects filters].
  split; [done |].
  split.
  { assert (Hlen : ∀ ts (ps : list Project),
              length (foldl (λ ps j,
                        alter (λ project,
                                 mkProject (data_category project)
                                   (style_display project) "1" "translateY(0)") j ps)
                        ps ts) = length ps).
    { induction ts as [|t ts IH]; intros ps; [done |]. cbn [foldl].
      by rewrite IH, length_alter. }
    by rewrite Hlen, length_fmap. }
  intros j project Hj. rewrite fired_lookup, list_lookup_fmap, Hj. cbn [fmap option_fmap option_map].
  unfold ProjectFilter.filter_project.
  destruct (bool_decide (data_filter btn = "all")
            || bool_decide (data_filter btn = data_category project)) eqn:Em.
  - rewrite bool_decide_eq_true_2.
    + eexists. split; [reflexivity |]. cbn. split; [done |]. split; [done |].
      intros Hall Hcat. apply orb_true_iff in Em as [Em | Em];
        apply bool_decide_eq_true in Em; congruence.
    + apply elem_of_app. right. apply timers_set_elem.
      exists j, project. split; [done |]. split; [done |].
      unfold ProjectFilter.filter_project. by rewrite Em.
  - apply orb_false_iff in Em as [Ea Ec].
    apply bool_decide_eq_false in Ea, Ec.
    assert (Hshape : ∀ b : bool,
              ∃ project',
                (if b
                 then (λ project0, mkProject (data_category project0)
                                     (style_display project0) "1" "translateY(0)")
                        <$> Some (mkProject (data_category project) "none"
                                    (style_opacity project) (style_transform project))
                 else Some (mkProject (data_category project) "none"
                              (style_opacity project) (style_transform project)))
                = Some project'
                ∧ data_category project' = data_category project
                ∧ style_display project' = "none").
    { intros []; eexists; split; try reflexivity; done. }
    destruct (Hshape (bool_decide
                        (j ∈ timers p ++ ProjectFilter.timers_set (data_filter btn) 0 (projects p))))
      as (project' & E & Hc & Hd).
    exists project'. split; [exact E |]. split; [exact Hc |].
    split; [by intros [? | ?] | done].
Qed.

Lemma X25_filter_shows_matching_witness :
  ∃ p1 p2,
    ProjectFilter.on_filter_click 1 filter_page = Done tt p1
    ∧ ProjectFilter.timers_fire p1 = Done tt p2
    ∧ style_display <$> projects p2 = [""; "none"].
Proof.
  destruct (X25_filter_shows_matching filter_page 1
              (mkFilterBtn "villa" ["btn"; "btn--outline"] 1) eq_refl)
    as (p1 & p2 & H1 & H2 & _).
  exists p1, p2. split; [exact H1 |]. split; [exact H2 |].
  unfold ProjectFilter.on_filter_click in H1. cbn in H1. injection H1 as <-.
  rewrite timers_fire_run in H2. injection H2 as <-. reflexivity.
Defined.

(** X26.  After a click on the filter button at position [i], that
    button carries [btn--primary] and not [btn--outline], and every
    other filter button carries [btn--outline] and not [btn--primary];
    the other classes and the filters of the buttons are as before. *)
Theorem X26_filter_active_button (p : FilterPage) (i : nat) (btn : FilterBtn) :
  filters p !! i = Some btn →
  ∃ p1,
    ProjectFilter.on_filter_click i p = Done tt p1
    ∧ length (filters p1) = length (filters p)
    ∧ ∀ j b, filters p !! j = Some b →
        ∃ b',
          filters p1 !! j = Some b'
          ∧ data_filter b' = data_filter b
          ∧ (("btn--primary" ∈ filter_classes b') ↔ j = i)
          ∧ (("btn--outline" ∈ filter_classes b') ↔ j ≠ i)
          ∧ (∀ c, c ≠ "btn--primary" → c ≠ "btn--outline" →
               (c ∈ filter_classes b') ↔ (c ∈ filter_classes b)).
Proof.
  intros Hi. unfold ProjectFilter.on_filter_click. rewrite Hi.
  eexists. split; [reflexivity |]. cbn [filters].
  split; [by rewrite length_alter, length_fmap |].
  intros j b Hj. destruct (decide (i = j)) as [-> | Hne].
  - rewrite list_lookup_alter_eq, list_lookup_fmap, Hj. cbn -[classList_add classList_remove].
    eexists. split; [reflexivity |]. cbn -[classList_add classList_remove]. split; [done |].
    split; [split; [done | intros _; apply classList_add_in] |].
    split.
    + split; [| done]. intros Hin. apply classList_add_other in Hin; [| done].
      by apply classList_remove_out in Hin.
    + intros c Hp Ho.
      rewrite (classList_add_other "btn--primary" c) by congruence.
      rewrite (classList_remove_other "btn--outline" c) by congruence.
      rewrite (classList_add_other "btn--outline" c) by congruence.
      by rewrite (classList_remove_other "btn--primary" c) by congruence.
  - rewrite list_lookup_alter_ne, list_lookup_fmap, Hj by done. cbn -[classList_add classList_remove].
    eexists. split; [reflexivity |]. cbn -[classList_add classList_remove]. split; [done |].
    split.
    + split; [| by intros ->]. intros Hin. apply classList_add_other in Hin; [| done].
      by apply classList_remove_out in Hin.
    + split; [split; [by intros _ -> | intros _; apply classList_add_in] |].
      intros c Hp Ho.
      rewrite (classList_add_other "btn--outline" c) by congruence.
      by rewrite (classList_remove_other "btn--primary" c) by congruence.
Qed.

Lemma X26_filter_active_button_witness :
  ∃ p1,
    ProjectFilter.on_filter_click 1 filter_page = Done tt p1
    ∧ filter_classes <$> filters p1
      = [["btn"; "btn--outline"]; ["btn"; "btn--primary"]].
Proof.
  destruct (X26_filter_active_button filter_page 1
              (mkFilterBtn "villa" ["btn"; "btn--outline"] 1) eq_refl)
    as (p1 & H1 & _).
  exists p1. split; [exact H1 |].
  unfold ProjectFilter.on_filter_click in H1. cbn in H1. injection H1 as <-.
  reflexivity.
Defined.

(** * Image gallery *)

(** X27.  A click on the thumbnail at position [i] of a gallery with a
    main image shows in the main image the picture of that thumbnail,
    its [data-src] when that is set and not empty and its own [src]
    otherwise, with its [alt]; and leaves [is-active] on that thumbnail
    and on no other.  The keys [Enter] and space do what the click does
    and suppress the default action; any other key does nothing. *)
Theorem X27_gallery_click (g : Gallery) (i : nat) (thumb : Thumb) (main : MainImg) :
  thumbs g !! i = Some thumb →
  gallery_main g = Some main →
  ∃ g',
    ImageGallery.on_thumb_click i g = Done tt g'
    ∧ (∀ s, thumb_data_src thumb = Some s → s ≠ "" →
         gallery_main g' = Some (mkMainImg s (thumb_alt thumb)))
    ∧ (thumb_data_src thumb = None ∨ thumb_data_src thumb = Some "" →
         gallery_main g' = Some (mkMainImg (thumb_src thumb) (thumb_alt thumb)))
    ∧ length (thumbs g') = length (thumbs g)
    ∧ (∀ j t, thumbs g !! j = Some t →
         ∃ t', thumbs g' !! j = Some t'
               ∧ (("is-active" ∈ thumb_classes t') ↔ j = i)
               ∧ thumb_src t' = thumb_src t ∧ thumb_alt t' = thumb_alt t
               ∧ thumb_data_src t' = thumb_data_src t)
    ∧ ImageGallery.on_thumb_keydown "Enter" i g = Done true g'
    ∧ ImageGallery.on_thumb_keydown " " i g = Done true g'
    ∧ (∀ key, key ≠ "Enter" → key ≠ " " →
         ImageGallery.on_thumb_keydown key i g = Done false g).
Proof.
  intros Hi Hm.
  assert (Hclick : ∃ g', ImageGallery.on_thumb_click i g = Done tt g'
            ∧ gallery_main g'
              = Some (mkMainImg
                        (if JS.truthy (thumb_data_src thumb)
                         then JS.to_string (thumb_data_src thumb) else thumb_src thumb)
                        (thumb_alt thumb))
            ∧ thumbs g'
              = alter (λ t, mkThumb (thumb_data_src t) (thumb_src t) (thumb_alt t)
                              (classList_add "is-active" (thumb_classes t))
                              (thumb_click_listeners t) (thumb_keydown_listeners t)) i
                  ((λ t, mkThumb (thumb_data_src t) (thumb_src t) (thumb_alt t)
                           (classList_remove "is-active" (thumb_classes t))
                           (thumb_click_listeners t) (thumb_keydown_listeners t))
                     <$> thumbs g)).
  { unfold ImageGallery.on_thumb_click. rewrite Hi, Hm. eauto. }
  destruct Hclick as (g' & Hrun & Hmain & Hthumbs).
  exists g'. split; [exact Hrun |].
  split.
  { intros s Hs Hne. rewrite Hmain, Hs. cbn. by rewrite bool_decide_eq_false_2. }
  split.
  { intros [Hs | Hs]; rewrite Hmain, Hs; done. }
  split; [by rewrite Hthumbs, length_alter, length_fmap |].
  split.
  { intros j t Hj. rewrite Hthumbs. destruct (decide (i = j)) as [-> | Hne].
    - rewrite list_lookup_alter_eq, list_lookup_fmap, Hj. cbn -[classList_add classList_remove].
      eexists. split; [reflexivity |]. cbn -[classList_add classList_remove].
      split; [split; [done | intros _; apply classList_add_in] | done].
    - rewrite list_lookup_alter_ne, list_lookup_fmap, Hj by done. cbn -[classList_add classList_remove].
      eexists. split; [reflexivity |]. cbn -[classList_add classList_remove]. split; [| done].
      split; [| by intros ->]. intros Hin. by apply classList_remove_out in Hin. }
  assert (Hkey : ∀ key, key = "Enter" ∨ key = " " →
            ImageGallery.on_thumb_keydown key i g = Done true g').
  { intros key Hk. unfold ImageGallery.on_thumb_keydown.
    assert (bool_decide (key = "Enter") || bool_decide (key = " ") = true) as ->
      by (by destruct Hk as [-> | ->]).
    unfold mbind, Run_bind. by rewrite Hrun. }
  split; [apply Hkey; by left |].
  split; [apply Hkey; by right |].
  intros key H1 H2. unfold ImageGallery.on_thumb_keydown.
  by rewrite !bool_decide_eq_false_2.
Qed.

Lemma X27_gallery_click_witness :
  ∃ g',
    ImageGallery.on_thumb_click 1 gallery_page = Done tt g'
    ∧ gallery_main g' = Some (mkMainImg "b.jpg" "B").
Proof.
  destruct (X27_gallery_click gallery_page 1
              (mkThumb None "b.jpg" "B" ["gallery__thumb"] 1 1)
              (mkMainImg "a-large.jpg" "A") eq_refl eq_refl)
    as (g' & Hrun & _ & Hsrc & _).
  exists g'. split; [exact Hrun |]. apply Hsrc. by left.
Defined.

(** * Header shadow on scroll *)

Lemma run_listeners_ticking (n : nat) (p : HeaderPage) :
  ticking p = Some true → HeaderScroll.run_listeners n p = Done tt p.
Proof.
  intros Ht. induction n as [|n IH]; [done |].
  cbn [HeaderScroll.run_listeners]. unfold mbind, Run_bind.
  unfold HeaderScroll.onScroll. rewrite Ht. cbn. exact IH.
Qed.

(** X28.  Scroll events are coalesced: after [init], whatever the
    number of scroll events that arrive before the next frame, exactly
    one update is pending; and when the frame is rendered that update
    runs once, nothing is left pending, and the header carries
    [header--scrolled] exactly when the page is scrolled by more than 10
    pixels at that moment. *)
Theorem X28_scroll_coalesced (p : HeaderPage) (classes : list string) :
  header_classes p = Some classes →
  let settled (q : HeaderPage) :=
    (ticking q = Some true ∧ pending_frames q = 1%nat)
    ∨ (ticking q = Some false ∧ pending_frames q = 0%nat) in
  (pending_frames p = 0%nat →
     ∃ p0, HeaderScroll.init p = Done tt p0 ∧ settled p0
           ∧ scroll_listeners p0 = S (scroll_listeners p)
           ∧ header_classes p0 = header_classes p)
  ∧ (settled p → (1 ≤ scroll_listeners p)%nat →
     ∀ y, ∃ p',
       HeaderScroll.scroll_to y p = Done tt p'
       ∧ ticking p' = Some true ∧ pending_frames p' = 1%nat
       ∧ scrollY p' = y ∧ header_classes p' = header_classes p)
  ∧ (settled p →
     ∃ p',
       HeaderScroll.next_frame p = Done tt p'
       ∧ ticking p' = Some false ∧ pending_frames p' = 0%nat
       ∧ scrollY p' = scrollY p
       ∧ (pending_frames p = 0%nat → header_classes p' = header_classes p)
       ∧ (pending_frames p = 1%nat →
            ∃ classes',
              header_classes p' = Some classes'
              ∧ (("header--scrolled" ∈ classes')
                 ↔ QArith_base.Qlt (QArith_base.Qmake 10 1) (scrollY p))
              ∧ lastScrollY p' = Some (scrollY p))).
Proof.
  intros Hh settled. subst settled.
  destruct p as [hc y ly tk pf sl]. cbn in Hh. subst hc.
  cbn [ticking pending_frames scroll_listeners header_classes scrollY lastScrollY].
  split.
  { cbn. intros ->. eexists. split; [reflexivity |]. cbn.
    split; [by right | done]. }
  split.
  { cbn. intros Hs Hsl y'. destruct sl as [|sl]; [lia |].
    unfold HeaderScroll.scroll_to. cbn [scroll_listeners HeaderScroll.run_listeners].
    unfold mbind, Run_bind, HeaderScroll.onScroll. cbn.
    destruct Hs as [[-> ->] | [-> ->]]; cbn.
    - rewrite run_listeners_ticking by done. eexists. split; [reflexivity |]. done.
    - rewrite run_listeners_ticking by done. eexists. split; [reflexivity |]. done. }
  cbn. intros [[-> ->] | [-> ->]].
  - unfold HeaderScroll.next_frame. cbn.
    unfold mbind, Run_bind, HeaderScroll.frame_callback, mbind, Run_bind,
      HeaderScroll.update, change_header, update. cbn.
    eexists. split; [reflexivity |]. cbn.
    split; [done |]. split; [done |]. split; [done |]. split; [done |].
    intros _. eexists. split; [reflexivity |]. split; [| done].
    destruct (QArith_base.Qle_bool y (QArith_base.Qmake 10 1)) eqn:E; cbn [negb].
    + apply QArith_base.Qle_bool_iff in E. split.
      * intros Hin. by apply classList_remove_out in Hin.
      * intros Hlt. by apply QArith_base.Qlt_not_le in Hlt.
    + split; [| intros _; apply classList_add_in].
      intros _. apply QArith_base.Qnot_le_lt. intros Hle.
      apply QArith_base.Qle_bool_iff in Hle. congruence.
  - unfold HeaderScroll.next_frame. cbn.
    eexists. split; [reflexivity |]. cbn.
    split; [done |]. split; [done |]. split; [done |]. split; [done |].
    intros H. discriminate H.
Qed.

Lemma X28_scroll_coalesced_witness :
  ∃ p0,
    HeaderScroll.init
      (mkHeaderPage (Some ["header"]) (QArith_base.Qmake 0 1) None None 0 0)
    = Done tt p0
    ∧ scroll_listeners p0 = 1%nat.
Proof.
  destruct (X28_scroll_coalesced
              (mkHeaderPage (Some ["header"]) (QArith_base.Qmake 0 1) None None 0 0)
              ["header"] eq_refl)
    as (Hinit & _).
  destruct (Hinit eq_refl) as (p0 & Hrun & _ & Hsl & _).
  exists p0. split; [exact Hrun | exact Hsl].
Defined.
